(** * The priority-based audio playback controller

    A shallow embedding of [useAudioControl]
    (src/library/audioControlUtility.ts).

    The hook keeps its state in React refs that live as long as the
    component; the audio elements themselves are browser objects owned by the
    caller and passed in by reference.  The embedding therefore has

    - a [State] record holding the five refs of the hook together with the
      part of the browser the hook talks to: the audio elements, addressed
      by reference ([heap]), the user-agent test and the list of caller
      callbacks that have been run;
    - one function per closure of the hook, named as in the source, taking the
      state in and giving the state out;
    - the two answers the browser can give asynchronously (does the
      [AudioContext] come up, does the promise of [play()] resolve) as an
      explicit [Device] argument of the operations that await them.

    Volumes, positions and durations are JavaScript numbers; they are
    represented by rationals, and [NaN] as the duration of an element whose
    metadata is not loaded by [None].  A volume is always a rational: a
    caller that hands the controller [NaN] as a volume is not represented.

    The two [async] functions of the hook give control back at their
    [await]s.  [playBackgroundMusic] writes its record after [await play()]:
    its two halves, [playBackgroundMusicStart] and
    [playBackgroundMusicSettled], are operations of their own, between which
    any other operation may come, and [playBackgroundMusic] is the call in
    which none does.  [playAudio] awaits [audioContext.resume()] between its
    admission test and its body, and writes nothing after [await play()]; it
    is taken as one step, the one in which its body runs.  A body that runs
    later than the test that admitted it is the step of the same request with
    [ignorePriority] set, which is also an operation
    ([playAudio_body_run_later]).  The browser reads the metadata of an
    element at a time of its own ([loadMetadata]).  The [visibilitychange]
    listener on the document is left out. *)

From Stdlib Require Import QArith Qminmax Lqa.
From stdpp Require Import gmap list strings.

(** ** Object identities *)

(** A reference to an [HTMLAudioElement].  The parameters of the hook are typed
    [HTMLAudioElement], so the [if (!audioRef) return] guards at the head of
    its functions never fire on a well-typed argument and have no counterpart
    here. *)
Definition handle := nat.

(** The identity of a caller-supplied [onEnd] closure. *)
Definition callback := nat.

Inductive Preload := PreloadAuto | PreloadMetadata | PreloadNone.

(** ** Data model *)

(** [interface AudioControlOptions]: every field is optional. *)
Module AudioControlOptions.
Record t := mk {
  stopPrevious : option bool;
  volume : option Q;
  loop : option bool;
  onEnd : option callback;
  priority : option bool;
  ignorePriority : option bool;
  queueIfBlocked : option bool;
  preload : option Preload;
  playbackRate : option Q
}.

(** [{}] *)
Definition empty : t := mk None None None None None None None None None.

(** [{ ...options, ignorePriority: true }] *)
Definition withIgnorePriority (o : t) : t :=
  mk (stopPrevious o) (volume o) (loop o) (onEnd o) (priority o)
     (Some true) (queueIfBlocked o) (preload o) (playbackRate o).
End AudioControlOptions.

(** [interface AudioMetadata] *)
Module AudioMetadata.
Record t := mk {
  duration : option Q;
  currentTime : Q;
  isPlaying : bool
}.
End AudioMetadata.

(** [interface BackgroundMusicState] *)
Module BackgroundMusicState.
Record t := mk {
  audioRef : option handle;
  volume : Q;
  isPlaying : bool;
  originalVolume : Q;
  enableDucking : bool
}.
End BackgroundMusicState.

(** What [enhancedOnEnd] captures from the call of [playAudio] that installed
    it: the destructured [onEnd] and [priority]. *)
Record EndHandler := {
  captured_onEnd : option callback;
  captured_priority : bool
}.

(** The attributes of an [HTMLAudioElement] that the hook reads or writes.
    [listeners] counts how many times [configureAudio] has attached its four
    tracking listeners. *)
Module HTMLAudioElement.
Record t := mk {
  paused : bool;
  currentTime : Q;
  duration : option Q;
  volume : Q;
  loop : bool;
  playbackRate : Q;
  preload : Preload;
  onended : option EndHandler;
  listeners : nat
}.

(** [new Audio(src)] before anything has been loaded. *)
Definition fresh : t :=
  mk true 0 None 1 false 1 PreloadAuto None 0.

(** [new Audio(src)] once its metadata is there. *)
Definition loaded (d : Q) : t :=
  mk true 0 (Some d) 1 false 1 PreloadAuto None 0.

Definition set_paused (b : bool) (e : t) : t :=
  mk b (currentTime e) (duration e) (volume e) (loop e) (playbackRate e)
     (preload e) (onended e) (listeners e).
Definition set_currentTime (x : Q) (e : t) : t :=
  mk (paused e) x (duration e) (volume e) (loop e) (playbackRate e)
     (preload e) (onended e) (listeners e).
Definition set_volume (x : Q) (e : t) : t :=
  mk (paused e) (currentTime e) (duration e) x (loop e) (playbackRate e)
     (preload e) (onended e) (listeners e).
Definition set_loop (b : bool) (e : t) : t :=
  mk (paused e) (currentTime e) (duration e) (volume e) b (playbackRate e)
     (preload e) (onended e) (listeners e).
Definition set_playbackRate (x : Q) (e : t) : t :=
  mk (paused e) (currentTime e) (duration e) (volume e) (loop e) x
     (preload e) (onended e) (listeners e).
Definition set_preload (p : Preload) (e : t) : t :=
  mk (paused e) (currentTime e) (duration e) (volume e) (loop e)
     (playbackRate e) p (onended e) (listeners e).
Definition set_onended (h : option EndHandler) (e : t) : t :=
  mk (paused e) (currentTime e) (duration e) (volume e) (loop e)
     (playbackRate e) (preload e) h (listeners e).
Definition addEventListeners (e : t) : t :=
  mk (paused e) (currentTime e) (duration e) (volume e) (loop e)
     (playbackRate e) (preload e) (onended e) (S (listeners e)).

(** [duration] is read-only for scripts: the browser sets it when it has
    read the metadata of the media. *)
Definition set_duration (d : option Q) (e : t) : t :=
  mk (paused e) (currentTime e) d (volume e) (loop e) (playbackRate e)
     (preload e) (onended e) (listeners e).

(** [x < duration], false when the duration is [NaN]. *)
Definition before_end (x : Q) (d : option Q) : bool :=
  match d with
  | Some d => negb (Qle_bool d x)
  | None => false
  end.

(** [pause()] *)
Definition pause (e : t) : t := set_paused true e.

(** [play()] when its promise resolves: playback runs, from the start if
    the element had reached its end. *)
Definition play (e : t) : t :=
  set_paused false
    (if before_end (currentTime e) (duration e) then e
     else match duration e with
          | Some _ => set_currentTime 0 e
          | None => e
          end).

(** Playback reaches the end of the media (no loop): the position is the
    duration and the element is paused; the [ended] event follows. *)
Definition finish (e : t) : t :=
  set_paused true (set_currentTime (default (currentTime e) (duration e)) e).
End HTMLAudioElement.

#[global] Instance HTMLAudioElement_inhabited : Inhabited HTMLAudioElement.t :=
  populate HTMLAudioElement.fresh.

(** An entry of [priorityQueueRef]. *)
Module Queued.
Record t := mk {
  audioRef : handle;
  options : AudioControlOptions.t
}.
End Queued.

(** What the browser answers to the two things [playAudio] awaits.  A
    rejected [play()] leaves the element as it was (the rejection of a
    playback that is not allowed or not supported). *)
Inductive PlayPromise := Resolves | Rejects.

Record Device := {
  audioContextOk : bool;     (* [new AudioContext()] and [resume()] do not throw *)
  playPromise : PlayPromise  (* the promise returned by [play()] *)
}.

Definition deviceOk : Device := {| audioContextOk := true; playPromise := Resolves |}.
Definition deviceRejects : Device := {| audioContextOk := true; playPromise := Rejects |}.

(** The refs of the hook and the browser around them. *)
Record State := mkState {
  previousAudioRef : option handle;
  priorityAudioRef : option handle;
  bgMusicRef : BackgroundMusicState.t;
  audioMetadataRef : AudioMetadata.t;
  priorityQueueRef : list Queued.t;
  heap : gmap handle HTMLAudioElement.t;
  isMobile : bool;
  invoked : list callback
}.

Definition set_previousAudioRef (r : option handle) (s : State) : State :=
  mkState r (priorityAudioRef s) (bgMusicRef s) (audioMetadataRef s)
          (priorityQueueRef s) (heap s) (isMobile s) (invoked s).
Definition set_priorityAudioRef (r : option handle) (s : State) : State :=
  mkState (previousAudioRef s) r (bgMusicRef s) (audioMetadataRef s)
          (priorityQueueRef s) (heap s) (isMobile s) (invoked s).
Definition set_bgMusicRef (b : BackgroundMusicState.t) (s : State) : State :=
  mkState (previousAudioRef s) (priorityAudioRef s) b (audioMetadataRef s)
          (priorityQueueRef s) (heap s) (isMobile s) (invoked s).
Definition set_audioMetadataRef (m : AudioMetadata.t) (s : State) : State :=
  mkState (previousAudioRef s) (priorityAudioRef s) (bgMusicRef s) m
          (priorityQueueRef s) (heap s) (isMobile s) (invoked s).
Definition set_priorityQueueRef (q : list Queued.t) (s : State) : State :=
  mkState (previousAudioRef s) (priorityAudioRef s) (bgMusicRef s)
          (audioMetadataRef s) q (heap s) (isMobile s) (invoked s).
Definition set_heap (m : gmap handle HTMLAudioElement.t) (s : State) : State :=
  mkState (previousAudioRef s) (priorityAudioRef s) (bgMusicRef s)
          (audioMetadataRef s) (priorityQueueRef s) m (isMobile s) (invoked s).
Definition set_invoked (l : list callback) (s : State) : State :=
  mkState (previousAudioRef s) (priorityAudioRef s) (bgMusicRef s)
          (audioMetadataRef s) (priorityQueueRef s) (heap s) (isMobile s) l.

(** Reading and writing through a reference.  A reference that has not been
    written yet denotes a fresh element. *)
Definition deref (h : handle) (s : State) : HTMLAudioElement.t := heap s !!! h.

Definition modify (h : handle) (f : HTMLAudioElement.t → HTMLAudioElement.t)
    (s : State) : State :=
  set_heap (<[h := f (deref h s)]> (heap s)) s.

(** The initial values of the refs. *)
Definition initialBgMusic : BackgroundMusicState.t :=
  BackgroundMusicState.mk None 1 false 1 true.

Definition initialMetadata : AudioMetadata.t :=
  AudioMetadata.mk None 0 false.

Definition initial (m : gmap handle HTMLAudioElement.t) (mobile : bool) : State :=
  mkState None None initialBgMusic initialMetadata [] m mobile [].

(** ** The operations of the hook *)

(** [Math.max(0, Math.min(1, volume))], for a [volume] that is a number.
    ([Math.min] and [Math.max] hand [NaN] through; [NaN] is no rational, so
    that case has no counterpart here.) *)
Definition normalize (volume : Q) : Q := Qmax 0 (Qmin 1 volume).

(** The range in which the [volume] setter of a media element accepts its
    argument; outside of it the setter throws an [IndexSizeError]. *)
Definition volumeAccepted (volume : Q) : bool :=
  Qle_bool 0 volume && Qle_bool volume 1.

(** [cleanupEventListeners]: each [removeEventListener] is handed a closure
    made on the spot, which is no listener of the element, so nothing is
    detached. *)
Definition cleanupEventListeners (audioRef : handle) (s : State) : State := s.

Definition hasPriorityAudio (s : State) : bool :=
  match priorityAudioRef s with
  | Some p =>
      negb (HTMLAudioElement.paused (deref p s))
      && HTMLAudioElement.before_end
           (HTMLAudioElement.currentTime (deref p s))
           (HTMLAudioElement.duration (deref p s))
  | None => false
  end.

(** [stopAudio].  Neither [pause()] nor the setter of [currentTime] throws,
    so the [catch] is never entered. *)
Definition stopAudio (audioRef : handle) (s : State) : State :=
  cleanupEventListeners audioRef
    (modify audioRef (HTMLAudioElement.set_currentTime 0)
       (modify audioRef HTMLAudioElement.pause s)).

Definition setVolume (audioRef : handle) (volume : Q) (s : State) : State :=
  modify audioRef (HTMLAudioElement.set_volume (normalize volume)) s.

(** [duckBackgroundMusic].  The volume written here, like those written by
    [restoreBackgroundMusic] and [setBackgroundMusicDucking], is computed from
    the recorded volumes.  As long as the volumes handed to the controller
    are numbers, these lie in [[0, 1]] in every state it reaches
    ([reachable_volumes_ok] below), so the setter of the element accepts
    it. *)
Definition duckBackgroundMusic (s : State) : State :=
  let bg := bgMusicRef s in
  match BackgroundMusicState.audioRef bg with
  | Some b =>
      if BackgroundMusicState.isPlaying bg && BackgroundMusicState.enableDucking bg
      then
        let originalVolume := BackgroundMusicState.volume bg in
        modify b (HTMLAudioElement.set_volume (originalVolume * 0.2))
          (set_bgMusicRef
             (BackgroundMusicState.mk (Some b) (BackgroundMusicState.volume bg)
                (BackgroundMusicState.isPlaying bg) originalVolume
                (BackgroundMusicState.enableDucking bg)) s)
      else s
  | None => s
  end.

Definition restoreBackgroundMusic (s : State) : State :=
  let bg := bgMusicRef s in
  match BackgroundMusicState.audioRef bg with
  | Some b =>
      if BackgroundMusicState.isPlaying bg && BackgroundMusicState.enableDucking bg
      then modify b (HTMLAudioElement.set_volume
                       (BackgroundMusicState.originalVolume bg)) s
      else s
  | None => s
  end.

(** [playBackgroundMusic], from the call to the end of its body, when
    nothing else happens while it awaits the promise of [play()]: the promise
    is settled at once.  [volume] and [enableDucking] are optional parameters
    with defaults [1] and [true]. *)
Definition playBackgroundMusic (audioRef : handle) (volume : option Q)
    (enableDucking : option bool) (promise : PlayPromise) (s : State) : State :=
  let volume := default 1%Q volume in
  let enableDucking := default true enableDucking in
  let s1 :=
    match BackgroundMusicState.audioRef (bgMusicRef s) with
    | Some b => stopAudio b s
    | None => s
    end in
  let s2 := modify audioRef (HTMLAudioElement.set_loop true) s1 in
  let normalizedVolume := normalize volume in
  let shouldDuck := hasPriorityAudio s2 && enableDucking in
  let initialVolume :=
    if shouldDuck then (normalizedVolume * 0.2)%Q else normalizedVolume in
  let s3 := modify audioRef (HTMLAudioElement.set_volume initialVolume) s2 in
  let s4 :=
    modify audioRef
      (HTMLAudioElement.set_preload
         (if isMobile s3 then PreloadMetadata else PreloadAuto)) s3 in
  match promise with
  | Resolves =>
      set_bgMusicRef
        (BackgroundMusicState.mk (Some audioRef) initialVolume true
           normalizedVolume enableDucking)
        (modify audioRef HTMLAudioElement.play s4)
  | Rejects => s4
  end.

(** [playBackgroundMusic] up to its [await]: what the call has done when it
    gives control back.  [play()] has been called; when its promise is going
    to resolve, the element is playing from here on.  The function answers
    with [shouldDuck], which the rest of the body closes over (through
    [initialVolume]) together with its arguments. *)
Definition playBackgroundMusicStart (audioRef : handle) (volume : option Q)
    (enableDucking : option bool) (promise : PlayPromise) (s : State)
    : bool * State :=
  let volume := default 1%Q volume in
  let enableDucking := default true enableDucking in
  let s1 :=
    match BackgroundMusicState.audioRef (bgMusicRef s) with
    | Some b => stopAudio b s
    | None => s
    end in
  let s2 := modify audioRef (HTMLAudioElement.set_loop true) s1 in
  let normalizedVolume := normalize volume in
  let shouldDuck := hasPriorityAudio s2 && enableDucking in
  let initialVolume :=
    if shouldDuck then (normalizedVolume * 0.2)%Q else normalizedVolume in
  let s3 := modify audioRef (HTMLAudioElement.set_volume initialVolume) s2 in
  let s4 :=
    modify audioRef
      (HTMLAudioElement.set_preload
         (if isMobile s3 then PreloadMetadata else PreloadAuto)) s3 in
  (shouldDuck,
   match promise with
   | Resolves => modify audioRef HTMLAudioElement.play s4
   | Rejects => s4
   end).

(** The rest of [playBackgroundMusic], which runs when the promise of
    [play()] has resolved, in the state the controller is in by then: the
    record of the music is written from the values computed before the
    [await].  (When the promise is rejected the [catch] logs and nothing is
    written.) *)
Definition playBackgroundMusicSettled (audioRef : handle) (volume : option Q)
    (enableDucking : option bool) (shouldDuck : bool) (s : State) : State :=
  let volume := default 1%Q volume in
  let enableDucking := default true enableDucking in
  let normalizedVolume := normalize volume in
  let initialVolume :=
    if shouldDuck then (normalizedVolume * 0.2)%Q else normalizedVolume in
  set_bgMusicRef
    (BackgroundMusicState.mk (Some audioRef) initialVolume true
       normalizedVolume enableDucking) s.

Definition stopBackgroundMusic (s : State) : State :=
  match BackgroundMusicState.audioRef (bgMusicRef s) with
  | Some b =>
      let s1 := stopAudio b s in
      let bg := bgMusicRef s1 in
      set_bgMusicRef
        (BackgroundMusicState.mk (BackgroundMusicState.audioRef bg)
           (BackgroundMusicState.volume bg) false
           (BackgroundMusicState.originalVolume bg)
           (BackgroundMusicState.enableDucking bg)) s1
  | None => s
  end.

Definition setBackgroundMusicVolume (volume : Q) (s : State) : State :=
  let bg := bgMusicRef s in
  match BackgroundMusicState.audioRef bg with
  | Some b =>
      let normalizedVolume := normalize volume in
      let finalVolume :=
        if hasPriorityAudio s && BackgroundMusicState.enableDucking bg
        then (normalizedVolume * 0.2)%Q else normalizedVolume in
      modify b (HTMLAudioElement.set_volume finalVolume)
        (set_bgMusicRef
           (BackgroundMusicState.mk (Some b) finalVolume
              (BackgroundMusicState.isPlaying bg) normalizedVolume
              (BackgroundMusicState.enableDucking bg)) s)
  | None => s
  end.

Definition setBackgroundMusicDucking (enableDucking : bool) (s : State) : State :=
  let bg := bgMusicRef s in
  match BackgroundMusicState.audioRef bg with
  | Some b =>
      let s1 :=
        set_bgMusicRef
          (BackgroundMusicState.mk (Some b) (BackgroundMusicState.volume bg)
             (BackgroundMusicState.isPlaying bg)
             (BackgroundMusicState.originalVolume bg) enableDucking) s in
      if negb enableDucking && hasPriorityAudio s1 then
        modify b (HTMLAudioElement.set_volume
                    (BackgroundMusicState.originalVolume bg)) s1
      else if enableDucking && hasPriorityAudio s1 then
        modify b (HTMLAudioElement.set_volume
                    (BackgroundMusicState.originalVolume bg * 0.2)) s1
      else s1
  | None => s
  end.

(** [options.playbackRate] is truthy: given and not zero. *)
Definition truthyRate (r : option Q) : option Q :=
  match r with
  | Some x => if Qeq_bool x 0 then None else Some x
  | None => None
  end.

Definition configureAudio (audioRef : handle) (options : AudioControlOptions.t)
    (s : State) : State :=
  let s1 := cleanupEventListeners audioRef s in
  let s2 :=
    modify audioRef
      (HTMLAudioElement.set_preload
         (if isMobile s1 then PreloadMetadata
          else default PreloadAuto (AudioControlOptions.preload options))) s1 in
  let s3 :=
    match truthyRate (AudioControlOptions.playbackRate options) with
    | Some r => modify audioRef (HTMLAudioElement.set_playbackRate r) s2
    | None => s2
    end in
  modify audioRef HTMLAudioElement.addEventListeners s3.

(** The four tracking listeners that [configureAudio] attaches. *)
Inductive MediaEvent := loadedmetadata | timeupdate | play | pause.

Definition dispatchEvent (ev : MediaEvent) (audioRef : handle) (s : State) : State :=
  let e := deref audioRef s in
  let md := audioMetadataRef s in
  match HTMLAudioElement.listeners e with
  | O => s
  | S _ =>
      set_audioMetadataRef
        (match ev with
         | loadedmetadata =>
             AudioMetadata.mk (HTMLAudioElement.duration e)
               (AudioMetadata.currentTime md) (AudioMetadata.isPlaying md)
         | timeupdate =>
             AudioMetadata.mk (AudioMetadata.duration md)
               (HTMLAudioElement.currentTime e) (AudioMetadata.isPlaying md)
         | play =>
             AudioMetadata.mk (AudioMetadata.duration md)
               (AudioMetadata.currentTime md) true
         | pause =>
             AudioMetadata.mk (AudioMetadata.duration md)
               (AudioMetadata.currentTime md) false
         end) s
  end.

(** The browser has read the metadata of an element: the duration is known
    from here on, and the [loadedmetadata] event is fired. *)
Definition loadMetadata (audioRef : handle) (duration : Q) (s : State) : State :=
  dispatchEvent loadedmetadata audioRef
    (modify audioRef (HTMLAudioElement.set_duration (Some duration)) s).

(** [priorityQueueRef.current.push({ audioRef: newAudioRef, options })] *)
Definition push (newAudioRef : handle) (options : AudioControlOptions.t)
    (s : State) : State :=
  set_priorityQueueRef
    (priorityQueueRef s ++ [Queued.mk newAudioRef options]) s.

(** The test that guards the priority system in [playAudio]. *)
Definition blocked (options : AudioControlOptions.t) (s : State) : bool :=
  negb (default false (AudioControlOptions.ignorePriority options))
  && hasPriorityAudio s
  && negb (default false (AudioControlOptions.priority options)).

(** [playAudio].  The result is what the promise resolves to, with the state
    the call leaves behind.  Inside the [try], a throw leads to the [catch],
    which logs and answers [false]; whatever had been written by then stays
    written.  The body is run in the state of the admission test: the promise
    of [audioContext.resume()] is settled at once.  Nothing is written after
    [await play()]. *)
Definition playAudio (newAudioRef : handle) (options : AudioControlOptions.t)
    (dev : Device) (s : State) : bool * State :=
  let stopPrevious := default true (AudioControlOptions.stopPrevious options) in
  let volume := default 1%Q (AudioControlOptions.volume options) in
  let loop := default false (AudioControlOptions.loop options) in
  let onEnd := AudioControlOptions.onEnd options in
  let priority := default false (AudioControlOptions.priority options) in
  let queueIfBlocked := default false (AudioControlOptions.queueIfBlocked options) in
  if blocked options s then
    (false, if queueIfBlocked then push newAudioRef options s else s)
  else if negb (audioContextOk dev) then (false, s)
  else
    let s1 :=
      if priority then
        duckBackgroundMusic
          (set_priorityAudioRef (Some newAudioRef)
             (match priorityAudioRef s with
              | Some p => stopAudio p s
              | None => s
              end))
      else s in
    let s2 :=
      match previousAudioRef s1 with
      | Some p => if stopPrevious then stopAudio p s1 else s1
      | None => s1
      end in
    let s3 := configureAudio newAudioRef options s2 in
    if negb (volumeAccepted volume) then (false, s3)
    else
      let s4 := modify newAudioRef (HTMLAudioElement.set_volume volume) s3 in
      let s5 := modify newAudioRef (HTMLAudioElement.set_loop loop) s4 in
      let s6 :=
        modify newAudioRef
          (HTMLAudioElement.set_onended
             (Some {| captured_onEnd := onEnd;
                      captured_priority := priority |})) s5 in
      let s7 := set_previousAudioRef (Some newAudioRef) s6 in
      match playPromise dev with
      | Resolves => (true, modify newAudioRef HTMLAudioElement.play s7)
      | Rejects => (false, s7)
      end.

(** [if (onEnd) onEnd()]: the caller's closure is run; what it does is the
    caller's business, the state only records that it ran. *)
Definition runCallback (onEnd : option callback) (s : State) : State :=
  match onEnd with
  | Some cb => set_invoked (invoked s ++ [cb]) s
  | None => s
  end.

(** [enhancedOnEnd], the [onended] handler installed by [playAudio], with the
    [onEnd] and [priority] it closes over.  [dev] is what the browser answers
    to the [playAudio] that the handler may start; the body of that
    [playAudio] is run at once.  (When it runs later, what the handler has
    done by itself is what it does on a browser whose audio context does not
    come up, and the body is a step of its own: [ended_body_run_later].) *)
Definition enhancedOnEnd (onEnd : option callback) (priority : bool)
    (dev : Device) (s : State) : State :=
  let s1 := runCallback onEnd s in
  if priority then
    let s2 := restoreBackgroundMusic (set_priorityAudioRef None s1) in
    match priorityQueueRef s2 with
    | nextAudio :: rest =>
        snd (playAudio (Queued.audioRef nextAudio)
               (AudioControlOptions.withIgnorePriority (Queued.options nextAudio))
               dev (set_priorityQueueRef rest s2))
    | [] => s2
    end
  else s1.

(** The browser fires [ended] on an element: playback has reached the end,
    and the handler in [onended], if any, runs. *)
Definition ended (audioRef : handle) (dev : Device) (s : State) : State :=
  let s1 := modify audioRef HTMLAudioElement.finish s in
  match HTMLAudioElement.onended (deref audioRef s) with
  | Some hd => enhancedOnEnd (captured_onEnd hd) (captured_priority hd) dev s1
  | None => s1
  end.

Definition cleanup (s : State) : State :=
  let s1 :=
    match previousAudioRef s with
    | Some p => stopAudio p s
    | None => s
    end in
  let s2 :=
    match priorityAudioRef s1 with
    | Some p => stopAudio p s1
    | None => s1
    end in
  let s3 :=
    match BackgroundMusicState.audioRef (bgMusicRef s2) with
    | Some b => stopAudio b s2
    | None => s2
    end in
  let s4 :=
    foldl (fun acc entry => cleanupEventListeners (Queued.audioRef entry) acc)
      s3 (priorityQueueRef s3) in
  set_audioMetadataRef initialMetadata
    (set_priorityQueueRef []
       (set_bgMusicRef initialBgMusic
          (set_priorityAudioRef None (set_previousAudioRef None s4)))).

Definition getAudioMetadata (s : State) : AudioMetadata.t := audioMetadataRef s.

(** The object literal returned by [getBackgroundMusicState]. *)
Record BackgroundMusicInfo := {
  info_isPlaying : bool;
  info_volume : Q;
  info_originalVolume : Q;
  info_enableDucking : bool
}.

Definition getBackgroundMusicState (s : State) : BackgroundMusicInfo :=
  {| info_isPlaying := BackgroundMusicState.isPlaying (bgMusicRef s);
     info_volume := BackgroundMusicState.volume (bgMusicRef s);
     info_originalVolume := BackgroundMusicState.originalVolume (bgMusicRef s);
     info_enableDucking := BackgroundMusicState.enableDucking (bgMusicRef s) |}.

(** ** The controller as a transition system *)

(** What can happen to the controller: the calls of the hook's functions,
    and what the browser does: the events that run the listeners of the
    hook, the arrival of the metadata of an element, and the resolution of
    the promise that a [playBackgroundMusic] awaits.

    [OpPlayBackgroundMusic] is a call of [playBackgroundMusic] whose promise
    is settled before anything else happens.  A call during which other
    operations come is [OpPlayBackgroundMusicStart], then these operations,
    then, if the promise resolves, [OpPlayBackgroundMusicSettled] with the
    arguments of the call and the [shouldDuck] that the start answered.  The
    transition system does not remember which calls are pending: it admits
    [OpPlayBackgroundMusicSettled] with any arguments at any time, and so
    reaches every state the hook can be in, and possibly more. *)
Inductive Op :=
| OpPlayAudio (audioRef : handle) (options : AudioControlOptions.t) (dev : Device)
| OpStopAudio (audioRef : handle)
| OpSetVolume (audioRef : handle) (volume : Q)
| OpPlayBackgroundMusic (audioRef : handle) (volume : option Q)
    (enableDucking : option bool) (promise : PlayPromise)
| OpStopBackgroundMusic
| OpSetBackgroundMusicVolume (volume : Q)
| OpSetBackgroundMusicDucking (enableDucking : bool)
| OpCleanup
| OpEnded (audioRef : handle) (dev : Device)
| OpDispatch (ev : MediaEvent) (audioRef : handle)
| OpPlayBackgroundMusicStart (audioRef : handle) (volume : option Q)
    (enableDucking : option bool) (promise : PlayPromise)
| OpPlayBackgroundMusicSettled (audioRef : handle) (volume : option Q)
    (enableDucking : option bool) (shouldDuck : bool)
| OpLoadMetadata (audioRef : handle) (duration : Q).

Definition step (op : Op) (s : State) : State :=
  match op with
  | OpPlayAudio h o dev => snd (playAudio h o dev s)
  | OpStopAudio h => stopAudio h s
  | OpSetVolume h v => setVolume h v s
  | OpPlayBackgroundMusic h v d promise => playBackgroundMusic h v d promise s
  | OpStopBackgroundMusic => stopBackgroundMusic s
  | OpSetBackgroundMusicVolume v => setBackgroundMusicVolume v s
  | OpSetBackgroundMusicDucking e => setBackgroundMusicDucking e s
  | OpCleanup => cleanup s
  | OpEnded h dev => ended h dev s
  | OpDispatch ev h => dispatchEvent ev h s
  | OpPlayBackgroundMusicStart h v d promise =>
      snd (playBackgroundMusicStart h v d promise s)
  | OpPlayBackgroundMusicSettled h v d shouldDuck =>
      playBackgroundMusicSettled h v d shouldDuck s
  | OpLoadMetadata h d => loadMetadata h d s
  end.

(** Running a list of operations, first to last. *)
Definition run (ops : list Op) (s : State) : State :=
  foldl (fun acc op => step op acc) s ops.

(** The states the controller can be in, started on any set of elements. *)
Inductive reachable : State → Prop :=
| reachable_initial m mobile : reachable (initial m mobile)
| reachable_step op s : reachable s → reachable (step op s).

(** ** Predicates on states *)

(** An element that is heard: not paused and before its end. *)
Definition audible (e : HTMLAudioElement.t) : bool :=
  negb (HTMLAudioElement.paused e)
  && HTMLAudioElement.before_end (HTMLAudioElement.currentTime e)
       (HTMLAudioElement.duration e).

(** An element that has been stopped: paused, at position [0]. *)
Definition stopped (e : HTMLAudioElement.t) : Prop :=
  HTMLAudioElement.paused e = true ∧ HTMLAudioElement.currentTime e = 0%Q.

(** A request that asks for priority. *)
Definition isPriority (o : AudioControlOptions.t) : bool :=
  default false (AudioControlOptions.priority o).

(** No queued request asks for priority. *)
Definition queue_ok (s : State) : Prop :=
  Forall (fun entry => isPriority (Queued.options entry) = false)
    (priorityQueueRef s).

(** The volume the background track should be heard at, from the recorded
    state: a fifth of [originalVolume] while a priority sound is audible and
    ducking is enabled, [originalVolume] otherwise. *)
Definition expectedVolume (s : State) : Q :=
  if hasPriorityAudio s && BackgroundMusicState.enableDucking (bgMusicRef s)
  then (BackgroundMusicState.originalVolume (bgMusicRef s) * 0.2)%Q
  else BackgroundMusicState.originalVolume (bgMusicRef s).

(** The volume of the tracked, playing background track is the expected
    one. *)
Definition ducking_consistent (s : State) : Prop :=
  ∀ b, BackgroundMusicState.audioRef (bgMusicRef s) = Some b →
       BackgroundMusicState.isPlaying (bgMusicRef s) = true →
       (HTMLAudioElement.volume (deref b s) == expectedVolume s)%Q.

(** An attribute of an element that only its own setter writes: the other
    setters, [pause()], [play()] and the end of playback leave it alone. *)
Definition untouched {A} (attr : HTMLAudioElement.t → A) : Prop :=
  ∀ e,
    (∀ b, attr (HTMLAudioElement.set_paused b e) = attr e)
    ∧ (∀ x, attr (HTMLAudioElement.set_currentTime x e) = attr e)
    ∧ (∀ x, attr (HTMLAudioElement.set_volume x e) = attr e)
    ∧ (∀ b, attr (HTMLAudioElement.set_loop b e) = attr e)
    ∧ (∀ x, attr (HTMLAudioElement.set_playbackRate x e) = attr e)
    ∧ (∀ p, attr (HTMLAudioElement.set_preload p e) = attr e)
    ∧ attr (HTMLAudioElement.addEventListeners e) = attr e.

(** A queued request is one that was blocked: it asks neither for priority
    nor to ignore priority, and it asks to be queued. *)
Definition queued_as_blocked (entry : Queued.t) : Prop :=
  isPriority (Queued.options entry) = false
  ∧ default false (AudioControlOptions.ignorePriority (Queued.options entry))
    = false
  ∧ default false (AudioControlOptions.queueIfBlocked (Queued.options entry))
    = true.

(** The recorded volumes of the background music lie in [[0, 1]]. *)
Definition inUnit (x : Q) : Prop := (0 <= x <= 1)%Q.

Definition volumes_ok (s : State) : Prop :=
  inUnit (BackgroundMusicState.volume (bgMusicRef s))
  ∧ inUnit (BackgroundMusicState.originalVolume (bgMusicRef s)).

(** The operations that concern ducking, each with the circumstances under
    which it keeps the background volume in step: a priority [playAudio]
    that starts, on an element other than the background track that has a
    positive duration; a [playBackgroundMusic] that starts and whose promise
    is settled before anything else happens, on an element other than the
    one in the priority slot; the two setters; and the end of a priority
    sound, when the request at the front of the queue is not for the
    background track.  The two halves of a [playBackgroundMusic] between
    which other operations come are not among them. *)
Definition ducking_step (op : Op) (s : State) : Prop :=
  match op with
  | OpPlayAudio h o dev =>
      isPriority o = true
      ∧ dev = deviceOk
      ∧ volumeAccepted (default 1%Q (AudioControlOptions.volume o)) = true
      ∧ BackgroundMusicState.audioRef (bgMusicRef s) ≠ Some h
      ∧ ∃ d, HTMLAudioElement.duration (deref h s) = Some d ∧ (0 < d)%Q
  | OpPlayBackgroundMusic h _ _ promise =>
      promise = Resolves ∧ priorityAudioRef s ≠ Some h
  | OpSetBackgroundMusicVolume _ => True
  | OpSetBackgroundMusicDucking _ => True
  | OpEnded h _ =>
      (∃ cb, HTMLAudioElement.onended (deref h s)
             = Some {| captured_onEnd := cb; captured_priority := true |})
      ∧ ∀ entry, head (priorityQueueRef s) = Some entry →
                 BackgroundMusicState.audioRef (bgMusicRef s)
                 ≠ Some (Queued.audioRef entry)
  | _ => False
  end.

(** ** The stages of an admitted [playAudio]

    Names for the states that [playAudio] goes through inside its [try],
    block by block, so that what a call leaves behind can be stated. *)

(** "Handle priority audio": the occupant of the priority slot is stopped,
    the new element takes the slot, the background music is ducked. *)
Definition takePriority (newAudioRef : handle) (s : State) : State :=
  duckBackgroundMusic
    (set_priorityAudioRef (Some newAudioRef)
       (match priorityAudioRef s with
        | Some p => stopAudio p s
        | None => s
        end)).

(** "Stop previous audio if required". *)
Definition stopPreviousAudio (stopPrevious : bool) (s : State) : State :=
  match previousAudioRef s with
  | Some p => if stopPrevious then stopAudio p s else s
  | None => s
  end.

(** The state in which the volume is written. *)
Definition prepared (newAudioRef : handle) (options : AudioControlOptions.t)
    (s : State) : State :=
  configureAudio newAudioRef options
    (stopPreviousAudio
       (default true (AudioControlOptions.stopPrevious options))
       (if isPriority options then takePriority newAudioRef s else s)).

(** The state in which [play()] is called. *)
Definition armed (newAudioRef : handle) (options : AudioControlOptions.t)
    (s : State) : State :=
  set_previousAudioRef (Some newAudioRef)
    (modify newAudioRef
       (HTMLAudioElement.set_onended
          (Some {| captured_onEnd := AudioControlOptions.onEnd options;
                   captured_priority := isPriority options |}))
       (modify newAudioRef
          (HTMLAudioElement.set_loop
             (default false (AudioControlOptions.loop options)))
          (modify newAudioRef
             (HTMLAudioElement.set_volume
                (default 1%Q (AudioControlOptions.volume options)))
             (prepared newAudioRef options s)))).

(** "Stop existing background music if any", the first step of
    [playBackgroundMusic]. *)
Definition musicStopped (s : State) : State :=
  match BackgroundMusicState.audioRef (bgMusicRef s) with
  | Some b => stopAudio b s
  | None => s
  end.

(** The state in which the [onended] handler runs: playback of the element
    has reached the end. *)
Definition finished (audioRef : handle) (s : State) : State :=
  modify audioRef HTMLAudioElement.finish s.

(** The state in which the [onended] handler of a priority sound looks at
    the queue: the caller's callback has run, the priority slot is empty and
    the background music is restored. *)
Definition restored (onEnd : option callback) (s : State) : State :=
  restoreBackgroundMusic (set_priorityAudioRef None (runCallback onEnd s)).

(** [bgMusicRef] after [duckBackgroundMusic]. *)
Definition ducked (bg : BackgroundMusicState.t) : BackgroundMusicState.t :=
  match BackgroundMusicState.audioRef bg with
  | Some b =>
      if BackgroundMusicState.isPlaying bg && BackgroundMusicState.enableDucking bg
      then BackgroundMusicState.mk (Some b) (BackgroundMusicState.volume bg)
             (BackgroundMusicState.isPlaying bg) (BackgroundMusicState.volume bg)
             (BackgroundMusicState.enableDucking bg)
      else bg
  | None => bg
  end.

(** ** The sounds of the game

    [useGameAudio] (src/app/audioHook.tsx) creates four elements and plays
    the effects with [{ volume: 1, priority: true }] and the music with
    [playBackgroundMusic(bgm, 0.5, true)]. *)
Definition correct : handle := 0.
Definition wrong : handle := 1.
Definition bgm : handle := 2.
Definition gameover : handle := 3.

Definition sounds : gmap handle HTMLAudioElement.t :=
  <[correct := HTMLAudioElement.loaded 2]>
    (<[wrong := HTMLAudioElement.loaded 3]>
       (<[bgm := HTMLAudioElement.loaded 90]>
          (<[gameover := HTMLAudioElement.loaded 3]> ∅))).

Definition mounted : State := initial sounds false.

(** [{ volume: 1, priority: true }] *)
Definition effectOptions : AudioControlOptions.t :=
  AudioControlOptions.mk None (Some 1%Q) None None (Some true) None None None None.

(** [{ queueIfBlocked: true }] *)
Definition queueOptions : AudioControlOptions.t :=
  AudioControlOptions.mk None None None None None None (Some true) None None.

(** [{ stopPrevious: false, priority: true }] *)
Definition overlayOptions : AudioControlOptions.t :=
  AudioControlOptions.mk (Some false) None None None (Some true) None None None None.

(** [{ volume: v }] *)
Definition volumeOptions (v : Q) : AudioControlOptions.t :=
  AudioControlOptions.mk None (Some v) None None None None None None None.

(** [{ volume: v, queueIfBlocked: true }] *)
Definition queueVolumeOptions (v : Q) : AudioControlOptions.t :=
  AudioControlOptions.mk None (Some v) None None None None (Some true) None None.

(** [{ onEnd: cb, priority: true }] *)
Definition notifyOptions (cb : callback) : AudioControlOptions.t :=
  AudioControlOptions.mk None None None (Some cb) (Some true) None None None None.

(** ** [useGameAudio] (src/app/audioHook.tsx)

    The hook of the game wraps the controller: three effects, each played
    with [effectOptions], and the music, played with
    [playBackgroundMusic(bgm, 0.5, true)].  [gameAudioState] is a prop of
    the hook.  The promises of the controller are not awaited, so the
    wrappers answer before the start is known.

    An effect is requested with priority, so the admission test of
    [playAudio] passes in whatever state it is made ([blocked_priority]) and
    the call writes nothing before its body runs: the functions of the three
    effects below are the step in which that body runs.  For the music,
    [toggleBackgroundMusic] and [startBackgroundMusic] give the state once
    the promise of [play()] is settled, when nothing else has happened in
    between; [toggleBackgroundMusicCalled] and [startBackgroundMusicCalled]
    give the state in which the wrapper answers, with the rest of
    [playBackgroundMusic] still to come ([musicSettled]). *)
Record GameAudioState := {
  soundEnabled : bool;
  isBgmPlaying : bool
}.

Definition playCorrectSound (g : GameAudioState) (dev : Device) (s : State) : State :=
  if negb (soundEnabled g) then s
  else snd (playAudio correct effectOptions dev s).

Definition playWrongSound (g : GameAudioState) (dev : Device) (s : State) : State :=
  if negb (soundEnabled g) then s
  else snd (playAudio wrong effectOptions dev s).

Definition playGameOverSound (g : GameAudioState) (dev : Device) (s : State) : State :=
  if negb (soundEnabled g) then s
  else snd (playAudio gameover effectOptions dev s).

Definition toggleBackgroundMusic (g : GameAudioState) (promise : PlayPromise)
    (s : State) : bool * State :=
  if negb (soundEnabled g) then (false, stopBackgroundMusic s)
  else if negb (isBgmPlaying g) then
    (true, playBackgroundMusic bgm (Some 0.5%Q) (Some true) promise s)
  else (false, stopBackgroundMusic s).

Definition startBackgroundMusic (g : GameAudioState) (promise : PlayPromise)
    (s : State) : bool * State :=
  if soundEnabled g && negb (isBgmPlaying g) then
    (true, playBackgroundMusic bgm (Some 0.5%Q) (Some true) promise s)
  else (false, s).

(** The wrappers of the music up to the point where they answer: of
    [playBackgroundMusic], the part before its [await] has run. *)
Definition toggleBackgroundMusicCalled (g : GameAudioState)
    (promise : PlayPromise) (s : State) : bool * State :=
  if negb (soundEnabled g) then (false, stopBackgroundMusic s)
  else if negb (isBgmPlaying g) then
    (true, snd (playBackgroundMusicStart bgm (Some 0.5%Q) (Some true) promise s))
  else (false, stopBackgroundMusic s).

Definition startBackgroundMusicCalled (g : GameAudioState)
    (promise : PlayPromise) (s : State) : bool * State :=
  if soundEnabled g && negb (isBgmPlaying g) then
    (true, snd (playBackgroundMusicStart bgm (Some 0.5%Q) (Some true) promise s))
  else (false, s).

(** The rest of [playBackgroundMusic(bgm, 0.5, true)], which runs when the
    promise of [play()] has resolved. *)
Definition musicSettled (shouldDuck : bool) (s : State) : State :=
  playBackgroundMusicSettled bgm (Some 0.5%Q) (Some true) shouldDuck s.

(** What happens to the controller inside [useGameAudio]: the calls of its
    wrappers ([GStopBackgroundMusic] is also the cleanup of its effect) and
    what the browser does.  [GToggleBackgroundMusic] and
    [GStartBackgroundMusic] are calls during which nothing else happens
    until the promise of [play()] is settled; otherwise the call is
    [GToggleBackgroundMusicCalled] or [GStartBackgroundMusicCalled], and
    [GMusicSettled], with the [shouldDuck] of the start, comes when the
    promise has resolved.  As in [Op], [GMusicSettled] is admitted at any
    time. *)
Inductive GameAudioOp :=
| GPlayCorrectSound (g : GameAudioState) (dev : Device)
| GPlayWrongSound (g : GameAudioState) (dev : Device)
| GPlayGameOverSound (g : GameAudioState) (dev : Device)
| GToggleBackgroundMusic (g : GameAudioState) (promise : PlayPromise)
| GStartBackgroundMusic (g : GameAudioState) (promise : PlayPromise)
| GStopBackgroundMusic
| GEnded (audioRef : handle) (dev : Device)
| GDispatch (ev : MediaEvent) (audioRef : handle)
| GToggleBackgroundMusicCalled (g : GameAudioState) (promise : PlayPromise)
| GStartBackgroundMusicCalled (g : GameAudioState) (promise : PlayPromise)
| GMusicSettled (shouldDuck : bool)
| GLoadMetadata (audioRef : handle) (duration : Q).

Definition gameStep (op : GameAudioOp) (s : State) : State :=
  match op with
  | GPlayCorrectSound g dev => playCorrectSound g dev s
  | GPlayWrongSound g dev => playWrongSound g dev s
  | GPlayGameOverSound g dev => playGameOverSound g dev s
  | GToggleBackgroundMusic g promise => snd (toggleBackgroundMusic g promise s)
  | GStartBackgroundMusic g promise => snd (startBackgroundMusic g promise s)
  | GStopBackgroundMusic => stopBackgroundMusic s
  | GEnded h dev => ended h dev s
  | GDispatch ev h => dispatchEvent ev h s
  | GToggleBackgroundMusicCalled g promise =>
      snd (toggleBackgroundMusicCalled g promise s)
  | GStartBackgroundMusicCalled g promise =>
      snd (startBackgroundMusicCalled g promise s)
  | GMusicSettled shouldDuck => musicSettled shouldDuck s
  | GLoadMetadata h d => loadMetadata h d s
  end.

Definition gameRun (ops : list GameAudioOp) (s : State) : State :=
  foldl (fun acc op => gameStep op acc) s ops.

Definition isEffect (h : handle) : Prop := h = correct ∨ h = wrong ∨ h = gameover.

(** The elements the game is mounted on: no [onended] handler is installed
    on any of them.  The elements that [new Audio(src)] makes are such, and
    have no metadata yet. *)
Definition gameSounds (m : gmap handle HTMLAudioElement.t) : Prop :=
  ∀ h, HTMLAudioElement.onended (m !!! h) = None.

(** What the operations of the game keep true of the controller. *)
Definition game_ok (s : State) : Prop :=
  priorityQueueRef s = []
  ∧ (BackgroundMusicState.audioRef (bgMusicRef s) = None
     ∨ BackgroundMusicState.audioRef (bgMusicRef s) = Some bgm)
  ∧ (∀ p, priorityAudioRef s = Some p →
          isEffect p
          ∧ ∃ cb, HTMLAudioElement.onended (deref p s)
                  = Some {| captured_onEnd := cb; captured_priority := true |})
  ∧ ∀ h hd, HTMLAudioElement.onended (deref h s) = Some hd →
            captured_priority hd = true.

(** The metadata of an element is there, with a positive duration. *)
Definition hasMetadata (h : handle) (s : State) : Prop :=
  ∃ d, HTMLAudioElement.duration (deref h s) = Some d ∧ (0 < d)%Q.

(** The operations of the game, each with the circumstances under which it
    keeps the volume of the music in step with the effects: an effect that
    starts, on an element whose metadata is there; a start of the music that
    succeeds and is settled before anything else happens; the arrival of
    metadata for an element other than the one of the priority slot.  A
    start of the music during which other operations come is not among
    them. *)
Definition keepsInStep (op : GameAudioOp) (s : State) : Prop :=
  match op with
  | GPlayCorrectSound g dev =>
      dev = deviceOk ∧ (soundEnabled g = true → hasMetadata correct s)
  | GPlayWrongSound g dev =>
      dev = deviceOk ∧ (soundEnabled g = true → hasMetadata wrong s)
  | GPlayGameOverSound g dev =>
      dev = deviceOk ∧ (soundEnabled g = true → hasMetadata gameover s)
  | GToggleBackgroundMusic _ promise | GStartBackgroundMusic _ promise =>
      promise = Resolves
  | GStopBackgroundMusic | GEnded _ _ | GDispatch _ _ => True
  | GLoadMetadata h _ => priorityAudioRef s ≠ Some h
  | GToggleBackgroundMusicCalled _ _ | GStartBackgroundMusicCalled _ _
  | GMusicSettled _ => False
  end.

(** Every operation of a run comes in such circumstances. *)
Fixpoint allInStep (ops : list GameAudioOp) (s : State) : Prop :=
  match ops with
  | [] => True
  | op :: ops => keepsInStep op s ∧ allInStep ops (gameStep op s)
  end.

(** Sound is enabled and the music is said not to be playing. *)
Definition soundOn : GameAudioState :=
  {| soundEnabled := true; isBgmPlaying := false |}.

(** Music at [0.8], then the "correct" effect on top of it. *)
Definition withMusic : State :=
  playBackgroundMusic bgm (Some 0.8%Q) (Some true) Resolves mounted.

Definition duringEffect : State :=
  snd (playAudio correct effectOptions deviceOk withMusic).

(** An ordinary sound is playing; the "correct" effect is laid over it
    without stopping it; the same sound is then requested again, to be
    queued if blocked. *)
Definition queuedWhilePlaying : State :=
  run [OpPlayAudio wrong AudioControlOptions.empty deviceOk;
       OpPlayAudio correct overlayOptions deviceOk;
       OpPlayAudio wrong queueOptions deviceOk] mounted.

(** Two more sounds are requested during the effect, to be queued. *)
Definition twoQueued : State :=
  run [OpPlayAudio wrong queueOptions deviceOk;
       OpPlayAudio gameover queueOptions deviceOk] duringEffect.

(** The music is stopped during the effect. *)
Definition stoppedWhileDucked : State := stopBackgroundMusic duringEffect.

(** The elements as [new Audio(src)] makes them: nothing is loaded yet. *)
Definition mountedFresh : State := initial ∅ false.

(** A browser on which the audio context does not come up. *)
Definition deviceNoContext : Device :=
  {| audioContextOk := false; playPromise := Resolves |}.

(** [{ volume: 1.5, priority: true }] *)
Definition loudOptions : AudioControlOptions.t :=
  AudioControlOptions.mk None (Some 1.5%Q) None None (Some true) None None None None.

(** [{ ignorePriority: true }] *)
Definition insistOptions : AudioControlOptions.t :=
  AudioControlOptions.mk None None None None None (Some true) None None None.

(** [playBackgroundMusic(bgm, 0.5, true)] is called; the "correct" effect is
    played while the promise of [play()] is pending; then the promise
    resolves, and the rest of [playBackgroundMusic] runs with the
    [shouldDuck] of its start. *)
Definition musicOvertaken : State :=
  run [OpPlayBackgroundMusicStart bgm (Some 0.5%Q) (Some true) Resolves;
       OpPlayAudio correct effectOptions deviceOk;
       OpPlayBackgroundMusicSettled bgm (Some 0.5%Q) (Some true)
         (fst (playBackgroundMusicStart bgm (Some 0.5%Q) (Some true) Resolves
                 mounted))]
    mounted.

(** Two sounds are queued during the effect.  The effect ends, which starts
    the first; the effect is played again, laid over it; it ends again,
    which starts the second. *)
Definition heardTogether : State :=
  run [OpEnded correct deviceOk;
       OpPlayAudio correct overlayOptions deviceOk;
       OpEnded correct deviceOk] twoQueued.

(** ** The quiz (src/app/page.tsx)

    The component that uses the controller.  Of its logic, the update of the
    countdown and the choice of the answers offered are functions of their
    arguments and the state they are given, and are embedded here.
    [Array.prototype.sort] with the comparator [() => Math.random() - 0.5]
    gives the elements back in an order that is not determined; it is
    represented by a function on lists, of which the properties assume only
    that it permutes its argument. *)
Module Quiz.

(** [interface Country] *)
Record Country := mkCountry {
  name : string;
  capital : string;
  continent : string;
  subregion : string;
  flag : string
}.

Inductive Phase := setup | playing | gameover | paused.

Inductive SetupStep := region | subregionStep.

(** [interface GameState] *)
Record GameState := mkGameState {
  phase : Phase;
  setupStep : SetupStep;
  score : Z;
  timeRemaining : Z;
  showHint : bool;
  isCorrect : option bool;
  selectedAnswer : option Country;
  askedQuestions : gset string
}.

(** The updater that the interval hands to [setGameState] every second.
    (In the second component of the file the updater also calls
    [handleGameOver] when the time is up; the state it returns is the
    same.) *)
Definition tick (prev : GameState) : GameState :=
  if (timeRemaining prev <=? 1)%Z then
    mkGameState gameover (setupStep prev) (score prev) 0 (showHint prev)
      (isCorrect prev) (selectedAnswer prev) (askedQuestions prev)
  else
    mkGameState (phase prev) (setupStep prev) (score prev)
      (timeRemaining prev - 1) (showHint prev) (isCorrect prev)
      (selectedAnswer prev) (askedQuestions prev).

(** The [while] loop of [getRandomOptions].  [stack] is [allOptions] read
    from its end, which is where [pop()] takes from. *)
Fixpoint fillOptions (count : nat) (stack : list Country)
    (options : list Country) (usedNames : gset string) : list Country :=
  match stack with
  | [] => options
  | nextOption :: stack' =>
      if decide (length options < count) then
        if decide (name nextOption ∈ usedNames) then
          fillOptions count stack' options usedNames
        else
          fillOptions count stack' (options ++ [nextOption])
            ({[name nextOption]} ∪ usedNames)
      else options
  end.

(** [getRandomOptions], with the three random sorts as [shuffleSame],
    [shuffleOther] and [shuffleOptions]. *)
Definition getRandomOptions
    (shuffleSame shuffleOther shuffleOptions : list Country → list Country)
    (countryData : list Country) (correctAnswer : Country) (count : nat)
    : list Country :=
  let usedNames : gset string := {[name correctAnswer]} in
  let sameRegionOptions :=
    shuffleSame
      (filter (λ c, continent c = continent correctAnswer ∧ name c ∉ usedNames)
         countryData) in
  let otherRegionOptions :=
    shuffleOther
      (filter (λ c, continent c ≠ continent correctAnswer ∧ name c ∉ usedNames)
         countryData) in
  let allOptions := sameRegionOptions ++ otherRegionOptions in
  shuffleOptions
    (fillOptions count (reverse allOptions) [correctAnswer] usedNames).

(** [getRemainingCountries].  [null] and the empty string are the falsy
    values of [string | null]. *)
Definition getRemainingCountries (countryData : list Country)
    (askedQuestions : gset string)
    (selectedRegion selectedSubregion : option string) : list Country :=
  let filteredCountries :=
    filter (λ country, name country ∉ askedQuestions) countryData in
  let filteredCountries :=
    match selectedRegion with
    | Some r =>
        if decide (r ≠ "") then filter (λ c, continent c = r) filteredCountries
        else filteredCountries
    | None => filteredCountries
    end in
  match selectedSubregion with
  | Some sr =>
      if decide (sr ≠ "" ∧ sr ≠ "All Regions") then
        filter (λ c, subregion c = sr) filteredCountries
      else filteredCountries
  | None => filteredCountries
  end.

(** [calculateScore]; [Math.floor] of the quotient is the quotient of
    [Z]. *)
Definition calculateScore (currentStreak : Z) : Z :=
  let baseScore := 1%Z in
  let streakBonus := (currentStreak / 3)%Z in
  (baseScore + streakBonus)%Z.

(** The updater that [handleAnswer] hands to [setGameState];
    [currentQuestion], [country] and [streak] are the values of its
    closure. *)
Definition recordAnswer (currentQuestion country : Country) (streak : Z)
    (prev : GameState) : GameState :=
  let correct := bool_decide (name country = name currentQuestion) in
  mkGameState (phase prev) (setupStep prev)
    (if correct then (score prev + calculateScore streak)%Z else score prev)
    (timeRemaining prev) (showHint prev) (Some correct) (Some country)
    (askedQuestions prev ∪ {[name currentQuestion]}).

(** The names of a list of countries. *)
Definition names (l : list Country) : gset string := list_to_set (name <$> l).

(** The countries of [countryData] of another continent than
    [correctAnswer], its namesakes left out. *)
Definition abroad (countryData : list Country) (correctAnswer : Country)
    : list Country :=
  filter (λ c, continent c ≠ continent correctAnswer
               ∧ name c ≠ name correctAnswer) countryData.

(** A random sort gives back a permutation of what it is given. *)
Definition shuffles (shuffle : list Country → list Country) : Prop :=
  ∀ l, shuffle l ≡ₚ l.

(** A small data set in the shape of the game's country file. *)
Definition france : Country :=
  mkCountry "France" "Paris" "Europe" "Western Europe" "fr".
Definition germany : Country :=
  mkCountry "Germany" "Berlin" "Europe" "Western Europe" "de".
Definition japan : Country :=
  mkCountry "Japan" "Tokyo" "Asia" "Eastern Asia" "jp".
Definition india : Country :=
  mkCountry "India" "New Delhi" "Asia" "Southern Asia" "in".
Definition kenya : Country :=
  mkCountry "Kenya" "Nairobi" "Africa" "Eastern Africa" "ke".
Definition atlas : list Country := [france; germany; japan; india; kenya].

End Quiz.

(** * Properties *)

(** ** Reading through references *)

Lemma deref_modify h f s : deref h (modify h f s) = f (deref h s).
Proof. unfold deref, modify; simpl. apply lookup_total_insert_eq. Qed.

Lemma deref_modify_ne h h' f s : h ≠ h' → deref h' (modify h f s) = deref h' s.
Proof. intros Hne. unfold deref, modify; simpl. by apply lookup_total_insert_ne. Qed.

(** An attribute that [f] leaves alone reads the same on every element after
    [modify h f]. *)
Lemma deref_modify_attr {A} (attr : HTMLAudioElement.t → A) h h' f s :
  (∀ e, attr (f e) = attr e) →
  attr (deref h' (modify h f s)) = attr (deref h' s).
Proof.
  intros Hf. destruct (decide (h = h')) as [->|Hne].
  - by rewrite deref_modify.
  - by rewrite deref_modify_ne.
Qed.

Lemma hasPriorityAudio_audible s :
  hasPriorityAudio s =
    match priorityAudioRef s with
    | Some p => audible (deref p s)
    | None => false
    end.
Proof. reflexivity. Qed.

(** ** What the helpers leave alone *)

(** Side conditions of the form "[f] does not change this attribute". *)
Ltac same_attr :=
  let e := fresh "e" in
  intros e;
  unfold HTMLAudioElement.play, HTMLAudioElement.pause, HTMLAudioElement.finish;
  repeat case_match; destruct e; reflexivity.

Section Attributes.
Context (h h' : handle) (f : HTMLAudioElement.t → HTMLAudioElement.t) (s : State).

Lemma volume_modify :
  (∀ e, HTMLAudioElement.volume (f e) = HTMLAudioElement.volume e) →
  HTMLAudioElement.volume (deref h' (modify h f s))
  = HTMLAudioElement.volume (deref h' s).
Proof. apply (deref_modify_attr HTMLAudioElement.volume). Qed.

Lemma paused_modify :
  (∀ e, HTMLAudioElement.paused (f e) = HTMLAudioElement.paused e) →
  HTMLAudioElement.paused (deref h' (modify h f s))
  = HTMLAudioElement.paused (deref h' s).
Proof. apply (deref_modify_attr HTMLAudioElement.paused). Qed.

Lemma currentTime_modify :
  (∀ e, HTMLAudioElement.currentTime (f e) = HTMLAudioElement.currentTime e) →
  HTMLAudioElement.currentTime (deref h' (modify h f s))
  = HTMLAudioElement.currentTime (deref h' s).
Proof. apply (deref_modify_attr HTMLAudioElement.currentTime). Qed.

Lemma duration_modify :
  (∀ e, HTMLAudioElement.duration (f e) = HTMLAudioElement.duration e) →
  HTMLAudioElement.duration (deref h' (modify h f s))
  = HTMLAudioElement.duration (deref h' s).
Proof. apply (deref_modify_attr HTMLAudioElement.duration). Qed.

Lemma audible_modify :
  (∀ e, audible (f e) = audible e) →
  audible (deref h' (modify h f s)) = audible (deref h' s).
Proof. apply (deref_modify_attr audible). Qed.

Lemma stopped_modify :
  (∀ e, stopped e → stopped (f e)) →
  stopped (deref h' s) → stopped (deref h' (modify h f s)).
Proof.
  intros Hf Hs. destruct (decide (h = h')) as [->|Hne].
  - rewrite deref_modify. by apply Hf.
  - by rewrite deref_modify_ne.
Qed.
End Attributes.

(** [stopAudio] pauses its element and puts it back at the start; it
    touches no other element and none of the refs. *)
Lemma stopAudio_stopped h s : stopped (deref h (stopAudio h s)).
Proof.
  unfold stopAudio, cleanupEventListeners.
  rewrite !deref_modify. split; reflexivity.
Qed.

Lemma stopAudio_other h h' s : h ≠ h' → deref h' (stopAudio h s) = deref h' s.
Proof.
  intros Hne. unfold stopAudio, cleanupEventListeners.
  by rewrite !deref_modify_ne.
Qed.

Lemma stopAudio_keeps_stopped h h' s :
  stopped (deref h' s) → stopped (deref h' (stopAudio h s)).
Proof.
  intros Hs. destruct (decide (h = h')) as [->|Hne].
  - apply stopAudio_stopped.
  - by rewrite stopAudio_other.
Qed.

Lemma stopAudio_volume h h' s :
  HTMLAudioElement.volume (deref h' (stopAudio h s))
  = HTMLAudioElement.volume (deref h' s).
Proof.
  unfold stopAudio, cleanupEventListeners.
  rewrite !volume_modify by same_attr. reflexivity.
Qed.

Lemma stopAudio_duration h h' s :
  HTMLAudioElement.duration (deref h' (stopAudio h s))
  = HTMLAudioElement.duration (deref h' s).
Proof.
  unfold stopAudio, cleanupEventListeners.
  rewrite !duration_modify by same_attr. reflexivity.
Qed.

Lemma stopAudio_refs h s :
  previousAudioRef (stopAudio h s) = previousAudioRef s
  ∧ priorityAudioRef (stopAudio h s) = priorityAudioRef s
  ∧ bgMusicRef (stopAudio h s) = bgMusicRef s
  ∧ audioMetadataRef (stopAudio h s) = audioMetadataRef s
  ∧ priorityQueueRef (stopAudio h s) = priorityQueueRef s
  ∧ invoked (stopAudio h s) = invoked s
  ∧ isMobile (stopAudio h s) = isMobile s.
Proof. repeat split. Qed.

(** [configureAudio] changes [preload], [playbackRate] and the listeners of
    its element, nothing else. *)
Lemma configureAudio_other h h' o s :
  h ≠ h' → deref h' (configureAudio h o s) = deref h' s.
Proof.
  intros Hne. unfold configureAudio, cleanupEventListeners.
  destruct (truthyRate _); by rewrite !deref_modify_ne.
Qed.

Lemma configureAudio_volume h h' o s :
  HTMLAudioElement.volume (deref h' (configureAudio h o s))
  = HTMLAudioElement.volume (deref h' s).
Proof.
  unfold configureAudio, cleanupEventListeners.
  destruct (truthyRate _); rewrite !volume_modify by same_attr; reflexivity.
Qed.

Lemma configureAudio_duration h h' o s :
  HTMLAudioElement.duration (deref h' (configureAudio h o s))
  = HTMLAudioElement.duration (deref h' s).
Proof.
  unfold configureAudio, cleanupEventListeners.
  destruct (truthyRate _); rewrite !duration_modify by same_attr; reflexivity.
Qed.

Lemma configureAudio_audible h h' o s :
  audible (deref h' (configureAudio h o s)) = audible (deref h' s).
Proof.
  unfold configureAudio, cleanupEventListeners.
  destruct (truthyRate _); rewrite !audible_modify by same_attr; reflexivity.
Qed.

Lemma configureAudio_keeps_stopped h h' o s :
  stopped (deref h' s) → stopped (deref h' (configureAudio h o s)).
Proof.
  intros Hs. unfold configureAudio, cleanupEventListeners.
  destruct (truthyRate _);
    repeat (apply stopped_modify; [by intros [] [? ?]|]); exact Hs.
Qed.

Lemma configureAudio_refs h o s :
  previousAudioRef (configureAudio h o s) = previousAudioRef s
  ∧ priorityAudioRef (configureAudio h o s) = priorityAudioRef s
  ∧ bgMusicRef (configureAudio h o s) = bgMusicRef s
  ∧ audioMetadataRef (configureAudio h o s) = audioMetadataRef s
  ∧ priorityQueueRef (configureAudio h o s) = priorityQueueRef s
  ∧ invoked (configureAudio h o s) = invoked s
  ∧ isMobile (configureAudio h o s) = isMobile s.
Proof.
  unfold configureAudio, cleanupEventListeners.
  destruct (truthyRate _); repeat split.
Qed.

Lemma deref_set_previousAudioRef h r s :
  deref h (set_previousAudioRef r s) = deref h s.
Proof. reflexivity. Qed.

Lemma deref_set_priorityAudioRef h r s :
  deref h (set_priorityAudioRef r s) = deref h s.
Proof. reflexivity. Qed.

Lemma deref_set_bgMusicRef h b s : deref h (set_bgMusicRef b s) = deref h s.
Proof. reflexivity. Qed.

Lemma deref_set_audioMetadataRef h m s :
  deref h (set_audioMetadataRef m s) = deref h s.
Proof. reflexivity. Qed.

Lemma deref_set_priorityQueueRef h q s :
  deref h (set_priorityQueueRef q s) = deref h s.
Proof. reflexivity. Qed.

Lemma deref_set_invoked h l s : deref h (set_invoked l s) = deref h s.
Proof. reflexivity. Qed.

Create Rewrite HintDb deref_set.

#[local] Hint Rewrite deref_set_previousAudioRef deref_set_priorityAudioRef
  deref_set_bgMusicRef deref_set_audioMetadataRef deref_set_priorityQueueRef
  deref_set_invoked : deref_set.

(** Ducking and restoring write the volume of the background track only. *)
Lemma duckBackgroundMusic_keeps_stopped h s :
  stopped (deref h s) → stopped (deref h (duckBackgroundMusic s)).
Proof.
  intros Hs. unfold duckBackgroundMusic.
  destruct (BackgroundMusicState.audioRef _); [|done].
  destruct (_ && _); [|done].
  apply stopped_modify; [by intros [] [? ?]|]. exact Hs.
Qed.

Lemma duckBackgroundMusic_audible h s :
  audible (deref h (duckBackgroundMusic s)) = audible (deref h s).
Proof.
  unfold duckBackgroundMusic.
  destruct (BackgroundMusicState.audioRef _); [|done].
  destruct (_ && _); [|done].
  by rewrite audible_modify by same_attr.
Qed.

Lemma duckBackgroundMusic_duration h s :
  HTMLAudioElement.duration (deref h (duckBackgroundMusic s))
  = HTMLAudioElement.duration (deref h s).
Proof.
  unfold duckBackgroundMusic.
  destruct (BackgroundMusicState.audioRef _); [|done].
  destruct (_ && _); [|done].
  by rewrite duration_modify by same_attr.
Qed.

Lemma duckBackgroundMusic_refs s :
  previousAudioRef (duckBackgroundMusic s) = previousAudioRef s
  ∧ priorityAudioRef (duckBackgroundMusic s) = priorityAudioRef s
  ∧ priorityQueueRef (duckBackgroundMusic s) = priorityQueueRef s
  ∧ invoked (duckBackgroundMusic s) = invoked s
  ∧ BackgroundMusicState.audioRef (bgMusicRef (duckBackgroundMusic s))
    = BackgroundMusicState.audioRef (bgMusicRef s)
  ∧ BackgroundMusicState.isPlaying (bgMusicRef (duckBackgroundMusic s))
    = BackgroundMusicState.isPlaying (bgMusicRef s)
  ∧ BackgroundMusicState.enableDucking (bgMusicRef (duckBackgroundMusic s))
    = BackgroundMusicState.enableDucking (bgMusicRef s)
  ∧ BackgroundMusicState.volume (bgMusicRef (duckBackgroundMusic s))
    = BackgroundMusicState.volume (bgMusicRef s).
Proof.
  unfold duckBackgroundMusic.
  destruct (BackgroundMusicState.audioRef (bgMusicRef s)) eqn:Hb; [|done].
  destruct (_ && _); [|done]. done.
Qed.

Lemma restoreBackgroundMusic_refs s :
  previousAudioRef (restoreBackgroundMusic s) = previousAudioRef s
  ∧ priorityAudioRef (restoreBackgroundMusic s) = priorityAudioRef s
  ∧ bgMusicRef (restoreBackgroundMusic s) = bgMusicRef s
  ∧ priorityQueueRef (restoreBackgroundMusic s) = priorityQueueRef s
  ∧ invoked (restoreBackgroundMusic s) = invoked s.
Proof.
  unfold restoreBackgroundMusic.
  destruct (BackgroundMusicState.audioRef _); [|done].
  by destruct (_ && _).
Qed.

Lemma previousAudioRef_stopAudio h s :
  previousAudioRef (stopAudio h s) = previousAudioRef s.
Proof. reflexivity. Qed.

Lemma priorityAudioRef_stopAudio h s :
  priorityAudioRef (stopAudio h s) = priorityAudioRef s.
Proof. reflexivity. Qed.

Lemma bgMusicRef_stopAudio h s : bgMusicRef (stopAudio h s) = bgMusicRef s.
Proof. reflexivity. Qed.

Lemma priorityQueueRef_stopAudio h s :
  priorityQueueRef (stopAudio h s) = priorityQueueRef s.
Proof. reflexivity. Qed.

Create Rewrite HintDb refs.

#[local] Hint Rewrite previousAudioRef_stopAudio priorityAudioRef_stopAudio
  bgMusicRef_stopAudio priorityQueueRef_stopAudio : refs.

(** Steps that keep a stopped element stopped. *)
Ltac keep_stopped :=
  repeat match goal with
    | H : stopped (deref ?p ?s) |- stopped (deref ?p ?s) => exact H
    | |- stopped (deref ?p (stopAudio ?p _)) => apply stopAudio_stopped
    | |- stopped (deref _ (stopAudio _ _)) => apply stopAudio_keeps_stopped
    | |- stopped (deref _ (configureAudio _ _ _)) =>
        apply configureAudio_keeps_stopped
    | |- stopped (deref _ (duckBackgroundMusic _)) =>
        apply duckBackgroundMusic_keeps_stopped
    | |- stopped (deref _ (modify _ _ _)) =>
        apply stopped_modify; [by intros [] [? ?]|]
    | |- _ => progress autorewrite with deref_set
    end.

(** The queued entries are only handed to [cleanupEventListeners]. *)
Lemma cleanup_queue_loop (q : list Queued.t) s :
  foldl (fun acc entry => cleanupEventListeners (Queued.audioRef entry) acc) s q = s.
Proof. induction q as [|entry q IH]; simpl; [done|]. apply IH. Qed.

Lemma play_from_start e :
  stopped e →
  HTMLAudioElement.paused (HTMLAudioElement.play e) = false
  ∧ HTMLAudioElement.currentTime (HTMLAudioElement.play e) = 0%Q.
Proof.
  intros [_ Ht]. unfold HTMLAudioElement.play.
  repeat case_match; destruct e; simpl in *; by subst.
Qed.

(** ** An admitted request *)

Lemma playAudio_admitted h o dev s :
  blocked o s = false →
  audioContextOk dev = true →
  playAudio h o dev s =
    if volumeAccepted (default 1%Q (AudioControlOptions.volume o)) then
      match playPromise dev with
      | Resolves => (true, modify h HTMLAudioElement.play (armed h o s))
      | Rejects => (false, armed h o s)
      end
    else (false, prepared h o s).
Proof.
  intros Hb Hctx. unfold playAudio. rewrite Hb, Hctx. simpl negb. cbv iota.
  unfold armed, prepared, stopPreviousAudio, takePriority, isPriority.
  destruct (volumeAccepted _); [|reflexivity].
  by destruct (playPromise dev).
Qed.

Lemma bgMusicRef_duckBackgroundMusic s :
  bgMusicRef (duckBackgroundMusic s) = ducked (bgMusicRef s).
Proof.
  unfold duckBackgroundMusic, ducked.
  destruct (BackgroundMusicState.audioRef _); [|done].
  by destruct (_ && _).
Qed.

Lemma takePriority_refs h s :
  previousAudioRef (takePriority h s) = previousAudioRef s
  ∧ priorityAudioRef (takePriority h s) = Some h
  ∧ bgMusicRef (takePriority h s) = ducked (bgMusicRef s)
  ∧ priorityQueueRef (takePriority h s) = priorityQueueRef s
  ∧ invoked (takePriority h s) = invoked s.
Proof.
  unfold takePriority.
  rewrite bgMusicRef_duckBackgroundMusic.
  destruct (duckBackgroundMusic_refs
              (set_priorityAudioRef (Some h)
                 match priorityAudioRef s with
                 | Some p => stopAudio p s
                 | None => s
                 end)) as (-> & -> & -> & -> & _).
  by destruct (priorityAudioRef s).
Qed.

Lemma stopPreviousAudio_refs b s :
  previousAudioRef (stopPreviousAudio b s) = previousAudioRef s
  ∧ priorityAudioRef (stopPreviousAudio b s) = priorityAudioRef s
  ∧ bgMusicRef (stopPreviousAudio b s) = bgMusicRef s
  ∧ priorityQueueRef (stopPreviousAudio b s) = priorityQueueRef s
  ∧ invoked (stopPreviousAudio b s) = invoked s.
Proof.
  unfold stopPreviousAudio.
  destruct (previousAudioRef s) eqn:Hprev; [|done].
  destruct b; autorewrite with refs; by rewrite ?Hprev.
Qed.

Lemma prepared_refs h o s :
  previousAudioRef (prepared h o s) = previousAudioRef s
  ∧ priorityAudioRef (prepared h o s)
    = (if isPriority o then Some h else priorityAudioRef s)
  ∧ bgMusicRef (prepared h o s)
    = (if isPriority o then ducked (bgMusicRef s) else bgMusicRef s)
  ∧ priorityQueueRef (prepared h o s) = priorityQueueRef s
  ∧ invoked (prepared h o s) = invoked s.
Proof.
  unfold prepared.
  destruct (configureAudio_refs h o
              (stopPreviousAudio
                 (default true (AudioControlOptions.stopPrevious o))
                 (if isPriority o then takePriority h s else s)))
    as (-> & -> & -> & _ & -> & -> & _).
  destruct (stopPreviousAudio_refs
              (default true (AudioControlOptions.stopPrevious o))
              (if isPriority o then takePriority h s else s))
    as (-> & -> & -> & -> & ->).
  destruct (isPriority o); [|done].
  by destruct (takePriority_refs h s) as (-> & -> & -> & -> & ->).
Qed.

Lemma armed_refs h o s :
  previousAudioRef (armed h o s) = Some h
  ∧ priorityAudioRef (armed h o s)
    = (if isPriority o then Some h else priorityAudioRef s)
  ∧ bgMusicRef (armed h o s)
    = (if isPriority o then ducked (bgMusicRef s) else bgMusicRef s)
  ∧ priorityQueueRef (armed h o s) = priorityQueueRef s
  ∧ invoked (armed h o s) = invoked s.
Proof.
  destruct (prepared_refs h o s) as (_ & H2 & H3 & H4 & H5).
  repeat split; [exact H2|exact H3|exact H4|exact H5].
Qed.

(** What an admitted call leaves in the refs, whatever becomes of it. *)
Lemma playAudio_admitted_refs h o dev s :
  blocked o s = false →
  audioContextOk dev = true →
  priorityAudioRef (snd (playAudio h o dev s))
  = (if isPriority o then Some h else priorityAudioRef s)
  ∧ bgMusicRef (snd (playAudio h o dev s))
    = (if isPriority o then ducked (bgMusicRef s) else bgMusicRef s)
  ∧ priorityQueueRef (snd (playAudio h o dev s)) = priorityQueueRef s
  ∧ invoked (snd (playAudio h o dev s)) = invoked s.
Proof.
  intros Hb Hctx. rewrite playAudio_admitted by done.
  destruct (prepared_refs h o s) as (_ & H2 & H3 & H4 & H5).
  destruct (armed_refs h o s) as (_ & A2 & A3 & A4 & A5).
  destruct (volumeAccepted _); [|by repeat split].
  destruct (playPromise dev); repeat split; assumption.
Qed.

(** *** Volumes along the stages *)

Lemma duckBackgroundMusic_volume_track s b :
  BackgroundMusicState.audioRef (bgMusicRef s) = Some b →
  BackgroundMusicState.isPlaying (bgMusicRef s)
  && BackgroundMusicState.enableDucking (bgMusicRef s) = true →
  HTMLAudioElement.volume (deref b (duckBackgroundMusic s))
  = (BackgroundMusicState.volume (bgMusicRef s) * 0.2)%Q.
Proof.
  intros Hb Hd. unfold duckBackgroundMusic. rewrite Hb, Hd.
  by rewrite deref_modify.
Qed.

Lemma duckBackgroundMusic_volume_same s h :
  BackgroundMusicState.audioRef (bgMusicRef s) ≠ Some h
  ∨ BackgroundMusicState.isPlaying (bgMusicRef s)
    && BackgroundMusicState.enableDucking (bgMusicRef s) = false →
  HTMLAudioElement.volume (deref h (duckBackgroundMusic s))
  = HTMLAudioElement.volume (deref h s).
Proof.
  intros Hcase. unfold duckBackgroundMusic.
  destruct (BackgroundMusicState.audioRef (bgMusicRef s)) as [b|]; [|done].
  destruct (_ && _); [|done].
  destruct Hcase as [Hne|]; [|done].
  rewrite deref_modify_ne; [done|congruence].
Qed.

Lemma stopPreviousAudio_volume b h s :
  HTMLAudioElement.volume (deref h (stopPreviousAudio b s))
  = HTMLAudioElement.volume (deref h s).
Proof.
  unfold stopPreviousAudio. destruct (previousAudioRef s); [|done].
  destruct b; [apply stopAudio_volume|done].
Qed.

Lemma takePriority_volume_track h s b :
  BackgroundMusicState.audioRef (bgMusicRef s) = Some b →
  BackgroundMusicState.isPlaying (bgMusicRef s)
  && BackgroundMusicState.enableDucking (bgMusicRef s) = true →
  HTMLAudioElement.volume (deref b (takePriority h s))
  = (BackgroundMusicState.volume (bgMusicRef s) * 0.2)%Q.
Proof.
  intros Hb Hd. unfold takePriority.
  rewrite duckBackgroundMusic_volume_track;
    by destruct (priorityAudioRef s).
Qed.

Lemma takePriority_volume_same h s h' :
  BackgroundMusicState.audioRef (bgMusicRef s) ≠ Some h'
  ∨ BackgroundMusicState.isPlaying (bgMusicRef s)
    && BackgroundMusicState.enableDucking (bgMusicRef s) = false →
  HTMLAudioElement.volume (deref h' (takePriority h s))
  = HTMLAudioElement.volume (deref h' s).
Proof.
  intros Hcase. unfold takePriority.
  rewrite duckBackgroundMusic_volume_same.
  - autorewrite with deref_set.
    destruct (priorityAudioRef s); [apply stopAudio_volume|done].
  - by destruct (priorityAudioRef s).
Qed.

Lemma prepared_volume h o s h' :
  HTMLAudioElement.volume (deref h' (prepared h o s))
  = HTMLAudioElement.volume
      (deref h' (if isPriority o then takePriority h s else s)).
Proof.
  unfold prepared. by rewrite configureAudio_volume, stopPreviousAudio_volume.
Qed.

Lemma armed_other h o s h' :
  h ≠ h' → deref h' (armed h o s) = deref h' (prepared h o s).
Proof.
  intros Hne. unfold armed. autorewrite with deref_set.
  by rewrite !deref_modify_ne.
Qed.

Lemma armed_keeps_stopped h o s h' :
  stopped (deref h' (prepared h o s)) → stopped (deref h' (armed h o s)).
Proof. intros Hs. unfold armed. keep_stopped. Qed.

Lemma stopPreviousAudio_keeps_stopped b s h :
  stopped (deref h s) → stopped (deref h (stopPreviousAudio b s)).
Proof.
  intros Hs. unfold stopPreviousAudio.
  destruct (previousAudioRef s); [|done]. destruct b; keep_stopped.
Qed.

Lemma takePriority_keeps_stopped h s h' :
  stopped (deref h' s) → stopped (deref h' (takePriority h s)).
Proof.
  intros Hs. unfold takePriority.
  destruct (priorityAudioRef s); keep_stopped.
Qed.

Lemma prepared_keeps_stopped h o s h' :
  stopped (deref h' (if isPriority o then takePriority h s else s)) →
  stopped (deref h' (prepared h o s)).
Proof.
  intros Hs. unfold prepared.
  by apply configureAudio_keeps_stopped, stopPreviousAudio_keeps_stopped.
Qed.

(** ** Blocking and queuing *)

Lemma blocked_true o s :
  hasPriorityAudio s = true →
  AudioControlOptions.priority o ≠ Some true →
  AudioControlOptions.ignorePriority o ≠ Some true →
  blocked o s = true.
Proof.
  intros Hp Hprio Hign. unfold blocked. rewrite Hp.
  destruct (AudioControlOptions.priority o) as [[]|],
           (AudioControlOptions.ignorePriority o) as [[]|]; simpl; congruence.
Qed.

(** C1. A request that asks neither for priority nor to ignore priority, made
    while a priority sound is audible, is answered [false]; no element is
    touched and no ref other than the queue changes; the request is appended
    at the back of the queue when [queueIfBlocked] is set, and nothing at all
    changes when it is not. *)
Theorem playAudio_blocked_by_priority h o dev s :
  hasPriorityAudio s = true →
  AudioControlOptions.priority o ≠ Some true →
  AudioControlOptions.ignorePriority o ≠ Some true →
  fst (playAudio h o dev s) = false
  ∧ heap (snd (playAudio h o dev s)) = heap s
  ∧ previousAudioRef (snd (playAudio h o dev s)) = previousAudioRef s
  ∧ priorityAudioRef (snd (playAudio h o dev s)) = priorityAudioRef s
  ∧ bgMusicRef (snd (playAudio h o dev s)) = bgMusicRef s
  ∧ (AudioControlOptions.queueIfBlocked o = Some true →
     priorityQueueRef (snd (playAudio h o dev s))
     = priorityQueueRef s ++ [Queued.mk h o])
  ∧ (AudioControlOptions.queueIfBlocked o ≠ Some true →
     snd (playAudio h o dev s) = s).
Proof.
  intros Hp Hprio Hign. unfold playAudio.
  rewrite (blocked_true o s Hp Hprio Hign).
  destruct (AudioControlOptions.queueIfBlocked o) as [[]|]; simpl;
    repeat split; try reflexivity; congruence.
Qed.

Lemma playAudio_blocked_by_priority_witness :
  hasPriorityAudio duringEffect = true
  ∧ fst (playAudio wrong queueOptions deviceOk duringEffect) = false
  ∧ priorityQueueRef (snd (playAudio wrong queueOptions deviceOk duringEffect))
    = [Queued.mk wrong queueOptions].
Proof.
  assert (Hp : hasPriorityAudio duringEffect = true) by (vm_compute; reflexivity).
  assert (H1 : AudioControlOptions.priority queueOptions ≠ Some true)
    by (simpl; discriminate).
  assert (H2 : AudioControlOptions.ignorePriority queueOptions ≠ Some true)
    by (simpl; discriminate).
  destruct (playAudio_blocked_by_priority wrong queueOptions deviceOk
              duringEffect Hp H1 H2) as (Hf & _ & _ & _ & _ & Hq & _).
  split; [exact Hp|]. split; [exact Hf|]. exact (Hq eq_refl).
Defined.

(** ** Stopping *)

Lemma playAudio_admitted_other h o dev s h' :
  blocked o s = false →
  audioContextOk dev = true →
  h ≠ h' →
  deref h' (snd (playAudio h o dev s)) = deref h' (prepared h o s).
Proof.
  intros Hb Hctx Hne. rewrite playAudio_admitted by done.
  destruct (volumeAccepted _); [|done].
  destruct (playPromise dev); cbn [snd];
    rewrite ?(deref_modify_ne h h') by done; by apply armed_other.
Qed.

Lemma playAudio_admitted_stops_previous h o dev s p :
  blocked o s = false →
  audioContextOk dev = true →
  previousAudioRef s = Some p →
  default true (AudioControlOptions.stopPrevious o) = true →
  p ≠ h →
  stopped (deref p (snd (playAudio h o dev s))).
Proof.
  intros Hb Hctx Hprev Hstop Hne.
  rewrite playAudio_admitted_other by done.
  unfold prepared. rewrite Hstop.
  apply configureAudio_keeps_stopped. unfold stopPreviousAudio.
  assert (Hprev' : previousAudioRef
                     (if isPriority o then takePriority h s else s) = Some p).
  { destruct (isPriority o); [|done].
    by destruct (takePriority_refs h s) as (-> & _). }
  rewrite Hprev'. keep_stopped.
Qed.

Lemma playAudio_admitted_stops_priority h o dev s p :
  blocked o s = false →
  audioContextOk dev = true →
  priorityAudioRef s = Some p →
  isPriority o = true →
  p ≠ h →
  stopped (deref p (snd (playAudio h o dev s))).
Proof.
  intros Hb Hctx Hprio Hp Hne.
  rewrite playAudio_admitted_other by done.
  apply prepared_keeps_stopped. rewrite Hp.
  unfold takePriority. rewrite Hprio. keep_stopped.
Qed.

Lemma playBackgroundMusic_stops_old h v d promise s b :
  BackgroundMusicState.audioRef (bgMusicRef s) = Some b →
  promise = Rejects ∨ b ≠ h →
  stopped (deref b (playBackgroundMusic h v d promise s)).
Proof.
  intros Hb Hcase. unfold playBackgroundMusic. rewrite Hb.
  destruct promise.
  - destruct Hcase as [|Hne]; [done|].
    autorewrite with deref_set. rewrite (deref_modify_ne h b) by done.
    keep_stopped.
  - keep_stopped.
Qed.

Lemma stopBackgroundMusic_stopped s b :
  BackgroundMusicState.audioRef (bgMusicRef s) = Some b →
  stopped (deref b (stopBackgroundMusic s)).
Proof.
  intros Hb. unfold stopBackgroundMusic. rewrite Hb. keep_stopped.
Qed.

Lemma cleanup_heap s :
  heap (cleanup s) =
  heap (let s1 := match previousAudioRef s with
                  | Some p => stopAudio p s | None => s end in
        let s2 := match priorityAudioRef s with
                  | Some p => stopAudio p s1 | None => s1 end in
        match BackgroundMusicState.audioRef (bgMusicRef s) with
        | Some b => stopAudio b s2 | None => s2 end).
Proof.
  unfold cleanup. rewrite cleanup_queue_loop.
  destruct (previousAudioRef s); autorewrite with refs;
    destruct (priorityAudioRef s); autorewrite with refs;
    destruct (BackgroundMusicState.audioRef (bgMusicRef s)); reflexivity.
Qed.

Lemma cleanup_stops s p :
  previousAudioRef s = Some p ∨ priorityAudioRef s = Some p
  ∨ BackgroundMusicState.audioRef (bgMusicRef s) = Some p →
  stopped (deref p (cleanup s)).
Proof.
  intros Hp. unfold deref. rewrite cleanup_heap. fold (deref p).
  cbv zeta.
  destruct (previousAudioRef s) as [p1|] eqn:H1,
           (priorityAudioRef s) as [p2|] eqn:H2,
           (BackgroundMusicState.audioRef (bgMusicRef s)) as [p3|] eqn:H3;
    destruct Hp as [Hp|[Hp|Hp]]; try discriminate; injection Hp as ->;
    match goal with |- stopped (heap ?x !!! ?p) => change (stopped (deref p x)) end;
    keep_stopped.
Qed.

(** C8. Every stop made by the controller goes through [stopAudio], which
    pauses the element and sets its position to [0]: the element in the
    previous slot and the superseded priority element when [playAudio] admits
    a request for another element, the replaced background track, the track
    stopped by [stopBackgroundMusic], and the three tracked elements at
    [cleanup].  An element stopped this way plays from position [0] when it
    is started again. *)
Theorem stop_resets_position :
  (∀ h s, stopped (deref h (stopAudio h s)))
  ∧ (∀ h o dev s p,
       blocked o s = false → audioContextOk dev = true → p ≠ h →
       (previousAudioRef s = Some p →
        default true (AudioControlOptions.stopPrevious o) = true →
        stopped (deref p (snd (playAudio h o dev s))))
       ∧ (priorityAudioRef s = Some p → isPriority o = true →
          stopped (deref p (snd (playAudio h o dev s)))))
  ∧ (∀ h v d promise s b,
       BackgroundMusicState.audioRef (bgMusicRef s) = Some b → b ≠ h →
       stopped (deref b (playBackgroundMusic h v d promise s)))
  ∧ (∀ s b,
       BackgroundMusicState.audioRef (bgMusicRef s) = Some b →
       stopped (deref b (stopBackgroundMusic s)))
  ∧ (∀ s p,
       previousAudioRef s = Some p ∨ priorityAudioRef s = Some p
       ∨ BackgroundMusicState.audioRef (bgMusicRef s) = Some p →
       stopped (deref p (cleanup s)))
  ∧ (∀ e, stopped e →
       HTMLAudioElement.paused (HTMLAudioElement.play e) = false
       ∧ HTMLAudioElement.currentTime (HTMLAudioElement.play e) = 0%Q).
Proof.
  split; [apply stopAudio_stopped|].
  split.
  { intros h o dev s p Hb Hctx Hne. split.
    - intros Hprev Hstop. by apply playAudio_admitted_stops_previous.
    - intros Hprio Hp. by apply playAudio_admitted_stops_priority. }
  split.
  { intros h v d promise s b Hb Hne.
    apply playBackgroundMusic_stops_old; [done|by right]. }
  split; [apply stopBackgroundMusic_stopped|].
  split; [apply cleanup_stops|apply play_from_start].
Qed.

Lemma stop_resets_position_witness :
  stopped (deref correct (snd (playAudio wrong effectOptions deviceOk duringEffect)))
  ∧ stopped (deref bgm (stopBackgroundMusic duringEffect)).
Proof.
  destruct stop_resets_position as (_ & Hplay & _ & Hbg & _).
  split.
  - apply (Hplay wrong effectOptions deviceOk duringEffect correct);
      [reflexivity | reflexivity | discriminate | reflexivity | reflexivity].
  - apply (Hbg duringEffect bgm). reflexivity.
Defined.

(** ** Background music *)

Lemma stopped_not_audible e : stopped e → audible e = false.
Proof. intros [Hp _]. unfold audible. by rewrite Hp. Qed.

(** C9. When the promise of [play()] is rejected in [playBackgroundMusic],
    the track that was tracked before has been stopped all the same, while
    [bgMusicRef] is as it was: [getBackgroundMusicState] answers as before
    the call, [isPlaying] included, for a track that is no longer heard. *)
Theorem playBackgroundMusic_rejected h v d s :
  bgMusicRef (playBackgroundMusic h v d Rejects s) = bgMusicRef s
  ∧ getBackgroundMusicState (playBackgroundMusic h v d Rejects s)
    = getBackgroundMusicState s
  ∧ ∀ b, BackgroundMusicState.audioRef (bgMusicRef s) = Some b →
         stopped (deref b (playBackgroundMusic h v d Rejects s))
         ∧ audible (deref b (playBackgroundMusic h v d Rejects s)) = false.
Proof.
  assert (Hbg : bgMusicRef (playBackgroundMusic h v d Rejects s) = bgMusicRef s).
  { unfold playBackgroundMusic.
    by destruct (BackgroundMusicState.audioRef (bgMusicRef s)). }
  split; [exact Hbg|]. split.
  - unfold getBackgroundMusicState. by rewrite Hbg.
  - intros b Hb.
    assert (Hs : stopped (deref b (playBackgroundMusic h v d Rejects s)))
      by (apply playBackgroundMusic_stops_old; [done|by left]).
    split; [exact Hs|by apply stopped_not_audible].
Qed.

Lemma playBackgroundMusic_rejected_witness :
  info_isPlaying
    (getBackgroundMusicState
       (playBackgroundMusic gameover (Some 0.5%Q) (Some false) Rejects withMusic))
  = true
  ∧ info_volume
      (getBackgroundMusicState
         (playBackgroundMusic gameover (Some 0.5%Q) (Some false) Rejects withMusic))
    = 0.8%Q
  ∧ audible
      (deref bgm
         (playBackgroundMusic gameover (Some 0.5%Q) (Some false) Rejects withMusic))
    = false.
Proof.
  destruct (playBackgroundMusic_rejected gameover (Some 0.5%Q) (Some false)
              withMusic) as (_ & Hget & Hold).
  rewrite Hget. split; [reflexivity|]. split; [reflexivity|].
  apply (Hold bgm). reflexivity.
Defined.

(** C10. [stopBackgroundMusic] stops the tracked element and writes [false]
    to [isPlaying]; the element stays tracked, with its [volume],
    [originalVolume] and [enableDucking], and no other ref changes.  So
    [setBackgroundMusicVolume] afterwards still writes the volume of the
    stopped element and the recorded volumes, and
    [setBackgroundMusicDucking] the recorded flag. *)
Theorem stopBackgroundMusic_keeps_track s b :
  BackgroundMusicState.audioRef (bgMusicRef s) = Some b →
  bgMusicRef (stopBackgroundMusic s)
  = BackgroundMusicState.mk (Some b)
      (BackgroundMusicState.volume (bgMusicRef s)) false
      (BackgroundMusicState.originalVolume (bgMusicRef s))
      (BackgroundMusicState.enableDucking (bgMusicRef s))
  ∧ previousAudioRef (stopBackgroundMusic s) = previousAudioRef s
  ∧ priorityAudioRef (stopBackgroundMusic s) = priorityAudioRef s
  ∧ priorityQueueRef (stopBackgroundMusic s) = priorityQueueRef s
  ∧ audioMetadataRef (stopBackgroundMusic s) = audioMetadataRef s
  ∧ (∀ v,
       HTMLAudioElement.volume
         (deref b (setBackgroundMusicVolume v (stopBackgroundMusic s)))
       = (if hasPriorityAudio (stopBackgroundMusic s)
             && BackgroundMusicState.enableDucking (bgMusicRef s)
          then normalize v * 0.2 else normalize v)%Q
       ∧ BackgroundMusicState.originalVolume
           (bgMusicRef (setBackgroundMusicVolume v (stopBackgroundMusic s)))
         = normalize v
       ∧ BackgroundMusicState.volume
           (bgMusicRef (setBackgroundMusicVolume v (stopBackgroundMusic s)))
         = HTMLAudioElement.volume
             (deref b (setBackgroundMusicVolume v (stopBackgroundMusic s))))
  ∧ (∀ e,
       BackgroundMusicState.enableDucking
         (bgMusicRef (setBackgroundMusicDucking e (stopBackgroundMusic s)))
       = e).
Proof.
  intros Hb.
  assert (Hbg : bgMusicRef (stopBackgroundMusic s)
                = BackgroundMusicState.mk (Some b)
                    (BackgroundMusicState.volume (bgMusicRef s)) false
                    (BackgroundMusicState.originalVolume (bgMusicRef s))
                    (BackgroundMusicState.enableDucking (bgMusicRef s))).
  { unfold stopBackgroundMusic. rewrite Hb. simpl. by rewrite Hb. }
  split; [exact Hbg|].
  repeat split; try (unfold stopBackgroundMusic; by rewrite Hb).
  - unfold setBackgroundMusicVolume. rewrite Hbg. simpl.
    by rewrite deref_modify.
  - unfold setBackgroundMusicVolume. rewrite Hbg. reflexivity.
  - unfold setBackgroundMusicVolume. rewrite Hbg. simpl.
    by rewrite deref_modify.
  - intros e. unfold setBackgroundMusicDucking. rewrite Hbg. simpl.
    by repeat case_match.
Qed.

Lemma stopBackgroundMusic_keeps_track_witness :
  BackgroundMusicState.audioRef (bgMusicRef (stopBackgroundMusic withMusic))
  = Some bgm
  ∧ BackgroundMusicState.isPlaying (bgMusicRef (stopBackgroundMusic withMusic))
    = false
  ∧ HTMLAudioElement.volume
      (deref bgm (setBackgroundMusicVolume 0.3 (stopBackgroundMusic withMusic)))
    = normalize 0.3.
Proof.
  destruct (stopBackgroundMusic_keeps_track withMusic bgm eq_refl)
    as (Hbg & _ & _ & _ & _ & Hvol & _).
  rewrite Hbg. split; [reflexivity|]. split; [reflexivity|].
  destruct (Hvol 0.3%Q) as (-> & _). reflexivity.
Defined.

(** ** The previous slot and the volume of an admitted request *)

Lemma playAudio_writes_previous h o dev s :
  blocked o s = false →
  audioContextOk dev = true →
  volumeAccepted (default 1%Q (AudioControlOptions.volume o)) = true →
  previousAudioRef (snd (playAudio h o dev s)) = Some h.
Proof.
  intros Hb Hctx Hvol. unfold playAudio. rewrite Hb, Hctx, Hvol. simpl.
  by destruct (playPromise dev).
Qed.

(** C4. [playAudio] writes the new element to [previousAudioRef] before it
    awaits [play()], for priority requests as for the others.  On a freshly
    mounted controller, the effect played with [{ volume: 1, priority: true }]
    ends up in the previous slot, and so does an ordinary sound whose start
    is rejected. *)
Theorem previous_slot_taken_by_priority_and_by_failed_start :
  fst (playAudio correct effectOptions deviceOk mounted) = true
  ∧ previousAudioRef mounted = None
  ∧ previousAudioRef (snd (playAudio correct effectOptions deviceOk mounted))
    = Some correct
  ∧ fst (playAudio wrong AudioControlOptions.empty deviceRejects mounted) = false
  ∧ previousAudioRef
      (snd (playAudio wrong AudioControlOptions.empty deviceRejects mounted))
    = Some wrong.
Proof. repeat split. Qed.

Lemma playAudio_volume_rejected h o dev s :
  blocked o s = false →
  volumeAccepted (default 1%Q (AudioControlOptions.volume o)) = false →
  fst (playAudio h o dev s) = false.
Proof.
  intros Hb Hvol. unfold playAudio. rewrite Hb, Hvol.
  by destruct (audioContextOk dev).
Qed.

Lemma playAudio_volume_written h o dev s :
  blocked o s = false →
  audioContextOk dev = true →
  volumeAccepted (default 1%Q (AudioControlOptions.volume o)) = true →
  HTMLAudioElement.volume (deref h (snd (playAudio h o dev s)))
  = default 1%Q (AudioControlOptions.volume o).
Proof.
  intros Hb Hctx Hvol. unfold playAudio. rewrite Hb, Hctx, Hvol. simpl.
  destruct (playPromise dev); simpl; autorewrite with deref_set;
    rewrite ?deref_modify; autorewrite with deref_set;
    rewrite ?deref_modify.
  - unfold HTMLAudioElement.play. by repeat case_match.
  - reflexivity.
Qed.

(** C5. [playAudio] hands the requested volume to the element as it is.
    A volume below [0] or above [1] is refused by the element, the call
    answers [false], the element is not started and keeps the volume it had:
    [1] instead of [0] for a request of [-0.5] on a new element, [0.4]
    instead of [1] for a request of [1.5] on an element set to [0.4]. *)
Theorem playAudio_volume_not_clamped :
  normalize (-0.5) = 0%Q
  ∧ fst (playAudio correct (volumeOptions (-0.5)) deviceOk mounted) = false
  ∧ HTMLAudioElement.volume
      (deref correct (snd (playAudio correct (volumeOptions (-0.5)) deviceOk mounted)))
    = 1%Q
  ∧ HTMLAudioElement.paused
      (deref correct (snd (playAudio correct (volumeOptions (-0.5)) deviceOk mounted)))
    = true
  ∧ normalize 1.5 = 1%Q
  ∧ fst (playAudio wrong (volumeOptions 1.5) deviceOk (setVolume wrong 0.4 mounted))
    = false
  ∧ HTMLAudioElement.volume
      (deref wrong
         (snd (playAudio wrong (volumeOptions 1.5) deviceOk
                 (setVolume wrong 0.4 mounted))))
    = 0.4%Q.
Proof. repeat split. Qed.

(** ** A start that fails *)

(** C7. When the promise of [play()] is rejected in an admitted call,
    [playAudio] answers [false] (it is a total function: nothing is thrown at
    the caller), and what was done before the start stays done: for a
    priority request the element holds the priority slot, the element it
    superseded is stopped and the background music is ducked, with its
    former volume recorded as [originalVolume]; the element of the previous
    slot is stopped when [stopPrevious] holds. *)
Theorem playAudio_start_rejected h o s :
  blocked o s = false →
  volumeAccepted (default 1%Q (AudioControlOptions.volume o)) = true →
  fst (playAudio h o deviceRejects s) = false
  ∧ (isPriority o = true →
     priorityAudioRef (snd (playAudio h o deviceRejects s)) = Some h
     ∧ (∀ p, priorityAudioRef s = Some p →
             stopped (deref p (snd (playAudio h o deviceRejects s))))
     ∧ (∀ b, BackgroundMusicState.audioRef (bgMusicRef s) = Some b →
             BackgroundMusicState.isPlaying (bgMusicRef s) = true →
             BackgroundMusicState.enableDucking (bgMusicRef s) = true →
             BackgroundMusicState.originalVolume
               (bgMusicRef (snd (playAudio h o deviceRejects s)))
             = BackgroundMusicState.volume (bgMusicRef s)
             ∧ (b ≠ h →
                HTMLAudioElement.volume
                  (deref b (snd (playAudio h o deviceRejects s)))
                = (BackgroundMusicState.volume (bgMusicRef s) * 0.2)%Q)))
  ∧ (default true (AudioControlOptions.stopPrevious o) = true →
     ∀ p, previousAudioRef s = Some p →
          stopped (deref p (snd (playAudio h o deviceRejects s)))).
Proof.
  intros Hb Hvol.
  rewrite (playAudio_admitted h o deviceRejects s Hb eq_refl), Hvol.
  cbn [fst snd deviceRejects playPromise].
  split; [reflexivity|]. split.
  - intros Hp.
    destruct (armed_refs h o s) as (_ & A2 & A3 & _).
    rewrite Hp in A2, A3. split; [exact A2|]. split.
    + intros p Hprio.
      apply armed_keeps_stopped, prepared_keeps_stopped. rewrite Hp.
      unfold takePriority. rewrite Hprio. keep_stopped.
    + intros b Hbg Hplaying Hduck. rewrite A3. split.
      * unfold ducked. by rewrite Hbg, Hplaying, Hduck.
      * intros Hne. rewrite armed_other by done.
        rewrite prepared_volume, Hp.
        apply takePriority_volume_track; [done|].
        by rewrite Hplaying, Hduck.
  - intros Hstop p Hprev.
    apply armed_keeps_stopped. unfold prepared. rewrite Hstop.
    apply configureAudio_keeps_stopped. unfold stopPreviousAudio.
    assert (Hprev' : previousAudioRef
                       (if isPriority o then takePriority h s else s) = Some p).
    { destruct (isPriority o); [|done].
      by destruct (takePriority_refs h s) as (-> & _). }
    rewrite Hprev'. keep_stopped.
Qed.

Lemma playAudio_start_rejected_witness :
  fst (playAudio wrong effectOptions deviceRejects duringEffect) = false
  ∧ priorityAudioRef (snd (playAudio wrong effectOptions deviceRejects duringEffect))
    = Some wrong
  ∧ stopped (deref correct (snd (playAudio wrong effectOptions deviceRejects duringEffect)))
  ∧ HTMLAudioElement.volume
      (deref bgm (snd (playAudio wrong effectOptions deviceRejects duringEffect)))
    = (0.8 * 0.2)%Q.
Proof.
  destruct (playAudio_start_rejected wrong effectOptions duringEffect
              eq_refl eq_refl) as (Hf & Hprio & Hprev).
  destruct (Hprio eq_refl) as (Hslot & Hold & Hduck).
  split; [exact Hf|]. split; [exact Hslot|]. split.
  - apply (Hprev eq_refl correct). reflexivity.
  - destruct (Hduck bgm eq_refl eq_refl eq_refl) as (_ & Hv).
    rewrite Hv; [reflexivity|discriminate].
Defined.

(** ** Teardown *)

Lemma cleanup_refs s :
  previousAudioRef (cleanup s) = None
  ∧ priorityAudioRef (cleanup s) = None
  ∧ bgMusicRef (cleanup s) = initialBgMusic
  ∧ priorityQueueRef (cleanup s) = []
  ∧ audioMetadataRef (cleanup s) = initialMetadata.
Proof. repeat split. Qed.

Lemma cleanup_other s h :
  previousAudioRef s ≠ Some h →
  priorityAudioRef s ≠ Some h →
  BackgroundMusicState.audioRef (bgMusicRef s) ≠ Some h →
  deref h (cleanup s) = deref h s.
Proof.
  intros H1 H2 H3. unfold deref. rewrite cleanup_heap. cbv zeta.
  destruct (previousAudioRef s) as [p1|],
           (priorityAudioRef s) as [p2|],
           (BackgroundMusicState.audioRef (bgMusicRef s)) as [p3|];
    repeat match goal with
           | |- heap ?x !!! ?p = _ => change (deref p x = deref p s)
           | |- deref _ (stopAudio _ _) = _ =>
               rewrite stopAudio_other by congruence
           end; reflexivity.
Qed.

Lemma cleanup_idempotent s : cleanup (cleanup s) = cleanup s.
Proof. unfold cleanup at 1. rewrite cleanup_queue_loop. reflexivity. Qed.

(** C6, as the code has it.  [cleanup] stops the elements of the previous
    slot, of the priority slot and of the background music; it leaves every
    other element as it is, the queued ones included; it empties the queue
    and puts every ref back to its initial value, so that the three queries
    answer as on a new controller; and a second [cleanup] changes nothing. *)
Theorem cleanup_resets s :
  (∀ p, previousAudioRef s = Some p ∨ priorityAudioRef s = Some p
        ∨ BackgroundMusicState.audioRef (bgMusicRef s) = Some p →
        stopped (deref p (cleanup s)))
  ∧ (∀ h, previousAudioRef s ≠ Some h → priorityAudioRef s ≠ Some h →
          BackgroundMusicState.audioRef (bgMusicRef s) ≠ Some h →
          deref h (cleanup s) = deref h s)
  ∧ previousAudioRef (cleanup s) = None
  ∧ priorityAudioRef (cleanup s) = None
  ∧ bgMusicRef (cleanup s) = initialBgMusic
  ∧ priorityQueueRef (cleanup s) = []
  ∧ getAudioMetadata (cleanup s) = initialMetadata
  ∧ getBackgroundMusicState (cleanup s)
    = {| info_isPlaying := false; info_volume := 1; info_originalVolume := 1;
         info_enableDucking := true |}
  ∧ hasPriorityAudio (cleanup s) = false
  ∧ cleanup (cleanup s) = cleanup s.
Proof.
  split; [apply cleanup_stops|].
  split; [apply cleanup_other|].
  do 7 (split; [reflexivity|]). apply cleanup_idempotent.
Qed.

Lemma cleanup_resets_witness :
  stopped (deref correct (cleanup queuedWhilePlaying))
  ∧ deref wrong (cleanup queuedWhilePlaying) = deref wrong queuedWhilePlaying
  ∧ priorityQueueRef (cleanup queuedWhilePlaying) = [].
Proof.
  destruct (cleanup_resets queuedWhilePlaying)
    as (Hstop & Hother & _ & _ & _ & Hq & _).
  split; [apply (Hstop correct); left; reflexivity|].
  split; [apply (Hother wrong); discriminate|exact Hq].
Defined.

(** The queued element of [queuedWhilePlaying] is playing, and [cleanup]
    does not stop it. *)
Lemma cleanup_leaves_queued_playing :
  priorityQueueRef queuedWhilePlaying = [Queued.mk wrong queueOptions]
  ∧ HTMLAudioElement.paused (deref wrong (cleanup queuedWhilePlaying)) = false
  ∧ ¬ Forall (fun entry => stopped (deref (Queued.audioRef entry)
                                      (cleanup queuedWhilePlaying)))
        (priorityQueueRef queuedWhilePlaying).
Proof.
  assert (Hp : HTMLAudioElement.paused (deref wrong (cleanup queuedWhilePlaying))
               = false) by (vm_compute; reflexivity).
  split; [vm_compute; reflexivity|]. split; [exact Hp|].
  intros HF. apply Forall_inv in HF. destruct HF as [Hpaused _].
  change (HTMLAudioElement.paused (deref wrong (cleanup queuedWhilePlaying))
          = true) in Hpaused.
  rewrite Hp in Hpaused. discriminate.
Qed.

(** ** The queue never holds a priority request *)

Lemma blocked_not_priority o s : blocked o s = true → isPriority o = false.
Proof.
  unfold blocked, isPriority. intros H.
  apply andb_true_iff in H as [_ H]. by apply negb_true_iff in H.
Qed.

Lemma blocked_ignorePriority o s :
  blocked (AudioControlOptions.withIgnorePriority o) s = false.
Proof. reflexivity. Qed.

Lemma isPriority_withIgnorePriority o :
  isPriority (AudioControlOptions.withIgnorePriority o) = isPriority o.
Proof. reflexivity. Qed.

Lemma playAudio_queue h o dev s :
  priorityQueueRef (snd (playAudio h o dev s))
  = if blocked o s && default false (AudioControlOptions.queueIfBlocked o)
    then priorityQueueRef s ++ [Queued.mk h o]
    else priorityQueueRef s.
Proof.
  destruct (blocked o s) eqn:Hb.
  - unfold playAudio. rewrite Hb. by destruct (default false _).
  - destruct (audioContextOk dev) eqn:Hctx.
    + by destruct (playAudio_admitted_refs h o dev s Hb Hctx) as (_ & _ & -> & _).
    + unfold playAudio. by rewrite Hb, Hctx.
Qed.

Lemma playAudio_queue_ok h o dev s :
  queue_ok s → queue_ok (snd (playAudio h o dev s)).
Proof.
  unfold queue_ok. intros Hq. rewrite playAudio_queue.
  destruct (blocked o s) eqn:Hb; [|done].
  destruct (default false _); [|done].
  apply Forall_app. split; [done|].
  apply Forall_singleton. simpl. by apply blocked_not_priority in Hb.
Qed.

Lemma restored_refs cb s :
  previousAudioRef (restored cb s) = previousAudioRef s
  ∧ priorityAudioRef (restored cb s) = None
  ∧ bgMusicRef (restored cb s) = bgMusicRef s
  ∧ priorityQueueRef (restored cb s) = priorityQueueRef s
  ∧ invoked (restored cb s) = invoked s ++ option_list cb.
Proof.
  unfold restored.
  destruct (restoreBackgroundMusic_refs
              (set_priorityAudioRef None (runCallback cb s)))
    as (-> & -> & -> & -> & ->).
  destruct cb; simpl; repeat split. by rewrite app_nil_r.
Qed.

Lemma enhancedOnEnd_priority cb dev s :
  enhancedOnEnd cb true dev s =
    match priorityQueueRef s with
    | nextAudio :: rest =>
        snd (playAudio (Queued.audioRef nextAudio)
               (AudioControlOptions.withIgnorePriority (Queued.options nextAudio))
               dev (set_priorityQueueRef rest (restored cb s)))
    | [] => restored cb s
    end.
Proof.
  unfold enhancedOnEnd. fold (restored cb s).
  by destruct (restored_refs cb s) as (_ & _ & _ & -> & _).
Qed.

Lemma enhancedOnEnd_queue cb priority dev s :
  priorityQueueRef (enhancedOnEnd cb priority dev s)
  = if priority then tail (priorityQueueRef s) else priorityQueueRef s.
Proof.
  destruct priority.
  - rewrite enhancedOnEnd_priority.
    destruct (restored_refs cb s) as (_ & _ & _ & Hq & _).
    destruct (priorityQueueRef s) as [|e rest]; [done|].
    rewrite playAudio_queue, blocked_ignorePriority. reflexivity.
  - unfold enhancedOnEnd. by destruct cb.
Qed.

Lemma ended_handler h dev s :
  ended h dev s =
    match HTMLAudioElement.onended (deref h s) with
    | Some hd =>
        enhancedOnEnd (captured_onEnd hd) (captured_priority hd) dev
          (modify h HTMLAudioElement.finish s)
    | None => modify h HTMLAudioElement.finish s
    end.
Proof. reflexivity. Qed.

Lemma queue_ok_tail s s' :
  priorityQueueRef s' = tail (priorityQueueRef s) → queue_ok s → queue_ok s'.
Proof.
  unfold queue_ok. intros ->. destruct (priorityQueueRef s); [done|].
  apply Forall_cons_1.
Qed.

Lemma step_queue_ok op s : queue_ok s → queue_ok (step op s).
Proof.
  intros Hq. destruct op; simpl.
  - by apply playAudio_queue_ok.
  - exact Hq.
  - exact Hq.
  - unfold queue_ok, playBackgroundMusic.
    by destruct (BackgroundMusicState.audioRef (bgMusicRef s)), promise.
  - unfold queue_ok, stopBackgroundMusic.
    by destruct (BackgroundMusicState.audioRef (bgMusicRef s)).
  - unfold queue_ok, setBackgroundMusicVolume.
    by destruct (BackgroundMusicState.audioRef (bgMusicRef s)).
  - unfold queue_ok, setBackgroundMusicDucking.
    destruct (BackgroundMusicState.audioRef (bgMusicRef s)); [|done].
    by repeat case_match.
  - apply Forall_nil_2.
  - rewrite ended_handler.
    destruct (HTMLAudioElement.onended (deref audioRef s)) as [hd|]; [|done].
    destruct (captured_priority hd) eqn:Hp.
    + eapply queue_ok_tail; [|exact Hq].
      by rewrite enhancedOnEnd_queue.
    + unfold queue_ok. by rewrite enhancedOnEnd_queue.
  - unfold queue_ok, dispatchEvent. by destruct (HTMLAudioElement.listeners _).
  - unfold queue_ok, playBackgroundMusicStart.
    by destruct (BackgroundMusicState.audioRef (bgMusicRef s)), promise.
  - exact Hq.
  - unfold queue_ok, loadMetadata, dispatchEvent.
    by destruct (HTMLAudioElement.listeners _).
Qed.

Lemma reachable_queue_ok s : reachable s → queue_ok s.
Proof.
  induction 1 as [m mobile|op s _ IH].
  - apply Forall_nil_2.
  - by apply step_queue_ok.
Qed.

Lemma reachable_run ops s : reachable s → reachable (run ops s).
Proof.
  revert s. induction ops as [|op ops IH]; intros s Hs; [done|].
  apply IH. by constructor.
Qed.

(** ** The end of a priority sound *)

Lemma restoreBackgroundMusic_volume_track s b :
  BackgroundMusicState.audioRef (bgMusicRef s) = Some b →
  BackgroundMusicState.isPlaying (bgMusicRef s)
  && BackgroundMusicState.enableDucking (bgMusicRef s) = true →
  HTMLAudioElement.volume (deref b (restoreBackgroundMusic s))
  = BackgroundMusicState.originalVolume (bgMusicRef s).
Proof.
  intros Hb Hd. unfold restoreBackgroundMusic. rewrite Hb, Hd.
  by rewrite deref_modify.
Qed.

Lemma restoreBackgroundMusic_other s h :
  BackgroundMusicState.audioRef (bgMusicRef s) ≠ Some h →
  deref h (restoreBackgroundMusic s) = deref h s.
Proof.
  intros Hne. unfold restoreBackgroundMusic.
  destruct (BackgroundMusicState.audioRef (bgMusicRef s)) as [b|]; [|done].
  destruct (_ && _); [|done].
  rewrite deref_modify_ne; [done|congruence].
Qed.

Lemma restoreBackgroundMusic_audible s h :
  audible (deref h (restoreBackgroundMusic s)) = audible (deref h s).
Proof.
  unfold restoreBackgroundMusic.
  destruct (BackgroundMusicState.audioRef (bgMusicRef s)) as [b|]; [|done].
  destruct (_ && _); [|done].
  by rewrite audible_modify by same_attr.
Qed.

Lemma stopPreviousAudio_other b s h :
  previousAudioRef s ≠ Some h →
  deref h (stopPreviousAudio b s) = deref h s.
Proof.
  intros Hne. unfold stopPreviousAudio.
  destruct (previousAudioRef s) as [p|]; [|done].
  destruct b; [|done]. apply stopAudio_other. congruence.
Qed.

(** A request without priority writes the volume of its own element only,
    and touches besides it the element of the previous slot at most. *)
Lemma playAudio_ordinary_volume h o dev s h' :
  isPriority o = false →
  h ≠ h' →
  HTMLAudioElement.volume (deref h' (snd (playAudio h o dev s)))
  = HTMLAudioElement.volume (deref h' s).
Proof.
  intros Hp Hne.
  destruct (blocked o s) eqn:Hb.
  { unfold playAudio. rewrite Hb. by destruct (default false _). }
  destruct (audioContextOk dev) eqn:Hctx.
  - rewrite playAudio_admitted_other by done.
    by rewrite prepared_volume, Hp.
  - unfold playAudio. by rewrite Hb, Hctx.
Qed.

Lemma playAudio_ordinary_other h o dev s h' :
  isPriority o = false →
  h ≠ h' →
  previousAudioRef s ≠ Some h' →
  deref h' (snd (playAudio h o dev s)) = deref h' s.
Proof.
  intros Hp Hne Hprev.
  destruct (blocked o s) eqn:Hb.
  { unfold playAudio. rewrite Hb. by destruct (default false _). }
  destruct (audioContextOk dev) eqn:Hctx.
  - rewrite playAudio_admitted_other by done.
    unfold prepared. rewrite Hp.
    rewrite configureAudio_other by done.
    by apply stopPreviousAudio_other.
  - unfold playAudio. by rewrite Hb, Hctx.
Qed.

Lemma playAudio_ordinary_refs h o dev s :
  isPriority o = false →
  priorityAudioRef (snd (playAudio h o dev s)) = priorityAudioRef s
  ∧ bgMusicRef (snd (playAudio h o dev s)) = bgMusicRef s
  ∧ invoked (snd (playAudio h o dev s)) = invoked s.
Proof.
  intros Hp.
  destruct (blocked o s) eqn:Hb.
  { unfold playAudio. rewrite Hb. by destruct (default false _). }
  destruct (audioContextOk dev) eqn:Hctx.
  - destruct (playAudio_admitted_refs h o dev s Hb Hctx) as (-> & -> & _ & ->).
    by rewrite Hp.
  - unfold playAudio. by rewrite Hb, Hctx.
Qed.

Lemma playAudio_started h o dev s :
  blocked o s = false →
  audioContextOk dev = true →
  volumeAccepted (default 1%Q (AudioControlOptions.volume o)) = true →
  playPromise dev = Resolves →
  fst (playAudio h o dev s) = true
  ∧ HTMLAudioElement.paused (deref h (snd (playAudio h o dev s))) = false.
Proof.
  intros Hb Hctx Hvol Hplay.
  rewrite playAudio_admitted by done. rewrite Hvol, Hplay. cbn [fst snd].
  split; [done|]. rewrite deref_modify.
  unfold HTMLAudioElement.play. by repeat case_match.
Qed.

Lemma ended_priority h cb dev s :
  HTMLAudioElement.onended (deref h s)
  = Some {| captured_onEnd := cb; captured_priority := true |} →
  ended h dev s =
    match priorityQueueRef s with
    | nextAudio :: rest =>
        snd (playAudio (Queued.audioRef nextAudio)
               (AudioControlOptions.withIgnorePriority (Queued.options nextAudio))
               dev (set_priorityQueueRef rest (restored cb (finished h s))))
    | [] => restored cb (finished h s)
    end.
Proof.
  intros Hh. rewrite ended_handler, Hh. cbn [captured_onEnd captured_priority].
  fold (finished h s). apply (enhancedOnEnd_priority cb dev (finished h s)).
Qed.

Lemma restored_finished_volume h cb s b :
  BackgroundMusicState.audioRef (bgMusicRef s) = Some b →
  BackgroundMusicState.isPlaying (bgMusicRef s) = true →
  BackgroundMusicState.enableDucking (bgMusicRef s) = true →
  HTMLAudioElement.volume (deref b (restored cb (finished h s)))
  = BackgroundMusicState.originalVolume (bgMusicRef s).
Proof.
  intros Hb Hplaying Hduck. unfold restored.
  rewrite restoreBackgroundMusic_volume_track;
    destruct cb; simpl; by rewrite ?Hplaying, ?Hduck.
Qed.

Lemma restored_finished_other h cb s h' :
  h ≠ h' →
  BackgroundMusicState.audioRef (bgMusicRef s) ≠ Some h' →
  deref h' (restored cb (finished h s)) = deref h' s.
Proof.
  intros Hne Hb. unfold restored.
  rewrite restoreBackgroundMusic_other by (by destruct cb).
  unfold finished. destruct cb; simpl; autorewrite with deref_set;
    by rewrite deref_modify_ne.
Qed.

(** C3, as the code has it.  When [ended] fires on an element whose handler
    was installed by a priority request, in a state the controller can
    reach: the caller's callback, if any, is run; the priority slot is
    emptied; the volume of the background track is set to the recorded
    [originalVolume] when a track is tracked, marked as playing and ducking
    is enabled; then the request at the front of the queue, and no other, is
    taken off the queue and handed to [playAudio] with [ignorePriority]
    forced to [true], so that it is not blocked.  Afterwards the queue is the
    former queue without its front, the priority slot is still empty, and
    the only elements that may have changed are the ended one, the
    background track, the one of the previous slot and the one just
    requested: the requests behind the front one stay queued, and a sound
    that is playing is stopped only if it is the one of the previous slot. *)
Theorem priority_completion h cb dev s :
  reachable s →
  HTMLAudioElement.onended (deref h s)
  = Some {| captured_onEnd := cb; captured_priority := true |} →
  invoked (restored cb (finished h s)) = invoked s ++ option_list cb
  ∧ priorityAudioRef (restored cb (finished h s)) = None
  ∧ (∀ b, BackgroundMusicState.audioRef (bgMusicRef s) = Some b →
          BackgroundMusicState.isPlaying (bgMusicRef s) = true →
          BackgroundMusicState.enableDucking (bgMusicRef s) = true →
          HTMLAudioElement.volume (deref b (restored cb (finished h s)))
          = BackgroundMusicState.originalVolume (bgMusicRef s))
  ∧ ended h dev s =
      match priorityQueueRef s with
      | nextAudio :: rest =>
          snd (playAudio (Queued.audioRef nextAudio)
                 (AudioControlOptions.withIgnorePriority (Queued.options nextAudio))
                 dev (set_priorityQueueRef rest (restored cb (finished h s))))
      | [] => restored cb (finished h s)
      end
  ∧ (∀ nextAudio rest, priorityQueueRef s = nextAudio :: rest →
       blocked (AudioControlOptions.withIgnorePriority (Queued.options nextAudio))
         (set_priorityQueueRef rest (restored cb (finished h s))) = false
       ∧ (audioContextOk dev = true →
          volumeAccepted
            (default 1%Q (AudioControlOptions.volume (Queued.options nextAudio)))
          = true →
          playPromise dev = Resolves →
          HTMLAudioElement.paused (deref (Queued.audioRef nextAudio) (ended h dev s))
          = false))
  ∧ priorityQueueRef (ended h dev s) = tail (priorityQueueRef s)
  ∧ priorityAudioRef (ended h dev s) = None
  ∧ invoked (ended h dev s) = invoked s ++ option_list cb
  ∧ (∀ b, BackgroundMusicState.audioRef (bgMusicRef s) = Some b →
          BackgroundMusicState.isPlaying (bgMusicRef s) = true →
          BackgroundMusicState.enableDucking (bgMusicRef s) = true →
          (∀ nextAudio, head (priorityQueueRef s) = Some nextAudio →
                        Queued.audioRef nextAudio ≠ b) →
          HTMLAudioElement.volume (deref b (ended h dev s))
          = BackgroundMusicState.originalVolume (bgMusicRef s))
  ∧ (∀ h', h' ≠ h →
           BackgroundMusicState.audioRef (bgMusicRef s) ≠ Some h' →
           previousAudioRef s ≠ Some h' →
           (∀ nextAudio, head (priorityQueueRef s) = Some nextAudio →
                         Queued.audioRef nextAudio ≠ h') →
           deref h' (ended h dev s) = deref h' s).
Proof.
  intros Hreach Hh.
  apply reachable_queue_ok in Hreach. unfold queue_ok in Hreach.
  destruct (restored_refs cb (finished h s)) as (R1 & R2 & R3 & R4 & R5).
  change (previousAudioRef (finished h s)) with (previousAudioRef s) in R1.
  change (bgMusicRef (finished h s)) with (bgMusicRef s) in R3.
  change (priorityQueueRef (finished h s)) with (priorityQueueRef s) in R4.
  change (invoked (finished h s)) with (invoked s) in R5.
  pose proof (ended_priority h cb dev s Hh) as He.
  split; [exact R5|]. split; [exact R2|].
  split; [intros b; apply restored_finished_volume|].
  split; [exact He|].
  destruct (priorityQueueRef s) as [|nextAudio rest] eqn:Hq.
  - (* nothing is queued *)
    rewrite He. split; [by intros ? ?|].
    split; [by rewrite R4|]. split; [exact R2|]. split; [exact R5|].
    split.
    + intros b Hb Hplaying Hduck _. by apply restored_finished_volume.
    + intros h' Hne Hbg _ _. by apply restored_finished_other.
  - (* the front request is played *)
    apply Forall_cons in Hreach as [Hfront _].
    set (next := AudioControlOptions.withIgnorePriority (Queued.options nextAudio)) in *.
    set (mid := set_priorityQueueRef rest (restored cb (finished h s))) in *.
    assert (Hord : isPriority next = false) by exact Hfront.
    destruct (playAudio_ordinary_refs (Queued.audioRef nextAudio) next dev mid Hord)
      as (P1 & P2 & P3).
    rewrite He. split.
    { intros e rest' [= <- <-]. split; [reflexivity|].
      intros Hctx Hvol Hplay.
      by apply (playAudio_started (Queued.audioRef nextAudio) next dev mid). }
    split.
    { rewrite playAudio_queue.
      change (blocked next mid) with false. reflexivity. }
    split; [by rewrite P1|]. split; [by rewrite P3|].
    split.
    + intros b Hb Hplaying Hduck Hfresh.
      rewrite playAudio_ordinary_volume; [|done|by apply Hfresh].
      subst mid. autorewrite with deref_set.
      by apply restored_finished_volume.
    + intros h' Hne Hbg Hprev Hfresh.
      rewrite playAudio_ordinary_other;
        [|done|by apply Hfresh|subst mid; simpl; by rewrite R1].
      subst mid. autorewrite with deref_set.
      by apply restored_finished_other.
Qed.

Lemma reachable_duringEffect : reachable duringEffect.
Proof.
  apply (reachable_step (OpPlayAudio correct effectOptions deviceOk)).
  apply (reachable_step
           (OpPlayBackgroundMusic bgm (Some 0.8%Q) (Some true) Resolves)).
  apply reachable_initial.
Qed.

Lemma reachable_twoQueued : reachable twoQueued.
Proof. apply reachable_run, reachable_duringEffect. Qed.

Lemma reachable_stoppedWhileDucked : reachable stoppedWhileDucked.
Proof. apply (reachable_step OpStopBackgroundMusic), reachable_duringEffect. Qed.

Lemma priority_completion_witness :
  priorityQueueRef twoQueued
  = [Queued.mk wrong queueOptions; Queued.mk gameover queueOptions]
  ∧ priorityQueueRef (ended correct deviceOk twoQueued)
    = [Queued.mk gameover queueOptions]
  ∧ priorityAudioRef (ended correct deviceOk twoQueued) = None
  ∧ HTMLAudioElement.paused (deref wrong (ended correct deviceOk twoQueued))
    = false
  ∧ HTMLAudioElement.volume (deref bgm (ended correct deviceOk twoQueued))
    = 0.8%Q
  ∧ deref gameover (ended correct deviceOk twoQueued) = deref gameover twoQueued.
Proof.
  assert (Hq : priorityQueueRef twoQueued
               = [Queued.mk wrong queueOptions; Queued.mk gameover queueOptions])
    by (vm_compute; reflexivity).
  assert (Hh : HTMLAudioElement.onended (deref correct twoQueued)
               = Some {| captured_onEnd := None; captured_priority := true |})
    by (vm_compute; reflexivity).
  destruct (priority_completion correct None deviceOk twoQueued
              reachable_twoQueued Hh)
    as (_ & _ & _ & _ & Hplay & Htail & Hslot & _ & Hvol & Hother).
  split; [exact Hq|].
  split; [rewrite Htail, Hq; reflexivity|].
  split; [exact Hslot|].
  split.
  { destruct (Hplay _ _ Hq) as (_ & Hstarted).
    apply Hstarted; reflexivity. }
  split.
  { rewrite (Hvol bgm); [vm_compute; reflexivity|vm_compute; reflexivity
                        |vm_compute; reflexivity|vm_compute; reflexivity|].
    rewrite Hq. intros e [= <-]. discriminate. }
  apply Hother.
  - discriminate.
  - vm_compute. discriminate.
  - vm_compute. discriminate.
  - rewrite Hq. intros e [= <-]. discriminate.
Defined.

(** The music was stopped while it was ducked: the track is still tracked
    and ducking still enabled, but the end of the priority sound leaves the
    element at the ducked volume. *)
Lemma completion_leaves_stopped_music_ducked :
  HTMLAudioElement.onended (deref correct stoppedWhileDucked)
  = Some {| captured_onEnd := None; captured_priority := true |}
  ∧ BackgroundMusicState.audioRef
      (bgMusicRef (ended correct deviceOk stoppedWhileDucked)) = Some bgm
  ∧ BackgroundMusicState.enableDucking
      (bgMusicRef (ended correct deviceOk stoppedWhileDucked)) = true
  ∧ BackgroundMusicState.originalVolume
      (bgMusicRef (ended correct deviceOk stoppedWhileDucked)) = 0.8%Q
  ∧ HTMLAudioElement.volume (deref bgm (ended correct deviceOk stoppedWhileDucked))
    = 0.16%Q
  ∧ ¬ (HTMLAudioElement.volume
         (deref bgm (ended correct deviceOk stoppedWhileDucked))
       == BackgroundMusicState.originalVolume
            (bgMusicRef (ended correct deviceOk stoppedWhileDucked)))%Q.
Proof.
  assert (Hv : HTMLAudioElement.volume
                 (deref bgm (ended correct deviceOk stoppedWhileDucked))
               = 0.16%Q) by (vm_compute; reflexivity).
  assert (Ho : BackgroundMusicState.originalVolume
                 (bgMusicRef (ended correct deviceOk stoppedWhileDucked))
               = 0.8%Q) by (vm_compute; reflexivity).
  do 3 (split; [vm_compute; reflexivity|]).
  split; [exact Ho|]. split; [exact Hv|].
  rewrite Hv, Ho. intros H. vm_compute in H. discriminate.
Qed.

(** Two queued sounds are heard at the same time.  The request taken off
    the queue is played as an ordinary one: it stops the element of the
    previous slot and nothing else.  When a priority sound has been laid over
    the first queued sound ([stopPrevious: false]), the previous slot holds
    the priority element, so the second queued sound, started at the end of
    that priority sound, leaves the first one playing. *)
Lemma queued_sounds_heard_together :
  reachable heardTogether
  ∧ priorityQueueRef twoQueued
    = [Queued.mk wrong queueOptions; Queued.mk gameover queueOptions]
  ∧ priorityQueueRef heardTogether = []
  ∧ audible (deref wrong heardTogether) = true
  ∧ audible (deref gameover heardTogether) = true.
Proof.
  split; [apply reachable_run, reachable_twoQueued|].
  repeat split; vm_compute; reflexivity.
Qed.

(** Where the end of a priority sound falls short of the claim: music that
    was stopped while it was ducked is left at the ducked volume although
    ducking is enabled, and two queued sounds are heard at the same time. *)
Lemma completion_keeps_music_ducked_and_sounds_overlap :
  (BackgroundMusicState.audioRef
     (bgMusicRef (ended correct deviceOk stoppedWhileDucked)) = Some bgm
   ∧ BackgroundMusicState.enableDucking
       (bgMusicRef (ended correct deviceOk stoppedWhileDucked)) = true
   ∧ ¬ (HTMLAudioElement.volume
          (deref bgm (ended correct deviceOk stoppedWhileDucked))
        == BackgroundMusicState.originalVolume
             (bgMusicRef (ended correct deviceOk stoppedWhileDucked)))%Q)
  ∧ (reachable heardTogether
     ∧ priorityQueueRef twoQueued
       = [Queued.mk wrong queueOptions; Queued.mk gameover queueOptions]
     ∧ audible (deref wrong heardTogether) = true
     ∧ audible (deref gameover heardTogether) = true).
Proof.
  split.
  - destruct completion_leaves_stopped_music_ducked
      as (_ & Hb & Hd & _ & _ & Hne).
    by repeat split.
  - destruct queued_sounds_heard_together as (Hr & Hq & _ & Hw & Hg).
    by repeat split.
Qed.

(** The callback given with a priority request is run when the sound ends,
    and only then. *)
Example completion_runs_callback :
  invoked (snd (playAudio correct (notifyOptions 7) deviceOk mounted)) = []
  ∧ invoked
      (ended correct deviceOk
         (snd (playAudio correct (notifyOptions 7) deviceOk mounted)))
    = [7].
Proof. split; vm_compute; reflexivity. Qed.

(** Requests queued one after the other are started one per completion, in
    the order in which they came. *)
Example queued_requests_start_in_order :
  previousAudioRef (ended correct deviceOk twoQueued) = Some wrong
  ∧ HTMLAudioElement.paused (deref gameover (ended correct deviceOk twoQueued))
    = true
  ∧ priorityQueueRef
      (ended wrong deviceOk
         (snd (playAudio wrong effectOptions deviceOk
                 (ended correct deviceOk twoQueued))))
    = []
  ∧ HTMLAudioElement.paused
      (deref gameover
         (ended wrong deviceOk
            (snd (playAudio wrong effectOptions deviceOk
                    (ended correct deviceOk twoQueued)))))
    = false.
Proof. repeat split; vm_compute; reflexivity. Qed.

(** ** Ducking follows the priority sound *)

Lemma blocked_priority o s : isPriority o = true → blocked o s = false.
Proof.
  unfold blocked, isPriority. intros ->. simpl. apply andb_false_r.
Qed.

Lemma audible_play e d :
  HTMLAudioElement.duration e = Some d → (0 < d)%Q →
  audible (HTMLAudioElement.play e) = true.
Proof.
  intros Hd Hpos. unfold audible, HTMLAudioElement.play.
  destruct (HTMLAudioElement.before_end _ _) eqn:Hb.
  - destruct e; simpl in *. exact Hb.
  - rewrite Hd. destruct e; simpl in *. subst.
    apply negb_true_iff. destruct (Qle_bool d 0) eqn:Hle; [|done].
    apply Qle_bool_iff in Hle. lra.
Qed.

Lemma hasPriorityAudio_modify h f s :
  (∀ e, audible (f e) = audible e) →
  hasPriorityAudio (modify h f s) = hasPriorityAudio s.
Proof.
  intros Hf. rewrite !hasPriorityAudio_audible.
  change (priorityAudioRef (modify h f s)) with (priorityAudioRef s).
  destruct (priorityAudioRef s); [|done]. by apply audible_modify.
Qed.

Lemma hasPriorityAudio_modify_ne h f s :
  priorityAudioRef s ≠ Some h →
  hasPriorityAudio (modify h f s) = hasPriorityAudio s.
Proof.
  intros Hne. rewrite !hasPriorityAudio_audible.
  change (priorityAudioRef (modify h f s)) with (priorityAudioRef s).
  destruct (priorityAudioRef s) as [p|]; [|done].
  rewrite deref_modify_ne; [done|congruence].
Qed.

Lemma hasPriorityAudio_empty_slot s :
  priorityAudioRef s = None → hasPriorityAudio s = false.
Proof. intros Hp. by rewrite hasPriorityAudio_audible, Hp. Qed.

Lemma stopPreviousAudio_duration b s h :
  HTMLAudioElement.duration (deref h (stopPreviousAudio b s))
  = HTMLAudioElement.duration (deref h s).
Proof.
  unfold stopPreviousAudio. destruct (previousAudioRef s); [|done].
  destruct b; [apply stopAudio_duration|done].
Qed.

Lemma takePriority_duration h s h' :
  HTMLAudioElement.duration (deref h' (takePriority h s))
  = HTMLAudioElement.duration (deref h' s).
Proof.
  unfold takePriority. rewrite duckBackgroundMusic_duration.
  autorewrite with deref_set.
  destruct (priorityAudioRef s); [apply stopAudio_duration|done].
Qed.

Lemma armed_duration h o s h' :
  HTMLAudioElement.duration (deref h' (armed h o s))
  = HTMLAudioElement.duration (deref h' s).
Proof.
  unfold armed. autorewrite with deref_set.
  rewrite !duration_modify by same_attr.
  unfold prepared.
  rewrite configureAudio_duration, stopPreviousAudio_duration.
  destruct (isPriority o); [apply takePriority_duration|done].
Qed.

(** After a priority request has started on an element with a positive
    duration, a priority sound is audible. *)
Lemma playAudio_priority_audible h o s d :
  isPriority o = true →
  volumeAccepted (default 1%Q (AudioControlOptions.volume o)) = true →
  HTMLAudioElement.duration (deref h s) = Some d → (0 < d)%Q →
  hasPriorityAudio (snd (playAudio h o deviceOk s)) = true.
Proof.
  intros Hp Hvol Hd Hpos.
  rewrite playAudio_admitted by (by apply blocked_priority || done).
  rewrite Hvol. cbn [snd deviceOk playPromise].
  rewrite hasPriorityAudio_audible.
  change (priorityAudioRef (modify h HTMLAudioElement.play (armed h o s)))
    with (priorityAudioRef (armed h o s)).
  destruct (armed_refs h o s) as (_ & -> & _). rewrite Hp.
  rewrite deref_modify. apply (audible_play _ d); [|done].
  by rewrite armed_duration.
Qed.

Lemma restored_finished_volume_same h cb s h' :
  BackgroundMusicState.audioRef (bgMusicRef s) ≠ Some h'
  ∨ BackgroundMusicState.isPlaying (bgMusicRef s)
    && BackgroundMusicState.enableDucking (bgMusicRef s) = false →
  HTMLAudioElement.volume (deref h' (restored cb (finished h s)))
  = HTMLAudioElement.volume (deref h' s).
Proof.
  intros Hcase. unfold restored, restoreBackgroundMusic.
  assert (Hbg : bgMusicRef (set_priorityAudioRef None (runCallback cb (finished h s)))
                = bgMusicRef s) by (by destruct cb).
  rewrite Hbg.
  assert (Hv : HTMLAudioElement.volume
                 (deref h' (set_priorityAudioRef None (runCallback cb (finished h s))))
               = HTMLAudioElement.volume (deref h' s)).
  { unfold finished. destruct cb; simpl; autorewrite with deref_set;
      by rewrite volume_modify by same_attr. }
  destruct (BackgroundMusicState.audioRef (bgMusicRef s)) as [b|]; [|done].
  destruct (_ && _); [|done].
  destruct Hcase as [Hne|]; [|done].
  rewrite deref_modify_ne; [done|congruence].
Qed.

(** What [ended] leaves behind when the handler is a priority one and no
    queued request asks for priority. *)
Lemma ended_priority_refs h cb dev s :
  queue_ok s →
  HTMLAudioElement.onended (deref h s)
  = Some {| captured_onEnd := cb; captured_priority := true |} →
  priorityAudioRef (ended h dev s) = None
  ∧ bgMusicRef (ended h dev s) = bgMusicRef s
  ∧ ∀ h', (∀ nextAudio, head (priorityQueueRef s) = Some nextAudio →
                        Queued.audioRef nextAudio ≠ h') →
          HTMLAudioElement.volume (deref h' (ended h dev s))
          = HTMLAudioElement.volume (deref h' (restored cb (finished h s))).
Proof.
  intros Hq Hh. unfold queue_ok in Hq.
  destruct (restored_refs cb (finished h s)) as (_ & R2 & R3 & _).
  change (bgMusicRef (finished h s)) with (bgMusicRef s) in R3.
  rewrite (ended_priority h cb dev s Hh).
  destruct (priorityQueueRef s) as [|nextAudio rest]; [done|].
  apply Forall_cons in Hq as [Hfront _].
  destruct (playAudio_ordinary_refs (Queued.audioRef nextAudio)
              (AudioControlOptions.withIgnorePriority (Queued.options nextAudio))
              dev (set_priorityQueueRef rest (restored cb (finished h s))) Hfront)
    as (-> & -> & _).
  split; [exact R2|]. split; [exact R3|].
  intros h' Hfresh.
  rewrite playAudio_ordinary_volume; [done|exact Hfront|by apply Hfresh].
Qed.

Lemma ducked_fields bg :
  BackgroundMusicState.audioRef (ducked bg) = BackgroundMusicState.audioRef bg
  ∧ BackgroundMusicState.isPlaying (ducked bg) = BackgroundMusicState.isPlaying bg
  ∧ BackgroundMusicState.enableDucking (ducked bg)
    = BackgroundMusicState.enableDucking bg
  ∧ BackgroundMusicState.volume (ducked bg) = BackgroundMusicState.volume bg.
Proof.
  unfold ducked.
  destruct (BackgroundMusicState.audioRef bg) eqn:Hb; [|done].
  by destruct (_ && _).
Qed.

Lemma ducked_originalVolume bg b :
  BackgroundMusicState.audioRef bg = Some b →
  BackgroundMusicState.originalVolume (ducked bg)
  = if BackgroundMusicState.isPlaying bg && BackgroundMusicState.enableDucking bg
    then BackgroundMusicState.volume bg
    else BackgroundMusicState.originalVolume bg.
Proof. intros Hb. unfold ducked. rewrite Hb. by destruct (_ && _). Qed.

Lemma ducking_playAudio h o s d :
  ducking_consistent s →
  isPriority o = true →
  volumeAccepted (default 1%Q (AudioControlOptions.volume o)) = true →
  BackgroundMusicState.audioRef (bgMusicRef s) ≠ Some h →
  HTMLAudioElement.duration (deref h s) = Some d → (0 < d)%Q →
  ducking_consistent (snd (playAudio h o deviceOk s)).
Proof.
  intros Hinv Hp Hvol Hne Hd Hpos b Hb Hplaying.
  pose proof (playAudio_priority_audible h o s d Hp Hvol Hd Hpos) as Haud.
  destruct (playAudio_admitted_refs h o deviceOk s (blocked_priority o s Hp) eq_refl)
    as (_ & Hbg & _).
  rewrite Hp in Hbg. unfold expectedVolume. rewrite Haud, Hbg.
  rewrite Hbg in Hb, Hplaying. cbn [andb].
  destruct (ducked_fields (bgMusicRef s)) as (F1 & F2 & F3 & _).
  rewrite F1 in Hb. rewrite F2 in Hplaying. rewrite F3.
  rewrite (ducked_originalVolume _ b Hb), Hplaying. cbn [andb].
  assert (Hhb : h ≠ b) by congruence.
  rewrite playAudio_admitted_other by (by apply blocked_priority || done).
  rewrite prepared_volume, Hp.
  destruct (BackgroundMusicState.enableDucking (bgMusicRef s)) eqn:Hduck.
  - rewrite takePriority_volume_track; [reflexivity|done|].
    by rewrite Hplaying, Hduck.
  - rewrite takePriority_volume_same
      by (right; by rewrite Hduck, andb_false_r).
    specialize (Hinv b Hb Hplaying). unfold expectedVolume in Hinv.
    by rewrite Hduck, andb_false_r in Hinv.
Qed.

Lemma ducking_playBackgroundMusic h v d s :
  priorityAudioRef s ≠ Some h →
  ducking_consistent (playBackgroundMusic h v d Resolves s).
Proof.
  intros Hne b Hb _.
  unfold playBackgroundMusic in *. fold (musicStopped s) in *.
  cbn in Hb. injection Hb as <-.
  set (s2 := modify h (HTMLAudioElement.set_loop true) (musicStopped s)).
  set (initialVolume :=
         if hasPriorityAudio s2 && default true d
         then (normalize (default 1%Q v) * 0.2)%Q else normalize (default 1%Q v)).
  assert (Hslot : priorityAudioRef (musicStopped s) ≠ Some h).
  { unfold musicStopped.
    by destruct (BackgroundMusicState.audioRef (bgMusicRef s)). }
  assert (Hhp : hasPriorityAudio
                  (set_bgMusicRef
                     (BackgroundMusicState.mk (Some h) initialVolume true
                        (normalize (default 1%Q v)) (default true d))
                     (modify h HTMLAudioElement.play
                        (modify h
                           (HTMLAudioElement.set_preload
                              (if isMobile
                                    (modify h (HTMLAudioElement.set_volume initialVolume) s2)
                               then PreloadMetadata else PreloadAuto))
                           (modify h (HTMLAudioElement.set_volume initialVolume) s2))))
                = hasPriorityAudio s2).
  { change (hasPriorityAudio (set_bgMusicRef ?b ?x)) with (hasPriorityAudio x).
    rewrite !hasPriorityAudio_modify_ne; done. }
  unfold expectedVolume. rewrite Hhp.
  autorewrite with deref_set. rewrite !deref_modify.
  cbn [bgMusicRef set_bgMusicRef BackgroundMusicState.enableDucking
       BackgroundMusicState.originalVolume].
  fold initialVolume.
  assert (Hvol : ∀ e, HTMLAudioElement.volume (HTMLAudioElement.play e)
                      = HTMLAudioElement.volume e) by same_attr.
  rewrite Hvol. reflexivity.
Qed.

Lemma ducking_setBackgroundMusicVolume v s :
  ducking_consistent (setBackgroundMusicVolume v s).
Proof.
  intros b Hb _. unfold setBackgroundMusicVolume in *.
  destruct (BackgroundMusicState.audioRef (bgMusicRef s)) as [b0|] eqn:Hb0;
    [|by rewrite Hb0 in Hb].
  cbn in Hb. injection Hb as <-.
  unfold expectedVolume.
  rewrite hasPriorityAudio_modify by same_attr.
  change (hasPriorityAudio (set_bgMusicRef ?b ?x)) with (hasPriorityAudio x).
  rewrite deref_modify.
  cbn [bgMusicRef set_bgMusicRef modify set_heap
       BackgroundMusicState.enableDucking BackgroundMusicState.originalVolume
       HTMLAudioElement.volume HTMLAudioElement.set_volume].
  reflexivity.
Qed.

Lemma ducking_setBackgroundMusicDucking e s :
  ducking_consistent s →
  ducking_consistent (setBackgroundMusicDucking e s).
Proof.
  intros Hinv b Hb Hplaying. unfold setBackgroundMusicDucking in *.
  destruct (BackgroundMusicState.audioRef (bgMusicRef s)) as [b0|] eqn:Hb0;
    [|by apply Hinv].
  set (s1 := set_bgMusicRef _ s) in *.
  assert (Hhp : hasPriorityAudio s1 = hasPriorityAudio s) by reflexivity.
  rewrite Hhp in *.
  specialize (Hinv b0 Hb0). unfold expectedVolume in *.
  destruct e, (hasPriorityAudio s) eqn:Hp; cbn [negb andb] in *.
  - injection Hb as <-.
    rewrite hasPriorityAudio_modify by same_attr. rewrite Hhp.
    rewrite deref_modify. reflexivity.
  - injection Hb as <-. rewrite Hhp. cbn [andb].
    apply Hinv. exact Hplaying.
  - injection Hb as <-.
    rewrite hasPriorityAudio_modify by same_attr. rewrite Hhp.
    rewrite deref_modify. reflexivity.
  - injection Hb as <-. rewrite Hhp. cbn [andb].
    apply Hinv. exact Hplaying.
Qed.

Lemma ducking_ended h cb dev s :
  queue_ok s →
  ducking_consistent s →
  HTMLAudioElement.onended (deref h s)
  = Some {| captured_onEnd := cb; captured_priority := true |} →
  (∀ entry, head (priorityQueueRef s) = Some entry →
            BackgroundMusicState.audioRef (bgMusicRef s)
            ≠ Some (Queued.audioRef entry)) →
  ducking_consistent (ended h dev s).
Proof.
  intros Hq Hinv Hh Hfront b Hb Hplaying.
  destruct (ended_priority_refs h cb dev s Hq Hh) as (Hslot & Hbg & Hvol).
  rewrite Hbg in Hb, Hplaying.
  unfold expectedVolume.
  rewrite (hasPriorityAudio_empty_slot _ Hslot), Hbg. cbn [andb].
  rewrite Hvol by (intros e He Heq; apply (Hfront e He); congruence).
  destruct (BackgroundMusicState.enableDucking (bgMusicRef s)) eqn:Hduck.
  - by rewrite restored_finished_volume.
  - rewrite restored_finished_volume_same
      by (right; by rewrite Hduck, andb_false_r).
    specialize (Hinv b Hb Hplaying). unfold expectedVolume in Hinv.
    by rewrite Hduck, andb_false_r in Hinv.
Qed.

Lemma ducking_initial m mobile : ducking_consistent (initial m mobile).
Proof. intros b Hb. discriminate. Qed.

(** C2, as the code has it.  In a state the controller can reach in which
    the volume of the tracked, playing background track is the expected one
    ([originalVolume * 0.2] while a priority sound is audible and ducking is
    enabled, [originalVolume] otherwise), it is so again after: a priority
    [playAudio] that starts, on an element other than the background track
    that has a positive duration; a [playBackgroundMusic] that starts and
    whose promise is settled before anything else happens, on an element
    other than the one in the priority slot; [setBackgroundMusicVolume];
    [setBackgroundMusicDucking]; the end of a priority sound whose handler is
    still the one of the priority request, when the request at the front of
    the queue is not for the background track.  The states the controller
    can reach include those between the start of a [playBackgroundMusic] and
    the resolution of its promise. *)
Theorem ducking_preserved op s :
  reachable s →
  ducking_consistent s →
  ducking_step op s →
  ducking_consistent (step op s).
Proof.
  intros Hreach Hinv Hstep.
  destruct op; simpl in Hstep; try contradiction; cbn [step].
  - destruct Hstep as (Hp & -> & Hvol & Hne & d & Hd & Hpos).
    by apply (ducking_playAudio audioRef options s d).
  - destruct Hstep as (-> & Hne).
    by apply ducking_playBackgroundMusic.
  - apply ducking_setBackgroundMusicVolume.
  - by apply ducking_setBackgroundMusicDucking.
  - destruct Hstep as ((cb & Hh) & Hfront).
    apply (ducking_ended audioRef cb dev s); try done.
    by apply reachable_queue_ok.
Qed.

Lemma reachable_withMusic : reachable withMusic.
Proof.
  apply (reachable_step
           (OpPlayBackgroundMusic bgm (Some 0.8%Q) (Some true) Resolves)).
  apply reachable_initial.
Qed.

Lemma ducking_withMusic : ducking_consistent withMusic.
Proof.
  apply (ducking_playBackgroundMusic bgm (Some 0.8%Q) (Some true) mounted).
  discriminate.
Qed.

Lemma ducking_preserved_witness :
  ducking_consistent duringEffect
  ∧ hasPriorityAudio duringEffect = true
  ∧ HTMLAudioElement.volume (deref bgm duringEffect) = 0.16%Q.
Proof.
  split; [|split; vm_compute; reflexivity].
  apply (ducking_preserved (OpPlayAudio correct effectOptions deviceOk) withMusic
           reachable_withMusic ducking_withMusic).
  split; [reflexivity|]. split; [reflexivity|]. split; [reflexivity|].
  split; [discriminate|].
  exists 2%Q. split; reflexivity.
Defined.

(** The start of a priority sound is rejected while music plays: the music
    has been ducked, and no priority sound is audible. *)
Lemma ducking_lost_when_priority_start_fails :
  reachable withMusic
  ∧ ducking_consistent withMusic
  ∧ isPriority effectOptions = true
  ∧ hasPriorityAudio (step (OpPlayAudio correct effectOptions deviceRejects) withMusic)
    = false
  ∧ BackgroundMusicState.originalVolume
      (bgMusicRef (step (OpPlayAudio correct effectOptions deviceRejects) withMusic))
    = 0.8%Q
  ∧ HTMLAudioElement.volume
      (deref bgm (step (OpPlayAudio correct effectOptions deviceRejects) withMusic))
    = 0.16%Q
  ∧ ¬ ducking_consistent
        (step (OpPlayAudio correct effectOptions deviceRejects) withMusic).
Proof.
  split; [exact reachable_withMusic|]. split; [exact ducking_withMusic|].
  do 4 (split; [vm_compute; reflexivity|]).
  intros Hinv. specialize (Hinv bgm eq_refl eq_refl).
  vm_compute in Hinv. discriminate.
Qed.

(** Each circumstance named in [ducking_step] is needed: the volume of the
    music goes out of step when the priority request is for the background
    track itself, when [playBackgroundMusic] starts the element that holds
    the priority slot, and when the request played at the end of a priority
    sound is for the background track. *)
Lemma ducking_circumstances_needed :
  ¬ ducking_consistent (step (OpPlayAudio bgm effectOptions deviceOk) withMusic)
  ∧ ¬ ducking_consistent
        (step (OpPlayBackgroundMusic correct (Some 0.8%Q) (Some true) Resolves)
           (step (OpPlayAudio correct effectOptions deviceRejects) mounted))
  ∧ ¬ ducking_consistent
        (step (OpEnded correct deviceOk)
           (step (OpPlayAudio bgm (queueVolumeOptions 0.3) deviceOk) duringEffect)).
Proof.
  repeat split; intros Hinv;
    [specialize (Hinv bgm eq_refl eq_refl)
    |specialize (Hinv correct eq_refl eq_refl)
    |specialize (Hinv bgm eq_refl eq_refl)];
    vm_compute in Hinv; discriminate.
Qed.

(** The other circumstances named in [ducking_step] are needed as well.  On
    elements whose metadata is not loaded, a priority sound that has started
    does not count as audible ([duration] is [NaN]), while the music has been
    ducked.  A priority request whose volume the element refuses has ducked
    the music and started nothing.  A [playBackgroundMusic] whose start is
    rejected has rewritten the volume of the track it was to restart.  And
    when the element of the priority slot has been played again as an
    ordinary sound, its end restores nothing. *)
Lemma ducking_other_circumstances_needed :
  (ducking_consistent
     (playBackgroundMusic bgm (Some 0.8%Q) (Some true) Resolves mountedFresh)
   ∧ HTMLAudioElement.duration
       (deref correct
          (playBackgroundMusic bgm (Some 0.8%Q) (Some true) Resolves mountedFresh))
     = None
   ∧ ¬ ducking_consistent
         (step (OpPlayAudio correct effectOptions deviceOk)
            (playBackgroundMusic bgm (Some 0.8%Q) (Some true) Resolves
               mountedFresh)))
  ∧ ¬ ducking_consistent (step (OpPlayAudio correct loudOptions deviceOk) withMusic)
  ∧ ¬ ducking_consistent
        (step (OpPlayBackgroundMusic bgm (Some 0.3%Q) (Some true) Rejects) withMusic)
  ∧ (ducking_consistent
       (step (OpPlayAudio correct insistOptions deviceOk) duringEffect)
     ∧ ¬ ducking_consistent
           (step (OpEnded correct deviceOk)
              (step (OpPlayAudio correct insistOptions deviceOk) duringEffect))).
Proof.
  split; [split; [|split]|split; [|split; [|split]]].
  - apply ducking_playBackgroundMusic. discriminate.
  - vm_compute. reflexivity.
  - intros Hinv. specialize (Hinv bgm eq_refl eq_refl).
    vm_compute in Hinv. discriminate.
  - intros Hinv. specialize (Hinv bgm eq_refl eq_refl).
    vm_compute in Hinv. discriminate.
  - intros Hinv. specialize (Hinv bgm eq_refl eq_refl).
    vm_compute in Hinv. discriminate.
  - intros b Hb _. vm_compute in Hb. injection Hb as <-.
    vm_compute. reflexivity.
  - intros Hinv. specialize (Hinv bgm eq_refl eq_refl).
    vm_compute in Hinv. discriminate.
Qed.

(** ** What happens at an [await]

    [playBackgroundMusic] in one step is its start followed at once by the
    rest of its body.  The body of [playAudio] does not read
    [ignorePriority], so a body that runs in a later state than the test that
    admitted the request is the step of the same request with
    [ignorePriority] set.  The handler of a priority sound calls [playAudio]
    for the request it takes off the queue; what it has done before the body
    of that call runs is what [ended] leaves on a browser whose audio context
    does not come up. *)

Lemma playBackgroundMusic_at_once h v d promise s :
  playBackgroundMusic h v d promise s
  = match promise with
    | Resolves =>
        playBackgroundMusicSettled h v d
          (fst (playBackgroundMusicStart h v d Resolves s))
          (snd (playBackgroundMusicStart h v d Resolves s))
    | Rejects => snd (playBackgroundMusicStart h v d Rejects s)
    end.
Proof. by destruct promise. Qed.

Lemma playAudio_body_run_later h o dev s :
  blocked (AudioControlOptions.withIgnorePriority o) s = false
  ∧ (blocked o s = false →
     playAudio h (AudioControlOptions.withIgnorePriority o) dev s
     = playAudio h o dev s).
Proof.
  split; [reflexivity|].
  intros Hb. unfold playAudio. rewrite Hb.
  change (blocked (AudioControlOptions.withIgnorePriority o) s) with false.
  reflexivity.
Qed.

Lemma ended_body_run_later h cb dev s nextAudio rest :
  HTMLAudioElement.onended (deref h s)
  = Some {| captured_onEnd := cb; captured_priority := true |} →
  priorityQueueRef s = nextAudio :: rest →
  ended h deviceNoContext s
  = set_priorityQueueRef rest (restored cb (finished h s))
  ∧ ended h dev s
    = snd (playAudio (Queued.audioRef nextAudio)
             (AudioControlOptions.withIgnorePriority (Queued.options nextAudio))
             dev (ended h deviceNoContext s)).
Proof.
  intros Hh Hq.
  assert (Hsync : ended h deviceNoContext s
                  = set_priorityQueueRef rest (restored cb (finished h s))).
  { rewrite (ended_priority h cb deviceNoContext s Hh), Hq.
    unfold playAudio.
    change (blocked (AudioControlOptions.withIgnorePriority
                       (Queued.options nextAudio)) ?x) with false.
    reflexivity. }
  split; [exact Hsync|].
  rewrite Hsync. by rewrite (ended_priority h cb dev s Hh), Hq.
Qed.

(** The start of the music is overtaken by an effect.  The start sees no
    priority sound and sets the element to the full volume; the effect,
    played while the promise of [play()] is pending, finds no music recorded
    as playing and ducks nothing; the rest of [playBackgroundMusic] then
    records the music as playing at the full volume.  The music is heard at
    the full volume while the effect is audible, and the end of the effect
    changes nothing about it. *)
Lemma ducking_lost_when_music_start_is_overtaken :
  reachable musicOvertaken
  ∧ fst (playBackgroundMusicStart bgm (Some 0.5%Q) (Some true) Resolves mounted)
    = false
  ∧ hasPriorityAudio musicOvertaken = true
  ∧ getBackgroundMusicState musicOvertaken
    = {| info_isPlaying := true; info_volume := normalize 0.5;
         info_originalVolume := normalize 0.5; info_enableDucking := true |}
  ∧ HTMLAudioElement.volume (deref bgm musicOvertaken) = normalize 0.5
  ∧ ¬ ducking_consistent musicOvertaken
  ∧ HTMLAudioElement.volume (deref bgm (ended correct deviceOk musicOvertaken))
    = normalize 0.5.
Proof.
  split; [apply reachable_run, reachable_initial|].
  do 4 (split; [vm_compute; reflexivity|]).
  split; [|vm_compute; reflexivity].
  intros Hinv. specialize (Hinv bgm eq_refl eq_refl).
  vm_compute in Hinv. discriminate.
Qed.

(** Where the volume of the music goes out of step although the operation
    is one of those of the claim: a priority sound whose start is rejected,
    and a start of the music that an effect overtakes. *)
Lemma ducking_goes_out_of_step :
  (reachable withMusic
   ∧ ducking_consistent withMusic
   ∧ ¬ ducking_consistent
         (step (OpPlayAudio correct effectOptions deviceRejects) withMusic))
  ∧ (reachable musicOvertaken
     ∧ hasPriorityAudio musicOvertaken = true
     ∧ HTMLAudioElement.volume (deref bgm musicOvertaken) = normalize 0.5
     ∧ BackgroundMusicState.originalVolume (bgMusicRef musicOvertaken)
       = normalize 0.5
     ∧ ¬ ducking_consistent musicOvertaken).
Proof.
  split.
  - destruct ducking_lost_when_priority_start_fails
      as (Hr & Hc & _ & _ & _ & _ & Hne).
    by repeat split.
  - destruct ducking_lost_when_music_start_is_overtaken
      as (Hr & _ & Hp & _ & Hv & Hne & _).
    split; [exact Hr|]. split; [exact Hp|]. split; [exact Hv|].
    split; [vm_compute; reflexivity|exact Hne].
Qed.

(** ** The volumes written to the background track are accepted

    [duckBackgroundMusic], [restoreBackgroundMusic] and
    [setBackgroundMusicDucking] write a recorded volume, or a fifth of it, to
    the element.  As long as the volumes handed to the controller are
    numbers, the recorded volumes lie in [[0, 1]], so the setter of the
    element does not refuse them. *)

Lemma normalize_inUnit v : inUnit (normalize v).
Proof.
  unfold inUnit, normalize. split.
  - apply Q.le_max_l.
  - apply Q.max_lub; [lra|apply Q.le_min_l].
Qed.

Lemma normalize_accepted v : volumeAccepted v = true → (normalize v == v)%Q.
Proof.
  unfold volumeAccepted, normalize. intros H.
  apply andb_true_iff in H as [H0 H1].
  apply Qle_bool_iff in H0, H1.
  rewrite Q.min_r by done. by apply Q.max_r.
Qed.

Lemma inUnit_fifth x : inUnit x → inUnit (x * 0.2).
Proof. unfold inUnit. intros [H0 H1]. split; lra. Qed.

Lemma inUnit_accepted x : inUnit x → volumeAccepted x = true.
Proof.
  intros [H0 H1]. unfold volumeAccepted.
  apply andb_true_iff. split; by apply Qle_bool_iff.
Qed.

Lemma ducked_volumes_ok bg :
  inUnit (BackgroundMusicState.volume bg) →
  inUnit (BackgroundMusicState.originalVolume bg) →
  inUnit (BackgroundMusicState.volume (ducked bg))
  ∧ inUnit (BackgroundMusicState.originalVolume (ducked bg)).
Proof.
  intros Hv Ho. unfold ducked.
  destruct (BackgroundMusicState.audioRef bg); [|done].
  by destruct (_ && _).
Qed.

Lemma playAudio_bgMusicRef h o dev s :
  bgMusicRef (snd (playAudio h o dev s)) = bgMusicRef s
  ∨ bgMusicRef (snd (playAudio h o dev s)) = ducked (bgMusicRef s).
Proof.
  destruct (blocked o s) eqn:Hb.
  { left. unfold playAudio. rewrite Hb. by destruct (default false _). }
  destruct (audioContextOk dev) eqn:Hctx.
  - destruct (playAudio_admitted_refs h o dev s Hb Hctx) as (_ & -> & _).
    destruct (isPriority o); [by right|by left].
  - left. unfold playAudio. by rewrite Hb, Hctx.
Qed.

Lemma playAudio_volumes_ok h o dev s :
  volumes_ok s → volumes_ok (snd (playAudio h o dev s)).
Proof.
  intros [Hv Ho]. unfold volumes_ok.
  destruct (playAudio_bgMusicRef h o dev s) as [-> | ->]; [done|].
  by apply ducked_volumes_ok.
Qed.

Lemma enhancedOnEnd_volumes_ok cb priority dev s :
  volumes_ok s → volumes_ok (enhancedOnEnd cb priority dev s).
Proof.
  intros Hok. destruct priority.
  - rewrite enhancedOnEnd_priority.
    assert (Hmid : volumes_ok (restored cb s)).
    { unfold volumes_ok.
      by destruct (restored_refs cb s) as (_ & _ & -> & _). }
    destruct (priorityQueueRef s) as [|e rest]; [done|].
    by apply playAudio_volumes_ok.
  - unfold enhancedOnEnd. by destruct cb.
Qed.

Lemma step_volumes_ok op s : volumes_ok s → volumes_ok (step op s).
Proof.
  intros Hok. destruct op; cbn [step].
  - by apply playAudio_volumes_ok.
  - exact Hok.
  - exact Hok.
  - unfold volumes_ok, playBackgroundMusic. fold (musicStopped s).
    destruct promise.
    + cbn. split; [|apply normalize_inUnit].
      destruct (_ && _);
        [apply inUnit_fifth, normalize_inUnit|apply normalize_inUnit].
    + unfold musicStopped.
      by destruct (BackgroundMusicState.audioRef (bgMusicRef s)).
  - unfold volumes_ok, stopBackgroundMusic.
    by destruct (BackgroundMusicState.audioRef (bgMusicRef s)).
  - unfold volumes_ok, setBackgroundMusicVolume.
    destruct (BackgroundMusicState.audioRef (bgMusicRef s)); [|done].
    cbn. split; [|apply normalize_inUnit].
    destruct (_ && _);
      [apply inUnit_fifth, normalize_inUnit|apply normalize_inUnit].
  - unfold volumes_ok, setBackgroundMusicDucking.
    destruct (BackgroundMusicState.audioRef (bgMusicRef s)); [|done].
    by repeat case_match.
  - split; cbn; unfold inUnit; lra.
  - rewrite ended_handler.
    destruct (HTMLAudioElement.onended (deref audioRef s)) as [hd|]; [|done].
    by apply enhancedOnEnd_volumes_ok.
  - unfold volumes_ok, dispatchEvent. by destruct (HTMLAudioElement.listeners _).
  - unfold volumes_ok, playBackgroundMusicStart.
    by destruct (BackgroundMusicState.audioRef (bgMusicRef s)), promise.
  - unfold volumes_ok, playBackgroundMusicSettled. cbn.
    split; [|apply normalize_inUnit].
    destruct shouldDuck;
      [apply inUnit_fifth, normalize_inUnit|apply normalize_inUnit].
  - unfold volumes_ok, loadMetadata, dispatchEvent.
    by destruct (HTMLAudioElement.listeners _).
Qed.

Lemma reachable_volumes_ok s : reachable s → volumes_ok s.
Proof.
  induction 1 as [m mobile|op s _ IH].
  - split; cbn; unfold inUnit; lra.
  - by apply step_volumes_ok.
Qed.

(** In a reachable state, each volume that the controller computes for the
    background track is one the element accepts. *)
Lemma background_writes_accepted s :
  reachable s →
  volumeAccepted (BackgroundMusicState.volume (bgMusicRef s) * 0.2) = true
  ∧ volumeAccepted (BackgroundMusicState.originalVolume (bgMusicRef s)) = true
  ∧ volumeAccepted (BackgroundMusicState.originalVolume (bgMusicRef s) * 0.2)
    = true.
Proof.
  intros Hreach. destruct (reachable_volumes_ok s Hreach) as [Hv Ho].
  repeat split; apply inUnit_accepted; by try apply inUnit_fifth.
Qed.

(** Within the accepted range the volume handed to the element is the
    requested one, which is also its clamped value. *)
Lemma playAudio_volume_in_range h o dev s :
  blocked o s = false →
  audioContextOk dev = true →
  volumeAccepted (default 1%Q (AudioControlOptions.volume o)) = true →
  (HTMLAudioElement.volume (deref h (snd (playAudio h o dev s)))
   == normalize (default 1%Q (AudioControlOptions.volume o)))%Q.
Proof.
  intros Hb Hctx Hvol. rewrite playAudio_volume_written by done.
  symmetry. by apply normalize_accepted.
Qed.

(** * Further properties of the controller *)

(** ** Writing twice through the same reference *)

Lemma modify_modify h f g s :
  modify h f (modify h g s) = modify h (λ e, f (g e)) s.
Proof.
  unfold modify at 1. rewrite deref_modify.
  unfold modify. simpl. by rewrite insert_insert_eq.
Qed.

Lemma modify_ext h f g s :
  (∀ e, f e = g e) → modify h f s = modify h g s.
Proof. intros Hfg. unfold modify. by rewrite Hfg. Qed.

Lemma stopAudio_idempotent h s : stopAudio h (stopAudio h s) = stopAudio h s.
Proof.
  unfold stopAudio, cleanupEventListeners.
  rewrite !modify_modify. apply modify_ext. by intros [].
Qed.

(** ** [setVolume] *)

Lemma normalize_below v : (v < 0)%Q → (normalize v == 0)%Q.
Proof.
  intros Hv. unfold normalize.
  rewrite (Q.min_r 1 v) by lra. apply Q.max_l. lra.
Qed.

Lemma normalize_above v : (1 < v)%Q → (normalize v == 1)%Q.
Proof.
  intros Hv. unfold normalize.
  rewrite (Q.min_l 1 v) by lra. apply Q.max_r. lra.
Qed.

Lemma normalize_inside v : inUnit v → (normalize v == v)%Q.
Proof.
  intros [H0 H1]. unfold normalize.
  rewrite (Q.min_r 1 v) by done. by apply Q.max_r.
Qed.

(** X1. [setVolume] leaves its element with a volume in [[0, 1]]: the given
    value when it lies in that range, [0] for a value below, [1] for a value
    above.  It writes that one attribute of that one element: the other
    elements and the refs, [bgMusicRef] included, are as before. *)
Theorem setVolume_clamps h v s :
  inUnit (HTMLAudioElement.volume (deref h (setVolume h v s)))
  ∧ (inUnit v → (HTMLAudioElement.volume (deref h (setVolume h v s)) == v)%Q)
  ∧ ((v < 0)%Q → (HTMLAudioElement.volume (deref h (setVolume h v s)) == 0)%Q)
  ∧ ((1 < v)%Q → (HTMLAudioElement.volume (deref h (setVolume h v s)) == 1)%Q)
  ∧ audible (deref h (setVolume h v s)) = audible (deref h s)
  ∧ (∀ h', h ≠ h' → deref h' (setVolume h v s) = deref h' s)
  ∧ bgMusicRef (setVolume h v s) = bgMusicRef s
  ∧ previousAudioRef (setVolume h v s) = previousAudioRef s
  ∧ priorityAudioRef (setVolume h v s) = priorityAudioRef s
  ∧ priorityQueueRef (setVolume h v s) = priorityQueueRef s.
Proof.
  assert (Hv : HTMLAudioElement.volume (deref h (setVolume h v s)) = normalize v).
  { unfold setVolume. by rewrite deref_modify. }
  rewrite Hv.
  split; [apply normalize_inUnit|].
  split; [apply normalize_inside|].
  split; [apply normalize_below|].
  split; [apply normalize_above|].
  split; [unfold setVolume; by rewrite audible_modify by same_attr|].
  split; [intros h' Hne; unfold setVolume; by rewrite deref_modify_ne|].
  repeat split.
Qed.

Lemma setVolume_clamps_witness :
  (HTMLAudioElement.volume (deref bgm (setVolume bgm 1.5 duringEffect)) == 1)%Q
  ∧ (HTMLAudioElement.volume (deref bgm (setVolume bgm 0.3 duringEffect)) == 0.3)%Q
  ∧ deref correct (setVolume bgm 1.5 duringEffect) = deref correct duringEffect.
Proof.
  split.
  { destruct (setVolume_clamps bgm 1.5 duringEffect)
      as (_ & _ & _ & Habove & _). apply Habove. reflexivity. }
  split.
  { destruct (setVolume_clamps bgm 0.3 duringEffect)
      as (_ & Hin & _). apply Hin. split; discriminate. }
  destruct (setVolume_clamps bgm 1.5 duringEffect)
    as (_ & _ & _ & _ & _ & Hother & _).
  apply Hother. discriminate.
Defined.

(** ** What the answer of [playAudio] means *)

Lemma armed_element h o s :
  HTMLAudioElement.volume (deref h (armed h o s))
  = default 1%Q (AudioControlOptions.volume o)
  ∧ HTMLAudioElement.loop (deref h (armed h o s))
    = default false (AudioControlOptions.loop o)
  ∧ HTMLAudioElement.onended (deref h (armed h o s))
    = Some {| captured_onEnd := AudioControlOptions.onEnd o;
              captured_priority := isPriority o |}.
Proof.
  unfold armed. autorewrite with deref_set. rewrite !deref_modify.
  repeat split.
Qed.

Lemma play_keeps e :
  HTMLAudioElement.volume (HTMLAudioElement.play e) = HTMLAudioElement.volume e
  ∧ HTMLAudioElement.loop (HTMLAudioElement.play e) = HTMLAudioElement.loop e
  ∧ HTMLAudioElement.onended (HTMLAudioElement.play e)
    = HTMLAudioElement.onended e
  ∧ HTMLAudioElement.paused (HTMLAudioElement.play e) = false.
Proof.
  unfold HTMLAudioElement.play. repeat case_match; by destruct e.
Qed.

Lemma playAudio_false_unless h o dev s :
  blocked o s = true ∨ audioContextOk dev = false
  ∨ volumeAccepted (default 1%Q (AudioControlOptions.volume o)) = false
  ∨ playPromise dev = Rejects →
  fst (playAudio h o dev s) = false.
Proof.
  intros Hcase. unfold playAudio.
  destruct (blocked o s); [done|].
  destruct (audioContextOk dev); [|done].
  destruct (volumeAccepted _); [|done].
  destruct (playPromise dev); [|done].
  by destruct Hcase as [?|[?|[?|?]]].
Qed.

(** X2. [playAudio] answers [true] in one case only: the request is not
    blocked, the audio context comes up, the requested volume is one the
    element accepts, and the promise of [play()] resolves.  The element is
    then playing, with the requested volume and loop flag, it holds the
    previous slot, and its [onended] handler is the one of this call. *)
Theorem playAudio_true_iff h o dev s :
  (fst (playAudio h o dev s) = true ↔
     blocked o s = false ∧ audioContextOk dev = true
     ∧ volumeAccepted (default 1%Q (AudioControlOptions.volume o)) = true
     ∧ playPromise dev = Resolves)
  ∧ (fst (playAudio h o dev s) = true →
     HTMLAudioElement.paused (deref h (snd (playAudio h o dev s))) = false
     ∧ HTMLAudioElement.volume (deref h (snd (playAudio h o dev s)))
       = default 1%Q (AudioControlOptions.volume o)
     ∧ HTMLAudioElement.loop (deref h (snd (playAudio h o dev s)))
       = default false (AudioControlOptions.loop o)
     ∧ HTMLAudioElement.onended (deref h (snd (playAudio h o dev s)))
       = Some {| captured_onEnd := AudioControlOptions.onEnd o;
                 captured_priority := isPriority o |}
     ∧ previousAudioRef (snd (playAudio h o dev s)) = Some h).
Proof.
  assert (Hiff : fst (playAudio h o dev s) = true ↔
            blocked o s = false ∧ audioContextOk dev = true
            ∧ volumeAccepted (default 1%Q (AudioControlOptions.volume o)) = true
            ∧ playPromise dev = Resolves).
  { split.
    - intros Ht.
      destruct (blocked o s) eqn:Hb;
        [rewrite playAudio_false_unless in Ht by auto; discriminate|].
      destruct (audioContextOk dev) eqn:Hctx;
        [|rewrite playAudio_false_unless in Ht by auto; discriminate].
      destruct (volumeAccepted _) eqn:Hvol;
        [|rewrite playAudio_false_unless in Ht by auto; discriminate].
      destruct (playPromise dev) eqn:Hplay;
        [done|rewrite playAudio_false_unless in Ht by auto; discriminate].
    - intros (Hb & Hctx & Hvol & Hplay).
      by apply playAudio_started. }
  split; [exact Hiff|].
  intros Ht. apply Hiff in Ht as (Hb & Hctx & Hvol & Hplay).
  rewrite playAudio_admitted by done. rewrite Hvol, Hplay. cbn [snd].
  rewrite deref_modify.
  destruct (play_keeps (deref h (armed h o s))) as (-> & -> & -> & ->).
  destruct (armed_element h o s) as (-> & -> & ->).
  destruct (armed_refs h o s) as (Hprev & _).
  do 4 (split; [reflexivity|]). exact Hprev.
Qed.

Lemma playAudio_true_iff_witness :
  fst (playAudio correct effectOptions deviceOk withMusic) = true
  ∧ HTMLAudioElement.paused (deref correct duringEffect) = false
  ∧ previousAudioRef duringEffect = Some correct.
Proof.
  destruct (playAudio_true_iff correct effectOptions deviceOk withMusic)
    as (Hiff & Hthen).
  assert (Ht : fst (playAudio correct effectOptions deviceOk withMusic) = true).
  { apply Hiff. repeat split. }
  destruct (Hthen Ht) as (Hp & _ & _ & _ & Hprev).
  split; [exact Ht|]. split; [exact Hp|exact Hprev].
Defined.

(** ** One completion handler per element *)

Lemma playAudio_invoked h o dev s :
  invoked (snd (playAudio h o dev s)) = invoked s.
Proof.
  destruct (blocked o s) eqn:Hb.
  { unfold playAudio. rewrite Hb. by destruct (default false _). }
  destruct (audioContextOk dev) eqn:Hctx.
  - by destruct (playAudio_admitted_refs h o dev s Hb Hctx) as (_ & _ & _ & ->).
  - unfold playAudio. by rewrite Hb, Hctx.
Qed.

Lemma playAudio_installs_handler h o dev s :
  blocked o s = false →
  audioContextOk dev = true →
  volumeAccepted (default 1%Q (AudioControlOptions.volume o)) = true →
  HTMLAudioElement.onended (deref h (snd (playAudio h o dev s)))
  = Some {| captured_onEnd := AudioControlOptions.onEnd o;
            captured_priority := isPriority o |}.
Proof.
  intros Hb Hctx Hvol. rewrite playAudio_admitted by done. rewrite Hvol.
  destruct (armed_element h o s) as (_ & _ & Hh).
  destruct (playPromise dev); cbn [snd]; [|exact Hh].
  rewrite deref_modify.
  by destruct (play_keeps (deref h (armed h o s))) as (_ & _ & -> & _).
Qed.

Lemma enhancedOnEnd_invoked cb priority dev s :
  invoked (enhancedOnEnd cb priority dev s) = invoked s ++ option_list cb.
Proof.
  destruct priority.
  - rewrite enhancedOnEnd_priority.
    destruct (restored_refs cb s) as (_ & _ & _ & _ & Hi).
    destruct (priorityQueueRef s); [done|].
    by rewrite playAudio_invoked.
  - unfold enhancedOnEnd. destruct cb; simpl; [done|by rewrite app_nil_r].
Qed.

(** X3. An admitted [playAudio] whose volume is accepted replaces the
    [onended] handler of its element: when the element ends afterwards, the
    callback given in this call is run, once, and no callback given for the
    same element in an earlier call; with no callback in this call, none is
    run.  This holds whether or not the start succeeded. *)
Theorem replay_replaces_callback h o dev dev' s :
  blocked o s = false →
  audioContextOk dev = true →
  volumeAccepted (default 1%Q (AudioControlOptions.volume o)) = true →
  invoked (snd (playAudio h o dev s)) = invoked s
  ∧ invoked (ended h dev' (snd (playAudio h o dev s)))
    = invoked s ++ option_list (AudioControlOptions.onEnd o).
Proof.
  intros Hb Hctx Hvol. split; [apply playAudio_invoked|].
  rewrite ended_handler.
  rewrite (playAudio_installs_handler h o dev s Hb Hctx Hvol).
  cbn [captured_onEnd captured_priority].
  rewrite enhancedOnEnd_invoked.
  change (invoked (modify h HTMLAudioElement.finish ?x)) with (invoked x).
  by rewrite playAudio_invoked.
Qed.

Lemma replay_replaces_callback_witness :
  invoked
    (ended correct deviceOk
       (snd (playAudio correct (notifyOptions 8) deviceOk
               (snd (playAudio correct (notifyOptions 7) deviceRejects mounted)))))
  = [8].
Proof.
  destruct (replay_replaces_callback correct (notifyOptions 8) deviceOk deviceOk
              (snd (playAudio correct (notifyOptions 7) deviceRejects mounted))
              eq_refl eq_refl eq_refl) as (_ & ->).
  reflexivity.
Defined.

(** ** What the queue holds *)

Lemma step_queue op s :
  (∃ h o, blocked o s = true
          ∧ default false (AudioControlOptions.queueIfBlocked o) = true
          ∧ priorityQueueRef (step op s) = priorityQueueRef s ++ [Queued.mk h o])
  ∨ priorityQueueRef (step op s) = priorityQueueRef s
  ∨ priorityQueueRef (step op s) = tail (priorityQueueRef s)
  ∨ priorityQueueRef (step op s) = [].
Proof.
  destruct op; cbn [step].
  - rewrite playAudio_queue.
    destruct (blocked options s) eqn:Hb; [|by right; left].
    destruct (default false _) eqn:Hq; [|by right; left].
    left. by exists audioRef, options.
  - by right; left.
  - by right; left.
  - right; left. unfold playBackgroundMusic.
    by destruct (BackgroundMusicState.audioRef (bgMusicRef s)), promise.
  - right; left. unfold stopBackgroundMusic.
    by destruct (BackgroundMusicState.audioRef (bgMusicRef s)).
  - right; left. unfold setBackgroundMusicVolume.
    by destruct (BackgroundMusicState.audioRef (bgMusicRef s)).
  - right; left. unfold setBackgroundMusicDucking.
    destruct (BackgroundMusicState.audioRef (bgMusicRef s)); [|done].
    by repeat case_match.
  - by right; right; right.
  - rewrite ended_handler.
    destruct (HTMLAudioElement.onended (deref audioRef s)) as [hd|];
      [|by right; left].
    rewrite enhancedOnEnd_queue.
    destruct (captured_priority hd); [by right; right; left|by right; left].
  - right; left. unfold dispatchEvent.
    by destruct (HTMLAudioElement.listeners _).
  - right; left. unfold playBackgroundMusicStart.
    by destruct (BackgroundMusicState.audioRef (bgMusicRef s)), promise.
  - by right; left.
  - right; left. unfold loadMetadata, dispatchEvent.
    by destruct (HTMLAudioElement.listeners _).
Qed.

Lemma blocked_as_blocked h o s :
  blocked o s = true →
  default false (AudioControlOptions.queueIfBlocked o) = true →
  queued_as_blocked (Queued.mk h o).
Proof.
  intros Hb Hq. unfold queued_as_blocked. cbn [Queued.options].
  split; [by apply (blocked_not_priority o s)|]. split; [|done].
  unfold blocked in Hb.
  apply andb_true_iff in Hb as [Hb _]. apply andb_true_iff in Hb as [Hb _].
  by apply negb_true_iff in Hb.
Qed.

(** X4. In every state the controller reaches, each queued request is one
    that was blocked: neither [priority] nor [ignorePriority] is set in its
    options, and [queueIfBlocked] is.  A priority request is never found in
    the queue. *)
Theorem queue_holds_blocked_requests s :
  reachable s → Forall queued_as_blocked (priorityQueueRef s).
Proof.
  induction 1 as [m mobile|op s _ IH]; [apply Forall_nil_2|].
  destruct (step_queue op s) as [(h & o & Hb & Hq & ->)|[->|[->| ->]]].
  - apply Forall_app. split; [done|].
    apply Forall_singleton. by apply (blocked_as_blocked h o s).
  - done.
  - destruct (priorityQueueRef s); [done|]. by apply Forall_cons_1 in IH as [_ ?].
  - apply Forall_nil_2.
Qed.

Lemma queue_holds_blocked_requests_witness :
  Forall queued_as_blocked
    [Queued.mk wrong queueOptions; Queued.mk gameover queueOptions].
Proof.
  exact (queue_holds_blocked_requests twoQueued reachable_twoQueued).
Defined.

Lemma enhancedOnEnd_ordinary cb dev s :
  enhancedOnEnd cb false dev s = runCallback cb s.
Proof. reflexivity. Qed.

Lemma runCallback_refs cb s :
  previousAudioRef (runCallback cb s) = previousAudioRef s
  ∧ priorityAudioRef (runCallback cb s) = priorityAudioRef s
  ∧ bgMusicRef (runCallback cb s) = bgMusicRef s
  ∧ priorityQueueRef (runCallback cb s) = priorityQueueRef s
  ∧ heap (runCallback cb s) = heap s.
Proof. by destruct cb. Qed.

(** X5. A queued request is played without priority, so its own end does
    not look at the queue.  In a reachable state whose queue is
    [nextAudio :: rest], when a priority sound ends and [nextAudio] is
    started, the handler installed on its element is an ordinary one; when
    that element ends in turn, the callback of the request is run, the queue
    is still [rest], the priority slot is still empty and no other element
    is touched: the remaining requests wait for the end of another priority
    sound. *)
Theorem queued_sound_end_starts_nothing h cb dev dev' s nextAudio rest :
  reachable s →
  HTMLAudioElement.onended (deref h s)
  = Some {| captured_onEnd := cb; captured_priority := true |} →
  priorityQueueRef s = nextAudio :: rest →
  audioContextOk dev = true →
  volumeAccepted
    (default 1%Q (AudioControlOptions.volume (Queued.options nextAudio))) = true →
  HTMLAudioElement.onended (deref (Queued.audioRef nextAudio) (ended h dev s))
  = Some {| captured_onEnd := AudioControlOptions.onEnd (Queued.options nextAudio);
            captured_priority := false |}
  ∧ priorityQueueRef (ended (Queued.audioRef nextAudio) dev' (ended h dev s))
    = rest
  ∧ priorityAudioRef (ended (Queued.audioRef nextAudio) dev' (ended h dev s))
    = None
  ∧ invoked (ended (Queued.audioRef nextAudio) dev' (ended h dev s))
    = invoked s ++ option_list cb
      ++ option_list (AudioControlOptions.onEnd (Queued.options nextAudio))
  ∧ ∀ h', Queued.audioRef nextAudio ≠ h' →
          deref h' (ended (Queued.audioRef nextAudio) dev' (ended h dev s))
          = deref h' (ended h dev s).
Proof.
  intros Hreach Hh Hq Hctx Hvol.
  apply reachable_queue_ok in Hreach. unfold queue_ok in Hreach.
  rewrite Hq in Hreach. apply Forall_cons in Hreach as [Hfront _].
  set (next := AudioControlOptions.withIgnorePriority (Queued.options nextAudio)).
  set (mid := set_priorityQueueRef rest (restored cb (finished h s))).
  assert (He : ended h dev s = snd (playAudio (Queued.audioRef nextAudio) next dev mid)).
  { rewrite (ended_priority h cb dev s Hh), Hq. reflexivity. }
  assert (Hord : isPriority next = false) by exact Hfront.
  assert (Hhandler :
            HTMLAudioElement.onended (deref (Queued.audioRef nextAudio) (ended h dev s))
            = Some {| captured_onEnd := AudioControlOptions.onEnd (Queued.options nextAudio);
                      captured_priority := false |}).
  { rewrite He.
    rewrite (playAudio_installs_handler (Queued.audioRef nextAudio) next dev mid
               eq_refl Hctx Hvol).
    by rewrite Hord. }
  split; [exact Hhandler|].
  rewrite (ended_handler (Queued.audioRef nextAudio)), Hhandler.
  cbn [captured_onEnd captured_priority].
  destruct (restored_refs cb (finished h s)) as (_ & R2 & _ & _ & R5).
  destruct (playAudio_ordinary_refs (Queued.audioRef nextAudio) next dev mid Hord)
    as (P1 & _ & P3).
  split.
  { rewrite enhancedOnEnd_queue.
    change (priorityQueueRef (modify ?a ?f ?x)) with (priorityQueueRef x).
    rewrite He, playAudio_queue. reflexivity. }
  split.
  { rewrite enhancedOnEnd_ordinary.
    destruct (runCallback_refs
                (AudioControlOptions.onEnd (Queued.options nextAudio))
                (modify (Queued.audioRef nextAudio) HTMLAudioElement.finish
                   (ended h dev s))) as (_ & -> & _).
    change (priorityAudioRef (modify ?a ?f ?x)) with (priorityAudioRef x).
    rewrite He, P1. exact R2. }
  split.
  { rewrite enhancedOnEnd_invoked.
    change (invoked (modify ?a ?f ?x)) with (invoked x).
    rewrite He, P3. subst mid. cbn [invoked set_priorityQueueRef].
    rewrite R5. by rewrite <- app_assoc. }
  intros h' Hne. rewrite enhancedOnEnd_ordinary.
  unfold deref at 1.
  destruct (runCallback_refs
              (AudioControlOptions.onEnd (Queued.options nextAudio))
              (modify (Queued.audioRef nextAudio) HTMLAudioElement.finish
                 (ended h dev s))) as (_ & _ & _ & _ & ->).
  fold (deref h' (modify (Queued.audioRef nextAudio) HTMLAudioElement.finish
                    (ended h dev s))).
  by rewrite deref_modify_ne.
Qed.

Lemma queued_sound_end_starts_nothing_witness :
  priorityQueueRef (ended wrong deviceOk (ended correct deviceOk twoQueued))
  = [Queued.mk gameover queueOptions]
  ∧ deref gameover (ended wrong deviceOk (ended correct deviceOk twoQueued))
    = deref gameover (ended correct deviceOk twoQueued).
Proof.
  assert (Hh : HTMLAudioElement.onended (deref correct twoQueued)
               = Some {| captured_onEnd := None; captured_priority := true |})
    by (vm_compute; reflexivity).
  assert (Hq : priorityQueueRef twoQueued
               = [Queued.mk wrong queueOptions; Queued.mk gameover queueOptions])
    by (vm_compute; reflexivity).
  destruct (queued_sound_end_starts_nothing correct None deviceOk deviceOk
              twoQueued _ _ reachable_twoQueued Hh Hq eq_refl eq_refl)
    as (_ & Hrest & _ & _ & Hother).
  split; [exact Hrest|]. apply Hother. discriminate.
Defined.

(** ** Ducking and restoring, there and back *)

(** X6. Ducking records the recorded [volume] as [originalVolume], and the
    end of the priority sound writes that value back to the element.  In a
    reachable state with a tracked, playing background track [b] and ducking
    enabled, an admitted priority request on another element brings [b] to
    a fifth of the recorded [volume]; when the sound ends (the request at
    the front of the queue not being for [b]), [b] is at the recorded
    [volume] again.  What [originalVolume] was before plays no part: it is
    overwritten, so a track whose recorded [volume] is a ducked one stays at
    that volume. *)
Theorem duck_restore_round_trip h o dev dev' s b :
  reachable s →
  BackgroundMusicState.audioRef (bgMusicRef s) = Some b →
  BackgroundMusicState.isPlaying (bgMusicRef s) = true →
  BackgroundMusicState.enableDucking (bgMusicRef s) = true →
  isPriority o = true →
  audioContextOk dev = true →
  volumeAccepted (default 1%Q (AudioControlOptions.volume o)) = true →
  h ≠ b →
  (∀ entry, head (priorityQueueRef s) = Some entry → Queued.audioRef entry ≠ b) →
  HTMLAudioElement.volume (deref b (snd (playAudio h o dev s)))
  = (BackgroundMusicState.volume (bgMusicRef s) * 0.2)%Q
  ∧ BackgroundMusicState.originalVolume (bgMusicRef (snd (playAudio h o dev s)))
    = BackgroundMusicState.volume (bgMusicRef s)
  ∧ HTMLAudioElement.volume (deref b (ended h dev' (snd (playAudio h o dev s))))
    = BackgroundMusicState.volume (bgMusicRef s)
  ∧ BackgroundMusicState.originalVolume
      (bgMusicRef (ended h dev' (snd (playAudio h o dev s))))
    = BackgroundMusicState.volume (bgMusicRef s)
  ∧ BackgroundMusicState.volume
      (bgMusicRef (ended h dev' (snd (playAudio h o dev s))))
    = BackgroundMusicState.volume (bgMusicRef s).
Proof.
  intros Hreach Hb Hplaying Hduck Hp Hctx Hvol Hne Hfront.
  pose proof (blocked_priority o s Hp) as Hblocked.
  destruct (playAudio_admitted_refs h o dev s Hblocked Hctx) as (_ & Hbg & Hq & _).
  rewrite Hp in Hbg.
  destruct (ducked_fields (bgMusicRef s)) as (F1 & F2 & F3 & F4).
  pose proof (ducked_originalVolume (bgMusicRef s) b Hb) as F5.
  rewrite Hplaying, Hduck in F5. cbn [andb] in F5.
  assert (Hv1 : HTMLAudioElement.volume (deref b (snd (playAudio h o dev s)))
                = (BackgroundMusicState.volume (bgMusicRef s) * 0.2)%Q).
  { rewrite playAudio_admitted_other by done.
    rewrite prepared_volume, Hp.
    apply takePriority_volume_track; [done|]. by rewrite Hplaying, Hduck. }
  split; [exact Hv1|].
  split; [by rewrite Hbg|].
  pose proof (playAudio_installs_handler h o dev s Hblocked Hctx Hvol) as Hh.
  rewrite Hp in Hh.
  assert (Hqok : queue_ok (snd (playAudio h o dev s)))
    by (by apply playAudio_queue_ok, reachable_queue_ok).
  destruct (ended_priority_refs h (AudioControlOptions.onEnd o) dev'
              (snd (playAudio h o dev s)) Hqok Hh) as (_ & Hbg' & Hvol').
  rewrite Hbg', Hbg, F4, F5.
  split; [|done].
  rewrite Hvol' by (rewrite Hq; exact Hfront).
  rewrite restored_finished_volume with (b := b);
    rewrite Hbg; [exact F5|by rewrite F1|by rewrite F2|by rewrite F3].
Qed.

Lemma duck_restore_round_trip_witness :
  HTMLAudioElement.volume (deref bgm (snd (playAudio correct effectOptions deviceOk withMusic)))
  = (0.8 * 0.2)%Q
  ∧ HTMLAudioElement.volume
      (deref bgm (ended correct deviceOk
                    (snd (playAudio correct effectOptions deviceOk withMusic))))
    = 0.8%Q.
Proof.
  destruct (duck_restore_round_trip correct effectOptions deviceOk deviceOk
              withMusic bgm reachable_withMusic eq_refl eq_refl eq_refl
              eq_refl eq_refl eq_refl)
    as (H1 & _ & H2 & _).
  - discriminate.
  - intros entry Hentry. discriminate.
  - split; [exact H1|exact H2].
Defined.

(** ** Stopping the music twice; setting twice *)

Lemma stopAudio_set_bgMusicRef h bg s :
  stopAudio h (set_bgMusicRef bg s) = set_bgMusicRef bg (stopAudio h s).
Proof. reflexivity. Qed.

Lemma stopBackgroundMusic_tracked s b :
  BackgroundMusicState.audioRef (bgMusicRef s) = Some b →
  stopBackgroundMusic s
  = set_bgMusicRef
      (BackgroundMusicState.mk (Some b)
         (BackgroundMusicState.volume (bgMusicRef s)) false
         (BackgroundMusicState.originalVolume (bgMusicRef s))
         (BackgroundMusicState.enableDucking (bgMusicRef s)))
      (stopAudio b s).
Proof.
  intros Hb. unfold stopBackgroundMusic. rewrite Hb.
  autorewrite with refs. by rewrite Hb.
Qed.

(** X7. [stopBackgroundMusic] is idempotent: a second call changes nothing,
    and with no track tracked the first call changes nothing either. *)
Theorem stopBackgroundMusic_idempotent s :
  stopBackgroundMusic (stopBackgroundMusic s) = stopBackgroundMusic s
  ∧ (BackgroundMusicState.audioRef (bgMusicRef s) = None →
     stopBackgroundMusic s = s).
Proof.
  split.
  - destruct (BackgroundMusicState.audioRef (bgMusicRef s)) as [b|] eqn:Hb.
    + rewrite (stopBackgroundMusic_tracked s b Hb).
      set (bg1 := BackgroundMusicState.mk (Some b) _ false _ _).
      rewrite (stopBackgroundMusic_tracked (set_bgMusicRef bg1 (stopAudio b s)) b
                 eq_refl).
      cbn [bgMusicRef set_bgMusicRef BackgroundMusicState.volume
           BackgroundMusicState.originalVolume BackgroundMusicState.enableDucking].
      rewrite stopAudio_set_bgMusicRef, stopAudio_idempotent.
      reflexivity.
    + assert (Hs : stopBackgroundMusic s = s)
        by (unfold stopBackgroundMusic; by rewrite Hb).
      by rewrite !Hs.
  - intros Hb. unfold stopBackgroundMusic. by rewrite Hb.
Qed.

Lemma stopBackgroundMusic_idempotent_witness :
  stopBackgroundMusic mounted = mounted.
Proof.
  destruct (stopBackgroundMusic_idempotent mounted) as (_ & H).
  apply H. reflexivity.
Defined.

Lemma modify_set_bgMusicRef h f bg s :
  modify h f (set_bgMusicRef bg s) = set_bgMusicRef bg (modify h f s).
Proof. reflexivity. Qed.

Lemma set_bgMusicRef_twice bg bg' s :
  set_bgMusicRef bg (set_bgMusicRef bg' s) = set_bgMusicRef bg s.
Proof. reflexivity. Qed.

Lemma set_volume_twice x y e :
  HTMLAudioElement.set_volume x (HTMLAudioElement.set_volume y e)
  = HTMLAudioElement.set_volume x e.
Proof. by destruct e. Qed.

Lemma hasPriorityAudio_set_volume b x bg s :
  hasPriorityAudio (modify b (HTMLAudioElement.set_volume x) (set_bgMusicRef bg s))
  = hasPriorityAudio s.
Proof. by rewrite hasPriorityAudio_modify by same_attr. Qed.

Lemma setBackgroundMusicVolume_tracked v s b :
  BackgroundMusicState.audioRef (bgMusicRef s) = Some b →
  setBackgroundMusicVolume v s
  = modify b
      (HTMLAudioElement.set_volume
         (if hasPriorityAudio s && BackgroundMusicState.enableDucking (bgMusicRef s)
          then (normalize v * 0.2)%Q else normalize v))
      (set_bgMusicRef
         (BackgroundMusicState.mk (Some b)
            (if hasPriorityAudio s
                && BackgroundMusicState.enableDucking (bgMusicRef s)
             then (normalize v * 0.2)%Q else normalize v)
            (BackgroundMusicState.isPlaying (bgMusicRef s)) (normalize v)
            (BackgroundMusicState.enableDucking (bgMusicRef s))) s).
Proof. intros Hb. unfold setBackgroundMusicVolume. by rewrite Hb. Qed.

Lemma setBackgroundMusicDucking_tracked e s b :
  BackgroundMusicState.audioRef (bgMusicRef s) = Some b →
  setBackgroundMusicDucking e s
  = if hasPriorityAudio s then
      modify b
        (HTMLAudioElement.set_volume
           (if e then (BackgroundMusicState.originalVolume (bgMusicRef s) * 0.2)%Q
            else BackgroundMusicState.originalVolume (bgMusicRef s)))
        (set_bgMusicRef
           (BackgroundMusicState.mk (Some b)
              (BackgroundMusicState.volume (bgMusicRef s))
              (BackgroundMusicState.isPlaying (bgMusicRef s))
              (BackgroundMusicState.originalVolume (bgMusicRef s)) e) s)
    else
      set_bgMusicRef
        (BackgroundMusicState.mk (Some b)
           (BackgroundMusicState.volume (bgMusicRef s))
           (BackgroundMusicState.isPlaying (bgMusicRef s))
           (BackgroundMusicState.originalVolume (bgMusicRef s)) e) s.
Proof.
  intros Hb. unfold setBackgroundMusicDucking. rewrite Hb.
  change (hasPriorityAudio (set_bgMusicRef ?bg ?x)) with (hasPriorityAudio x).
  by destruct e, (hasPriorityAudio s).
Qed.

(** X8. The two setters of the background music overwrite what the same
    setter wrote before: [setBackgroundMusicVolume v2] after
    [setBackgroundMusicVolume v1] leaves the state that
    [setBackgroundMusicVolume v2] alone leaves, and likewise for
    [setBackgroundMusicDucking]. *)
Theorem background_setters_last_write_wins s :
  (∀ v1 v2, setBackgroundMusicVolume v2 (setBackgroundMusicVolume v1 s)
            = setBackgroundMusicVolume v2 s)
  ∧ (∀ e1 e2, setBackgroundMusicDucking e2 (setBackgroundMusicDucking e1 s)
              = setBackgroundMusicDucking e2 s).
Proof.
  destruct (BackgroundMusicState.audioRef (bgMusicRef s)) as [b|] eqn:Hb.
  - split.
    + intros v1 v2.
      rewrite (setBackgroundMusicVolume_tracked v2 s b Hb).
      rewrite (setBackgroundMusicVolume_tracked v1 s b Hb).
      rewrite setBackgroundMusicVolume_tracked with (b := b) by reflexivity.
      rewrite hasPriorityAudio_set_volume.
      change (bgMusicRef (modify ?h ?f ?x)) with (bgMusicRef x).
      change (bgMusicRef (set_bgMusicRef ?bg ?x)) with bg.
      cbn [BackgroundMusicState.enableDucking BackgroundMusicState.isPlaying].
      rewrite <- !modify_set_bgMusicRef, set_bgMusicRef_twice.
      rewrite modify_modify. apply modify_ext. intros e. apply set_volume_twice.
    + intros e1 e2.
      rewrite (setBackgroundMusicDucking_tracked e2 s b Hb).
      rewrite (setBackgroundMusicDucking_tracked e1 s b Hb).
      destruct (hasPriorityAudio s) eqn:Hp.
      * rewrite setBackgroundMusicDucking_tracked with (b := b) by reflexivity.
        rewrite hasPriorityAudio_set_volume, Hp.
        change (bgMusicRef (modify ?h ?f ?x)) with (bgMusicRef x).
        change (bgMusicRef (set_bgMusicRef ?bg ?x)) with bg.
        cbn [BackgroundMusicState.volume BackgroundMusicState.isPlaying
             BackgroundMusicState.originalVolume].
        rewrite <- !modify_set_bgMusicRef, set_bgMusicRef_twice.
        rewrite modify_modify. apply modify_ext. intros e. apply set_volume_twice.
      * rewrite setBackgroundMusicDucking_tracked with (b := b) by reflexivity.
        change (hasPriorityAudio (set_bgMusicRef ?bg ?x)) with (hasPriorityAudio x).
        rewrite Hp. reflexivity.
  - split; intros; unfold setBackgroundMusicVolume, setBackgroundMusicDucking;
      by rewrite !Hb.
Qed.

(** ** The tracking listeners stay *)

Lemma listeners_modify h h' f s :
  (∀ e, HTMLAudioElement.listeners e ≤ HTMLAudioElement.listeners (f e)) →
  HTMLAudioElement.listeners (deref h' s)
  ≤ HTMLAudioElement.listeners (deref h' (modify h f s)).
Proof.
  intros Hf. destruct (decide (h = h')) as [->|Hne].
  - rewrite deref_modify. apply Hf.
  - by rewrite deref_modify_ne.
Qed.

(** Side conditions of the form "[f] removes no listener". *)
Ltac keeps_listeners :=
  let e := fresh "e" in
  intros e;
  unfold HTMLAudioElement.play, HTMLAudioElement.pause, HTMLAudioElement.finish;
  repeat case_match; destruct e; simpl; lia.

Lemma listeners_stopAudio h h' s :
  HTMLAudioElement.listeners (deref h' s)
  ≤ HTMLAudioElement.listeners (deref h' (stopAudio h s)).
Proof.
  unfold stopAudio, cleanupEventListeners.
  etrans; [|apply listeners_modify; keeps_listeners].
  apply listeners_modify; keeps_listeners.
Qed.

Lemma listeners_configureAudio h h' o s :
  HTMLAudioElement.listeners (deref h' s)
  ≤ HTMLAudioElement.listeners (deref h' (configureAudio h o s)).
Proof.
  unfold configureAudio, cleanupEventListeners.
  etrans; [|apply listeners_modify; keeps_listeners].
  destruct (truthyRate _).
  - etrans; [|apply listeners_modify; keeps_listeners].
    apply listeners_modify; keeps_listeners.
  - apply listeners_modify; keeps_listeners.
Qed.

Lemma listeners_configureAudio_attached h o s :
  0 < HTMLAudioElement.listeners (deref h (configureAudio h o s)).
Proof.
  unfold configureAudio. rewrite deref_modify.
  cbn [HTMLAudioElement.listeners HTMLAudioElement.addEventListeners]. lia.
Qed.

Lemma listeners_duckBackgroundMusic h s :
  HTMLAudioElement.listeners (deref h s)
  ≤ HTMLAudioElement.listeners (deref h (duckBackgroundMusic s)).
Proof.
  unfold duckBackgroundMusic.
  destruct (BackgroundMusicState.audioRef _); [|done].
  destruct (_ && _); [|done].
  autorewrite with deref_set.
  etrans; [|apply listeners_modify; keeps_listeners]. done.
Qed.

Lemma listeners_restoreBackgroundMusic h s :
  HTMLAudioElement.listeners (deref h s)
  ≤ HTMLAudioElement.listeners (deref h (restoreBackgroundMusic s)).
Proof.
  unfold restoreBackgroundMusic.
  destruct (BackgroundMusicState.audioRef _); [|done].
  destruct (_ && _); [|done].
  apply listeners_modify; keeps_listeners.
Qed.

Lemma listeners_prepared h o s h' :
  HTMLAudioElement.listeners (deref h' s)
  ≤ HTMLAudioElement.listeners (deref h' (prepared h o s)).
Proof.
  unfold prepared.
  etrans; [|apply listeners_configureAudio].
  unfold stopPreviousAudio.
  assert (H1 : HTMLAudioElement.listeners (deref h' s)
               ≤ HTMLAudioElement.listeners
                   (deref h' (if isPriority o then takePriority h s else s))).
  { destruct (isPriority o); [|done]. unfold takePriority.
    etrans; [|apply listeners_duckBackgroundMusic].
    autorewrite with deref_set.
    destruct (priorityAudioRef s); [apply listeners_stopAudio|done]. }
  etrans; [exact H1|].
  destruct (previousAudioRef _); [|done].
  destruct (default true _); [apply listeners_stopAudio|done].
Qed.

Lemma listeners_armed h o s h' :
  HTMLAudioElement.listeners (deref h' (prepared h o s))
  ≤ HTMLAudioElement.listeners (deref h' (armed h o s)).
Proof.
  unfold armed. autorewrite with deref_set.
  etrans; [|apply listeners_modify; keeps_listeners].
  etrans; [|apply listeners_modify; keeps_listeners].
  apply listeners_modify; keeps_listeners.
Qed.

Lemma listeners_playAudio h o dev s h' :
  HTMLAudioElement.listeners (deref h' s)
  ≤ HTMLAudioElement.listeners (deref h' (snd (playAudio h o dev s))).
Proof.
  destruct (blocked o s) eqn:Hb.
  { unfold playAudio. rewrite Hb. by destruct (default false _). }
  destruct (audioContextOk dev) eqn:Hctx;
    [|unfold playAudio; by rewrite Hb, Hctx].
  rewrite playAudio_admitted by done.
  pose proof (listeners_prepared h o s h') as H1.
  pose proof (listeners_armed h o s h') as H2.
  destruct (volumeAccepted _); [|done].
  destruct (playPromise dev); cbn [snd]; [|lia].
  etrans; [|apply listeners_modify; keeps_listeners]. lia.
Qed.

Lemma listeners_playAudio_attached h o dev s :
  blocked o s = false →
  audioContextOk dev = true →
  0 < HTMLAudioElement.listeners (deref h (snd (playAudio h o dev s))).
Proof.
  intros Hb Hctx. rewrite playAudio_admitted by done.
  assert (H1 : 0 < HTMLAudioElement.listeners (deref h (prepared h o s)))
    by apply listeners_configureAudio_attached.
  pose proof (listeners_armed h o s h) as H2.
  destruct (volumeAccepted _); [|done].
  destruct (playPromise dev); cbn [snd]; [|lia].
  eapply Nat.lt_le_trans; [|apply listeners_modify; keeps_listeners]. lia.
Qed.

Lemma deref_dispatchEvent ev audioRef s h :
  deref h (dispatchEvent ev audioRef s) = deref h s.
Proof.
  unfold dispatchEvent. by destruct (HTMLAudioElement.listeners _).
Qed.

Lemma listeners_step op s h :
  HTMLAudioElement.listeners (deref h s)
  ≤ HTMLAudioElement.listeners (deref h (step op s)).
Proof.
  destruct op; cbn [step].
  - apply listeners_playAudio.
  - apply listeners_stopAudio.
  - unfold setVolume. apply listeners_modify; keeps_listeners.
  - unfold playBackgroundMusic. fold (musicStopped s).
    assert (H0 : HTMLAudioElement.listeners (deref h s)
                 ≤ HTMLAudioElement.listeners (deref h (musicStopped s))).
    { unfold musicStopped.
      destruct (BackgroundMusicState.audioRef _); [apply listeners_stopAudio|done]. }
    etrans; [exact H0|].
    destruct promise; autorewrite with deref_set;
      repeat (etrans; [|apply listeners_modify; keeps_listeners]); done.
  - unfold stopBackgroundMusic.
    destruct (BackgroundMusicState.audioRef _); [|done].
    autorewrite with deref_set. apply listeners_stopAudio.
  - unfold setBackgroundMusicVolume.
    destruct (BackgroundMusicState.audioRef _); [|done].
    etrans; [|apply listeners_modify; keeps_listeners]. done.
  - unfold setBackgroundMusicDucking.
    destruct (BackgroundMusicState.audioRef _); [|done].
    repeat case_match; try done;
      (etrans; [|apply listeners_modify; keeps_listeners]); done.
  - unfold deref. rewrite cleanup_heap. cbv zeta.
    repeat match goal with
           | |- context [match ?x with Some _ => _ | None => _ end] => destruct x
           end;
      repeat match goal with
             | |- _ ≤ HTMLAudioElement.listeners (heap ?x !!! ?p) =>
                 change (heap x !!! p) with (deref p x)
             | |- _ ≤ HTMLAudioElement.listeners (deref _ (stopAudio _ _)) =>
                 etrans; [|apply listeners_stopAudio]
             end; done.
  - rewrite ended_handler.
    assert (H0 : HTMLAudioElement.listeners (deref h s)
                 ≤ HTMLAudioElement.listeners
                     (deref h (modify audioRef HTMLAudioElement.finish s)))
      by (apply listeners_modify; keeps_listeners).
    destruct (HTMLAudioElement.onended (deref audioRef s)) as [hd|]; [|done].
    etrans; [exact H0|].
    destruct (captured_priority hd).
    + rewrite enhancedOnEnd_priority.
      assert (H1 : ∀ x, HTMLAudioElement.listeners (deref h x)
                        ≤ HTMLAudioElement.listeners
                            (deref h (restored (captured_onEnd hd) x))).
      { intros x. unfold restored.
        etrans; [|apply listeners_restoreBackgroundMusic].
        by destruct (captured_onEnd hd). }
      destruct (priorityQueueRef _); [apply H1|].
      etrans; [|apply listeners_playAudio].
      autorewrite with deref_set. apply H1.
    + rewrite enhancedOnEnd_ordinary. by destruct (captured_onEnd hd).
  - unfold dispatchEvent.
    destruct (HTMLAudioElement.listeners (deref audioRef s)) eqn:Hl;
      autorewrite with deref_set; done.
  - unfold playBackgroundMusicStart. fold (musicStopped s). cbn [snd].
    assert (H0 : HTMLAudioElement.listeners (deref h s)
                 ≤ HTMLAudioElement.listeners (deref h (musicStopped s))).
    { unfold musicStopped.
      destruct (BackgroundMusicState.audioRef _); [apply listeners_stopAudio|done]. }
    etrans; [exact H0|].
    destruct promise;
      repeat (etrans; [|apply listeners_modify; keeps_listeners]); done.
  - unfold playBackgroundMusicSettled. by autorewrite with deref_set.
  - unfold loadMetadata.
    rewrite deref_dispatchEvent.
    apply listeners_modify; keeps_listeners.
Qed.

Lemma listeners_run ops s h :
  HTMLAudioElement.listeners (deref h s)
  ≤ HTMLAudioElement.listeners (deref h (run ops s)).
Proof.
  revert s. induction ops as [|op ops IH]; intros s; [done|].
  etrans; [apply (listeners_step op)|apply IH].
Qed.

(** X9. The listeners that [configureAudio] attaches are never detached
    ([cleanupEventListeners] removes nothing).  Once an element has gone
    through an admitted [playAudio], whatever becomes of the start, its
    events keep rewriting the metadata after any further operations,
    [stopAudio] and [cleanup] included: a [play] event sets [isPlaying], a
    [timeupdate] event copies the position of the element. *)
Theorem listeners_never_detached h o dev s ops :
  blocked o s = false →
  audioContextOk dev = true →
  0 < HTMLAudioElement.listeners
        (deref h (run ops (snd (playAudio h o dev s))))
  ∧ AudioMetadata.isPlaying
      (getAudioMetadata
         (dispatchEvent play h (run ops (snd (playAudio h o dev s))))) = true
  ∧ AudioMetadata.currentTime
      (getAudioMetadata
         (dispatchEvent timeupdate h (run ops (snd (playAudio h o dev s)))))
    = HTMLAudioElement.currentTime
        (deref h (run ops (snd (playAudio h o dev s)))).
Proof.
  intros Hb Hctx.
  assert (Hl : 0 < HTMLAudioElement.listeners
                     (deref h (run ops (snd (playAudio h o dev s))))).
  { eapply Nat.lt_le_trans; [by apply listeners_playAudio_attached|].
    apply listeners_run. }
  split; [exact Hl|].
  unfold getAudioMetadata, dispatchEvent.
  destruct (HTMLAudioElement.listeners _); [lia|]. by split.
Qed.

Lemma listeners_never_detached_witness :
  getAudioMetadata (run [OpCleanup] duringEffect) = initialMetadata
  ∧ AudioMetadata.isPlaying
      (getAudioMetadata (dispatchEvent play correct (run [OpCleanup] duringEffect)))
    = true.
Proof.
  split; [reflexivity|].
  destruct (listeners_never_detached correct effectOptions deviceOk withMusic
              [OpCleanup] eq_refl eq_refl) as (_ & H & _).
  exact H.
Defined.

(** ** Music started while a priority sound is heard *)

Lemma musicStopped_refs s :
  previousAudioRef (musicStopped s) = previousAudioRef s
  ∧ priorityAudioRef (musicStopped s) = priorityAudioRef s
  ∧ bgMusicRef (musicStopped s) = bgMusicRef s
  ∧ priorityQueueRef (musicStopped s) = priorityQueueRef s.
Proof.
  unfold musicStopped.
  by destruct (BackgroundMusicState.audioRef (bgMusicRef s)).
Qed.


(** What a [playBackgroundMusic] that starts leaves behind. *)
Lemma playBackgroundMusic_resolved h v d s :
  bgMusicRef (playBackgroundMusic h v d Resolves s)
  = BackgroundMusicState.mk (Some h)
      (if hasPriorityAudio (modify h (HTMLAudioElement.set_loop true) (musicStopped s))
          && default true d
       then (normalize (default 1%Q v) * 0.2)%Q else normalize (default 1%Q v))
      true (normalize (default 1%Q v)) (default true d)
  ∧ HTMLAudioElement.volume (deref h (playBackgroundMusic h v d Resolves s))
    = BackgroundMusicState.volume
        (bgMusicRef (playBackgroundMusic h v d Resolves s))
  ∧ HTMLAudioElement.loop (deref h (playBackgroundMusic h v d Resolves s)) = true
  ∧ HTMLAudioElement.paused (deref h (playBackgroundMusic h v d Resolves s))
    = false
  ∧ previousAudioRef (playBackgroundMusic h v d Resolves s) = previousAudioRef s
  ∧ priorityAudioRef (playBackgroundMusic h v d Resolves s) = priorityAudioRef s
  ∧ priorityQueueRef (playBackgroundMusic h v d Resolves s) = priorityQueueRef s
  ∧ ∀ h', h ≠ h' →
          deref h' (playBackgroundMusic h v d Resolves s)
          = deref h' (musicStopped s).
Proof.
  destruct (musicStopped_refs s) as (M1 & M2 & _ & M4).
  unfold playBackgroundMusic. fold (musicStopped s).
  split; [reflexivity|]. split.
  { autorewrite with deref_set. rewrite !deref_modify.
    match goal with
    | |- HTMLAudioElement.volume (HTMLAudioElement.play ?e) = _ =>
        by destruct (play_keeps e) as (-> & _)
    end. }
  split.
  { autorewrite with deref_set. rewrite !deref_modify.
    match goal with
    | |- HTMLAudioElement.loop (HTMLAudioElement.play ?e) = _ =>
        by destruct (play_keeps e) as (_ & -> & _)
    end. }
  split.
  { autorewrite with deref_set. rewrite deref_modify.
    match goal with
    | |- HTMLAudioElement.paused (HTMLAudioElement.play ?e) = _ =>
        by destruct (play_keeps e) as (_ & _ & _ & ->)
    end. }
  split; [exact M1|]. split; [exact M2|]. split; [exact M4|].
  intros h' Hne. autorewrite with deref_set. by rewrite !deref_modify_ne.
Qed.



(** ** Attributes that the controller never writes *)

Section Untouched.
Context {A : Type} (attr : HTMLAudioElement.t → A) (Hattr : untouched attr).

Lemma untouched_pause e : attr (HTMLAudioElement.pause e) = attr e.
Proof. apply Hattr. Qed.

Lemma untouched_play e : attr (HTMLAudioElement.play e) = attr e.
Proof.
  unfold HTMLAudioElement.play.
  destruct (Hattr e) as (_ & Ht & _).
  repeat case_match;
    rewrite (proj1 (Hattr _)); rewrite ?Ht; reflexivity.
Qed.

Lemma untouched_finish e : attr (HTMLAudioElement.finish e) = attr e.
Proof.
  unfold HTMLAudioElement.finish.
  rewrite (proj1 (Hattr _)). apply Hattr.
Qed.

Lemma untouched_modify h h' f s :
  (∀ e, attr (f e) = attr e) →
  attr (deref h' (modify h f s)) = attr (deref h' s).
Proof. apply deref_modify_attr. Qed.

Lemma untouched_stopAudio h h' s :
  attr (deref h' (stopAudio h s)) = attr (deref h' s).
Proof.
  unfold stopAudio, cleanupEventListeners.
  rewrite !untouched_modify; [done|apply untouched_pause|intros e; apply Hattr].
Qed.

Lemma untouched_configureAudio h h' o s :
  attr (deref h' (configureAudio h o s)) = attr (deref h' s).
Proof.
  unfold configureAudio, cleanupEventListeners.
  destruct (truthyRate _); rewrite !untouched_modify;
    try done; intros e; apply Hattr.
Qed.

Lemma untouched_duckBackgroundMusic h s :
  attr (deref h (duckBackgroundMusic s)) = attr (deref h s).
Proof.
  unfold duckBackgroundMusic.
  destruct (BackgroundMusicState.audioRef _); [|done].
  destruct (_ && _); [|done].
  rewrite untouched_modify; [done|intros e; apply Hattr].
Qed.

Lemma untouched_restoreBackgroundMusic h s :
  attr (deref h (restoreBackgroundMusic s)) = attr (deref h s).
Proof.
  unfold restoreBackgroundMusic.
  destruct (BackgroundMusicState.audioRef _); [|done].
  destruct (_ && _); [|done].
  rewrite untouched_modify; [done|intros e; apply Hattr].
Qed.

Lemma untouched_musicStopped h s :
  attr (deref h (musicStopped s)) = attr (deref h s).
Proof.
  unfold musicStopped.
  destruct (BackgroundMusicState.audioRef _); [apply untouched_stopAudio|done].
Qed.

Lemma untouched_prepared h o s h' :
  attr (deref h' (prepared h o s)) = attr (deref h' s).
Proof.
  unfold prepared. rewrite untouched_configureAudio.
  unfold stopPreviousAudio.
  assert (H1 : attr (deref h' (if isPriority o then takePriority h s else s))
               = attr (deref h' s)).
  { destruct (isPriority o); [|done]. unfold takePriority.
    rewrite untouched_duckBackgroundMusic. autorewrite with deref_set.
    destruct (priorityAudioRef s); [apply untouched_stopAudio|done]. }
  destruct (previousAudioRef _); [|done].
  destruct (default true _); [by rewrite untouched_stopAudio|done].
Qed.

Lemma untouched_playAudio_other h o dev s h' :
  h ≠ h' →
  attr (deref h' (snd (playAudio h o dev s))) = attr (deref h' s).
Proof.
  intros Hne.
  destruct (blocked o s) eqn:Hb.
  { unfold playAudio. rewrite Hb. by destruct (default false _). }
  destruct (audioContextOk dev) eqn:Hctx;
    [|unfold playAudio; by rewrite Hb, Hctx].
  rewrite playAudio_admitted_other by done. apply untouched_prepared.
Qed.

Lemma untouched_playBackgroundMusic h v d promise s h' :
  attr (deref h' (playBackgroundMusic h v d promise s)) = attr (deref h' s).
Proof.
  unfold playBackgroundMusic. fold (musicStopped s).
  destruct promise; autorewrite with deref_set;
    rewrite !untouched_modify;
    try apply untouched_musicStopped; try apply untouched_play;
    intros e; apply Hattr.
Qed.

Lemma untouched_stopBackgroundMusic s h :
  attr (deref h (stopBackgroundMusic s)) = attr (deref h s).
Proof.
  unfold stopBackgroundMusic.
  destruct (BackgroundMusicState.audioRef _); [|done].
  autorewrite with deref_set. apply untouched_stopAudio.
Qed.

Lemma untouched_restored cb s h :
  attr (deref h (restored cb s)) = attr (deref h s).
Proof.
  unfold restored. rewrite untouched_restoreBackgroundMusic.
  by destruct cb.
Qed.

Lemma untouched_finished h s h' :
  attr (deref h' (finished h s)) = attr (deref h' s).
Proof. unfold finished. apply untouched_modify, untouched_finish. Qed.
End Untouched.

Lemma untouched_duration : untouched HTMLAudioElement.duration.
Proof. by intros []. Qed.

Lemma untouched_onended : untouched HTMLAudioElement.onended.
Proof. by intros []. Qed.

(** ** The controller under [useGameAudio] *)

Lemma playAudio_duration h o dev s h' :
  HTMLAudioElement.duration (deref h' (snd (playAudio h o dev s)))
  = HTMLAudioElement.duration (deref h' s).
Proof.
  destruct (blocked o s) eqn:Hb.
  { unfold playAudio. rewrite Hb. by destruct (default false _). }
  destruct (audioContextOk dev) eqn:Hctx;
    [|unfold playAudio; by rewrite Hb, Hctx].
  rewrite playAudio_admitted by done.
  destruct (volumeAccepted _);
    [|apply (untouched_prepared _ untouched_duration)].
  destruct (playPromise dev); cbn [snd]; [|apply armed_duration].
  rewrite (duration_modify h h' HTMLAudioElement.play (armed h o s))
    by (intros e; apply (untouched_play _ untouched_duration)).
  apply armed_duration.
Qed.

Lemma isEffect_not_bgm h : isEffect h → h ≠ bgm.
Proof. intros [->|[->| ->]]; discriminate. Qed.

Lemma game_ok_initial m mobile : gameSounds m → game_ok (initial m mobile).
Proof.
  intros Hfresh. unfold game_ok.
  split; [done|]. split; [by left|]. split; [done|].
  intros h hd Hh. unfold deref in Hh. cbn in Hh. by rewrite Hfresh in Hh.
Qed.

Lemma game_ok_playEffect h dev s :
  isEffect h → game_ok s → game_ok (snd (playAudio h effectOptions dev s)).
Proof.
  intros Heff Hok.
  assert (Hb : blocked effectOptions s = false) by (by apply blocked_priority).
  destruct (audioContextOk dev) eqn:Hctx;
    [|unfold playAudio; rewrite Hb, Hctx; exact Hok].
  destruct Hok as (Hq & Hbg & Hslot & Hhd).
  destruct (playAudio_admitted_refs h effectOptions dev s Hb Hctx)
    as (R1 & R2 & R3 & _).
  pose proof (playAudio_installs_handler h effectOptions dev s Hb Hctx eq_refl)
    as Hh.
  change (isPriority effectOptions) with true in R1, R2, Hh.
  change (AudioControlOptions.onEnd effectOptions) with (@None callback) in Hh.
  cbv iota in R1, R2.
  split; [by rewrite R3|]. split.
  { rewrite R2. by destruct (ducked_fields (bgMusicRef s)) as (-> & _). }
  split.
  { intros p Hp. rewrite R1 in Hp. injection Hp as <-.
    split; [done|]. by exists None. }
  intros h' hd Hh'. destruct (decide (h = h')) as [<-|Hne].
  - rewrite Hh in Hh'. by injection Hh' as <-.
  - rewrite (untouched_playAudio_other _ untouched_onended) in Hh' by done.
    by apply (Hhd h').
Qed.

Lemma game_ok_ended h dev s : game_ok s → game_ok (ended h dev s).
Proof.
  intros (Hq & Hbg & Hslot & Hhd).
  assert (Hfin : ∀ A (attr : HTMLAudioElement.t → A), untouched attr →
                 ∀ h', attr (deref h' (ended h dev s)) = attr (deref h' s)).
  { intros A attr Hattr h'. rewrite ended_handler.
    destruct (HTMLAudioElement.onended (deref h s)) as [hd|];
      [|apply (untouched_finished _ Hattr)].
    fold (finished h s).
    destruct (captured_priority hd).
    - rewrite enhancedOnEnd_priority.
      change (priorityQueueRef (finished h s)) with (priorityQueueRef s).
      rewrite Hq, (untouched_restored _ Hattr).
      apply (untouched_finished _ Hattr).
    - rewrite enhancedOnEnd_ordinary.
      destruct (captured_onEnd hd); apply (untouched_finished _ Hattr). }
  assert (Hrefs : priorityQueueRef (ended h dev s) = []
                  ∧ bgMusicRef (ended h dev s) = bgMusicRef s
                  ∧ (priorityAudioRef (ended h dev s) = None
                     ∨ priorityAudioRef (ended h dev s) = priorityAudioRef s)).
  { rewrite ended_handler.
    destruct (HTMLAudioElement.onended (deref h s)) as [hd|];
      [|by repeat split; [|right]].
    fold (finished h s).
    destruct (captured_priority hd).
    - rewrite enhancedOnEnd_priority.
      change (priorityQueueRef (finished h s)) with (priorityQueueRef s).
      rewrite Hq.
      destruct (restored_refs (captured_onEnd hd) (finished h s))
        as (_ & -> & -> & -> & _).
      by repeat split; [|left].
    - rewrite enhancedOnEnd_ordinary.
      destruct (captured_onEnd hd); by repeat split; [|right]. }
  destruct Hrefs as (R1 & R2 & R3).
  split; [exact R1|]. split; [by rewrite R2|]. split.
  { intros p Hp. destruct R3 as [R3|R3]; rewrite R3 in Hp; [done|].
    destruct (Hslot p Hp) as (Heff & cb & Hcb). split; [done|].
    exists cb. by rewrite (Hfin _ _ untouched_onended). }
  intros h' hd. rewrite (Hfin _ _ untouched_onended). apply Hhd.
Qed.

(** The start of [playBackgroundMusic] leaves the elements as the whole call
    does, and the record of the music as it was. *)
Lemma playBackgroundMusicStart_state h v d promise s :
  (∀ h', deref h' (snd (playBackgroundMusicStart h v d promise s))
         = deref h' (playBackgroundMusic h v d promise s))
  ∧ previousAudioRef (snd (playBackgroundMusicStart h v d promise s))
    = previousAudioRef s
  ∧ priorityAudioRef (snd (playBackgroundMusicStart h v d promise s))
    = priorityAudioRef s
  ∧ bgMusicRef (snd (playBackgroundMusicStart h v d promise s)) = bgMusicRef s
  ∧ priorityQueueRef (snd (playBackgroundMusicStart h v d promise s))
    = priorityQueueRef s.
Proof.
  split; [by destruct promise|].
  unfold playBackgroundMusicStart. fold (musicStopped s).
  destruct (musicStopped_refs s) as (M1 & M2 & M3 & M4).
  by destruct promise.
Qed.

Lemma game_ok_playMusic promise s :
  game_ok s →
  game_ok (playBackgroundMusic bgm (Some 0.5%Q) (Some true) promise s).
Proof.
  intros (Hq & Hbg & Hslot & Hhd).
  assert (Hrefs : priorityQueueRef
                    (playBackgroundMusic bgm (Some 0.5%Q) (Some true) promise s)
                  = priorityQueueRef s
                  ∧ priorityAudioRef
                      (playBackgroundMusic bgm (Some 0.5%Q) (Some true) promise s)
                    = priorityAudioRef s
                  ∧ (BackgroundMusicState.audioRef
                       (bgMusicRef
                          (playBackgroundMusic bgm (Some 0.5%Q) (Some true) promise s))
                     = Some bgm
                     ∨ bgMusicRef
                         (playBackgroundMusic bgm (Some 0.5%Q) (Some true) promise s)
                       = bgMusicRef s)).
  { unfold playBackgroundMusic. fold (musicStopped s).
    destruct (musicStopped_refs s) as (_ & M2 & M3 & M4).
    destruct promise; cbn; rewrite ?M2, ?M3, ?M4; repeat split; auto. }
  destruct Hrefs as (R1 & R2 & R3).
  split; [by rewrite R1|]. split.
  { destruct R3 as [R3|R3]; [by right|by rewrite R3]. }
  split.
  { intros p Hp. rewrite R2 in Hp.
    destruct (Hslot p Hp) as (Heff & cb & Hcb). split; [done|].
    exists cb. by rewrite (untouched_playBackgroundMusic _ untouched_onended). }
  intros h' hd.
  rewrite (untouched_playBackgroundMusic _ untouched_onended). apply Hhd.
Qed.

Lemma game_ok_musicCalled promise s :
  game_ok s →
  game_ok (snd (playBackgroundMusicStart bgm (Some 0.5%Q) (Some true) promise s)).
Proof.
  intros (Hq & Hbg & Hslot & Hhd).
  destruct (playBackgroundMusicStart_state bgm (Some 0.5%Q) (Some true) promise s)
    as (Hheap & _ & R2 & R3 & R4).
  split; [by rewrite R4|]. split; [by rewrite R3|]. split.
  { intros p Hp. rewrite R2 in Hp.
    destruct (Hslot p Hp) as (Heff & cb & Hcb). split; [done|].
    exists cb.
    by rewrite Hheap, (untouched_playBackgroundMusic _ untouched_onended). }
  intros h' hd.
  rewrite Hheap, (untouched_playBackgroundMusic _ untouched_onended). apply Hhd.
Qed.

Lemma game_ok_musicSettled shouldDuck s :
  game_ok s → game_ok (musicSettled shouldDuck s).
Proof.
  intros (Hq & Hbg & Hslot & Hhd).
  split; [exact Hq|]. split; [by right|]. split; [exact Hslot|exact Hhd].
Qed.

Lemma onended_loadMetadata h d s h' :
  HTMLAudioElement.onended (deref h' (loadMetadata h d s))
  = HTMLAudioElement.onended (deref h' s).
Proof.
  unfold loadMetadata. rewrite deref_dispatchEvent.
  apply (deref_modify_attr HTMLAudioElement.onended). by intros [].
Qed.

Lemma loadMetadata_refs h d s :
  previousAudioRef (loadMetadata h d s) = previousAudioRef s
  ∧ priorityAudioRef (loadMetadata h d s) = priorityAudioRef s
  ∧ bgMusicRef (loadMetadata h d s) = bgMusicRef s
  ∧ priorityQueueRef (loadMetadata h d s) = priorityQueueRef s.
Proof.
  unfold loadMetadata, dispatchEvent.
  by destruct (HTMLAudioElement.listeners _).
Qed.

Lemma game_ok_loadMetadata h d s : game_ok s → game_ok (loadMetadata h d s).
Proof.
  intros (Hq & Hbg & Hslot & Hhd).
  destruct (loadMetadata_refs h d s) as (_ & R2 & R3 & R4).
  split; [by rewrite R4|]. split; [by rewrite R3|]. split.
  { intros p Hp. rewrite R2 in Hp.
    destruct (Hslot p Hp) as (Heff & cb & Hcb). split; [done|].
    exists cb. by rewrite onended_loadMetadata. }
  intros h' hd. rewrite onended_loadMetadata. apply Hhd.
Qed.

Lemma game_ok_stopMusic s : game_ok s → game_ok (stopBackgroundMusic s).
Proof.
  intros (Hq & Hbg & Hslot & Hhd).
  assert (Hrefs : priorityQueueRef (stopBackgroundMusic s) = priorityQueueRef s
                  ∧ priorityAudioRef (stopBackgroundMusic s) = priorityAudioRef s
                  ∧ BackgroundMusicState.audioRef (bgMusicRef (stopBackgroundMusic s))
                    = BackgroundMusicState.audioRef (bgMusicRef s)).
  { unfold stopBackgroundMusic.
    destruct (BackgroundMusicState.audioRef (bgMusicRef s)) eqn:Hb;
      [|by rewrite Hb].
    autorewrite with refs. by rewrite Hb. }
  destruct Hrefs as (R1 & R2 & R3).
  split; [by rewrite R1|]. split; [by rewrite R3|]. split.
  { intros p Hp. rewrite R2 in Hp.
    destruct (Hslot p Hp) as (Heff & cb & Hcb). split; [done|].
    exists cb. by rewrite (untouched_stopBackgroundMusic _ untouched_onended). }
  intros h' hd.
  rewrite (untouched_stopBackgroundMusic _ untouched_onended). apply Hhd.
Qed.

Lemma game_ok_step op s : game_ok s → game_ok (gameStep op s).
Proof.
  intros Hok. destruct op; cbn [gameStep].
  - unfold playCorrectSound. destruct (negb _); [done|].
    apply game_ok_playEffect; [by left|done].
  - unfold playWrongSound. destruct (negb _); [done|].
    apply game_ok_playEffect; [by right; left|done].
  - unfold playGameOverSound. destruct (negb _); [done|].
    apply game_ok_playEffect; [by right; right|done].
  - unfold toggleBackgroundMusic.
    destruct (negb (soundEnabled g)); [by apply game_ok_stopMusic|].
    destruct (negb (isBgmPlaying g));
      [by apply game_ok_playMusic|by apply game_ok_stopMusic].
  - unfold startBackgroundMusic.
    destruct (_ && _); [by apply game_ok_playMusic|done].
  - by apply game_ok_stopMusic.
  - by apply game_ok_ended.
  - unfold dispatchEvent.
    destruct (HTMLAudioElement.listeners _); [done|]. exact Hok.
  - unfold toggleBackgroundMusicCalled.
    destruct (negb (soundEnabled g)); [by apply game_ok_stopMusic|].
    destruct (negb (isBgmPlaying g));
      [by apply game_ok_musicCalled|by apply game_ok_stopMusic].
  - unfold startBackgroundMusicCalled.
    destruct (_ && _); [by apply game_ok_musicCalled|done].
  - by apply game_ok_musicSettled.
  - by apply game_ok_loadMetadata.
Qed.

Lemma game_ok_run ops s : game_ok s → game_ok (gameRun ops s).
Proof.
  revert s. induction ops as [|op ops IH]; intros s Hok; [done|].
  apply IH. by apply game_ok_step.
Qed.

Lemma ducking_stopBackgroundMusic s :
  ducking_consistent s → ducking_consistent (stopBackgroundMusic s).
Proof.
  intros Hinv.
  destruct (BackgroundMusicState.audioRef (bgMusicRef s)) as [b|] eqn:Hb.
  - rewrite (stopBackgroundMusic_tracked s b Hb). intros b' _ Hplaying.
    discriminate.
  - unfold stopBackgroundMusic. by rewrite Hb.
Qed.

Lemma ducking_finished_unhandled h s :
  (∀ p, priorityAudioRef s = Some p → p ≠ h) →
  ducking_consistent s → ducking_consistent (finished h s).
Proof.
  intros Hne Hinv b Hb Hplaying. unfold finished in *.
  unfold expectedVolume.
  rewrite hasPriorityAudio_modify_ne
    by (intros Hp; by apply (Hne h)).
  rewrite volume_modify by same_attr.
  by apply Hinv.
Qed.

Lemma ducking_loadMetadata h d s :
  priorityAudioRef s ≠ Some h →
  ducking_consistent s → ducking_consistent (loadMetadata h d s).
Proof.
  intros Hne Hinv b Hb Hplaying.
  destruct (loadMetadata_refs h d s) as (_ & R2 & R3 & _).
  rewrite R3 in Hb, Hplaying.
  assert (Hhp : hasPriorityAudio (loadMetadata h d s) = hasPriorityAudio s).
  { rewrite !hasPriorityAudio_audible, R2.
    destruct (priorityAudioRef s) as [p|]; [|done].
    unfold loadMetadata. rewrite deref_dispatchEvent.
    rewrite deref_modify_ne; [done|congruence]. }
  unfold expectedVolume. rewrite Hhp, R3.
  unfold loadMetadata. rewrite deref_dispatchEvent.
  rewrite volume_modify by (by intros []).
  by apply Hinv.
Qed.

Lemma game_ducking_step op s :
  game_ok s → ducking_consistent s → keepsInStep op s →
  ducking_consistent (gameStep op s).
Proof.
  intros (Hq & Hbg & Hslot & Hhd) Hinv Hstep.
  assert (Heffect : ∀ h, isEffect h → hasMetadata h s →
            ducking_consistent (snd (playAudio h effectOptions deviceOk s))).
  { intros h Heff (d & Hd & Hpos).
    apply (ducking_playAudio h effectOptions s d); try done.
    pose proof (isEffect_not_bgm h Heff).
    destruct Hbg as [-> | ->]; congruence. }
  assert (Hmusic : ducking_consistent
                     (playBackgroundMusic bgm (Some 0.5%Q) (Some true) Resolves s)).
  { apply ducking_playBackgroundMusic. intros Hp.
    destruct (Hslot bgm Hp) as (Heff & _). by apply isEffect_not_bgm in Heff. }
  destruct op; cbn [gameStep keepsInStep] in *; try contradiction.
  - destruct Hstep as [-> Hload]. unfold playCorrectSound.
    destruct (soundEnabled g); [|done].
    apply Heffect; [by left|by apply Hload].
  - destruct Hstep as [-> Hload]. unfold playWrongSound.
    destruct (soundEnabled g); [|done].
    apply Heffect; [by right; left|by apply Hload].
  - destruct Hstep as [-> Hload]. unfold playGameOverSound.
    destruct (soundEnabled g); [|done].
    apply Heffect; [by right; right|by apply Hload].
  - subst promise. unfold toggleBackgroundMusic.
    destruct (negb (soundEnabled g)); [by apply ducking_stopBackgroundMusic|].
    destruct (negb (isBgmPlaying g)); [done|by apply ducking_stopBackgroundMusic].
  - subst promise. unfold startBackgroundMusic. by destruct (_ && _).
  - by apply ducking_stopBackgroundMusic.
  - destruct (HTMLAudioElement.onended (deref audioRef s)) as [[cb pr]|] eqn:Hh.
    + pose proof (Hhd _ _ Hh) as Hpr. cbn in Hpr. subst pr.
      apply (ducking_ended audioRef cb dev s); try done.
      * unfold queue_ok. rewrite Hq. apply Forall_nil_2.
      * rewrite Hq. intros entry Hentry. discriminate.
    + rewrite ended_handler, Hh. fold (finished audioRef s).
      apply ducking_finished_unhandled; [|done].
      intros p Hp ->. destruct (Hslot _ Hp) as (_ & cb & Hcb). congruence.
  - unfold dispatchEvent. by destruct (HTMLAudioElement.listeners _).
  - by apply ducking_loadMetadata.
Qed.

(** X11. Under [useGameAudio] nothing is ever queued or blocked, because
    every effect is requested with priority.  After any sequence of calls of
    the hook and of things the browser does (events, metadata that arrives,
    promises of [play()] that resolve while other calls have come in
    between), from a mount on elements that [new Audio(src)] has made: the
    queue is empty, the tracked music is the music element or none, and an
    effect requested on a working device is started and takes the priority
    slot, while the effect that held the slot before has been stopped.  The
    effect counts as an audible priority sound when its metadata is there,
    with a positive duration; as long as its duration is not known, it does
    not. *)
Theorem game_effects_never_wait m mobile ops h :
  gameSounds m →
  isEffect h →
  priorityQueueRef (gameRun ops (initial m mobile)) = []
  ∧ (BackgroundMusicState.audioRef (bgMusicRef (gameRun ops (initial m mobile)))
     = None
     ∨ BackgroundMusicState.audioRef (bgMusicRef (gameRun ops (initial m mobile)))
       = Some bgm)
  ∧ blocked effectOptions (gameRun ops (initial m mobile)) = false
  ∧ fst (playAudio h effectOptions deviceOk (gameRun ops (initial m mobile)))
    = true
  ∧ priorityAudioRef
      (snd (playAudio h effectOptions deviceOk (gameRun ops (initial m mobile))))
    = Some h
  ∧ HTMLAudioElement.paused
      (deref h
         (snd (playAudio h effectOptions deviceOk
                 (gameRun ops (initial m mobile)))))
    = false
  ∧ (hasMetadata h (gameRun ops (initial m mobile)) →
     hasPriorityAudio
       (snd (playAudio h effectOptions deviceOk (gameRun ops (initial m mobile))))
     = true)
  ∧ (HTMLAudioElement.duration (deref h (gameRun ops (initial m mobile))) = None →
     hasPriorityAudio
       (snd (playAudio h effectOptions deviceOk (gameRun ops (initial m mobile))))
     = false)
  ∧ ∀ p, priorityAudioRef (gameRun ops (initial m mobile)) = Some p → p ≠ h →
         stopped
           (deref p
              (snd (playAudio h effectOptions deviceOk
                      (gameRun ops (initial m mobile))))).
Proof.
  intros Hm Heff.
  pose proof (game_ok_run ops _ (game_ok_initial m mobile Hm)) as Hok.
  set (s := gameRun ops (initial m mobile)) in *.
  destruct Hok as (Hq & Hbg & Hslot & Hhd).
  assert (Hb : blocked effectOptions s = false) by (by apply blocked_priority).
  assert (Hprio : priorityAudioRef (snd (playAudio h effectOptions deviceOk s))
                  = Some h).
  { by destruct (playAudio_admitted_refs h effectOptions deviceOk s Hb eq_refl)
      as (-> & _). }
  split; [exact Hq|]. split; [exact Hbg|]. split; [exact Hb|].
  split; [by apply playAudio_started|].
  split; [exact Hprio|].
  split; [by apply playAudio_started|].
  split.
  { intros (d & Hd & Hpos).
    by apply (playAudio_priority_audible h effectOptions s d). }
  split.
  { intros Hd. rewrite hasPriorityAudio_audible, Hprio. unfold audible.
    rewrite playAudio_duration, Hd. apply andb_false_r. }
  intros p Hp Hne. by apply playAudio_admitted_stops_priority.
Qed.

Lemma gameSounds_fresh : gameSounds ∅.
Proof. intros h. by rewrite lookup_total_empty. Qed.

Lemma game_effects_never_wait_witness :
  priorityQueueRef
    (gameRun [GPlayCorrectSound soundOn deviceOk; GLoadMetadata wrong 3]
       (initial ∅ false)) = []
  ∧ hasPriorityAudio
      (snd (playAudio wrong effectOptions deviceOk
              (gameRun [GPlayCorrectSound soundOn deviceOk; GLoadMetadata wrong 3]
                 (initial ∅ false))))
    = true
  ∧ stopped
      (deref correct
         (snd (playAudio wrong effectOptions deviceOk
                 (gameRun [GPlayCorrectSound soundOn deviceOk;
                           GLoadMetadata wrong 3]
                    (initial ∅ false))))).
Proof.
  destruct (game_effects_never_wait ∅ false
              [GPlayCorrectSound soundOn deviceOk; GLoadMetadata wrong 3]
              wrong gameSounds_fresh)
    as (Hq & _ & _ & _ & _ & _ & Haud & _ & Hstop).
  - by right; left.
  - split; [exact Hq|]. split.
    + apply Haud. exists 3%Q. split; reflexivity.
    + apply (Hstop correct); [reflexivity|discriminate].
Defined.

(** X12. Under [useGameAudio] the volume of the music stays in step with
    the effects (when the music is tracked and marked as playing, its
    element is at [originalVolume * 0.2] while an effect is audible and at
    [originalVolume] otherwise) through every run in which each effect
    starts, on an element whose metadata is there; each start of the music
    succeeds and is settled before anything else happens; and metadata does
    not arrive for the element of the priority slot.  The side conditions of
    the controller about distinct elements and the queue are met by the way
    the hook uses it. *)
Theorem game_music_follows_effects m mobile ops :
  gameSounds m →
  allInStep ops (initial m mobile) →
  ducking_consistent (gameRun ops (initial m mobile)).
Proof.
  intros Hm.
  assert (Hgen : ∀ s, game_ok s → ducking_consistent s → allInStep ops s →
                      ducking_consistent (gameRun ops s)).
  { induction ops as [|op ops IH]; intros s Hok Hinv Hall; [done|].
    destruct Hall as [Hop Hall].
    apply IH; [by apply game_ok_step|by apply game_ducking_step|done]. }
  intros Hall. apply Hgen; [by apply game_ok_initial|apply ducking_initial|done].
Qed.

Lemma game_music_follows_effects_witness :
  ducking_consistent
    (gameRun
       [GLoadMetadata correct 2;
        GStartBackgroundMusic soundOn Resolves;
        GPlayCorrectSound soundOn deviceOk;
        GEnded correct deviceOk]
       (initial ∅ false)).
Proof.
  apply (game_music_follows_effects ∅ false _ gameSounds_fresh).
  split; [discriminate|].
  split; [reflexivity|].
  split; [|done].
  split; [reflexivity|]. intros _. exists 2%Q. split; reflexivity.
Defined.

(** Outside of these circumstances the music goes out of step.  When an
    effect is played between the call of [startBackgroundMusic] and the
    resolution of the promise of [play()], the music is heard at the full
    volume during the effect.  When an effect is played before its metadata
    is there, the music is ducked while, for the controller, no priority
    sound is audible; the two agree again once the metadata has arrived. *)
Lemma game_music_out_of_step :
  fst (playBackgroundMusicStart bgm (Some 0.5%Q) (Some true) Resolves
         (initial sounds false)) = false
  ∧ hasPriorityAudio
      (gameRun [GStartBackgroundMusicCalled soundOn Resolves;
                GPlayCorrectSound soundOn deviceOk;
                GMusicSettled false] (initial sounds false)) = true
  ∧ HTMLAudioElement.volume
      (deref bgm
         (gameRun [GStartBackgroundMusicCalled soundOn Resolves;
                   GPlayCorrectSound soundOn deviceOk;
                   GMusicSettled false] (initial sounds false)))
    = normalize 0.5
  ∧ ¬ ducking_consistent
        (gameRun [GStartBackgroundMusicCalled soundOn Resolves;
                  GPlayCorrectSound soundOn deviceOk;
                  GMusicSettled false] (initial sounds false))
  ∧ ¬ ducking_consistent
        (gameRun [GStartBackgroundMusic soundOn Resolves;
                  GPlayCorrectSound soundOn deviceOk] (initial ∅ false))
  ∧ ducking_consistent
      (gameRun [GStartBackgroundMusic soundOn Resolves;
                GPlayCorrectSound soundOn deviceOk;
                GLoadMetadata correct 2] (initial ∅ false)).
Proof.
  do 3 (split; [vm_compute; reflexivity|]).
  split; [|split].
  - intros Hinv. specialize (Hinv bgm eq_refl eq_refl).
    vm_compute in Hinv. discriminate.
  - intros Hinv. specialize (Hinv bgm eq_refl eq_refl).
    vm_compute in Hinv. discriminate.
  - intros b Hb _. vm_compute in Hb. injection Hb as <-.
    vm_compute. reflexivity.
Qed.

Lemma playBackgroundMusic_rejected_state h v d s :
  getBackgroundMusicState (playBackgroundMusic h v d Rejects s)
  = getBackgroundMusicState s
  ∧ bgMusicRef (playBackgroundMusic h v d Rejects s) = bgMusicRef s.
Proof.
  assert (Hbg : bgMusicRef (playBackgroundMusic h v d Rejects s) = bgMusicRef s).
  { unfold playBackgroundMusic.
    by destruct (BackgroundMusicState.audioRef (bgMusicRef s)). }
  split; [|exact Hbg]. unfold getBackgroundMusicState. by rewrite Hbg.
Qed.

(** X13. [toggleBackgroundMusic] answers before the start of the music is
    known: it answers [true] exactly when sound is enabled and the music is
    said not to be playing, whatever becomes of the start.  When the start
    is rejected, it has answered [true] while the recorded state of the
    music is as before the call; in the other two cases the music is
    stopped and, if a track is tracked, marked as not playing. *)
Theorem toggleBackgroundMusic_answer g promise s :
  fst (toggleBackgroundMusic g promise s)
  = soundEnabled g && negb (isBgmPlaying g)
  ∧ (fst (toggleBackgroundMusic g promise s) = true → promise = Rejects →
     getBackgroundMusicState (snd (toggleBackgroundMusic g promise s))
     = getBackgroundMusicState s)
  ∧ (fst (toggleBackgroundMusic g promise s) = true → promise = Resolves →
     info_isPlaying
       (getBackgroundMusicState (snd (toggleBackgroundMusic g promise s)))
     = true
     ∧ info_originalVolume
         (getBackgroundMusicState (snd (toggleBackgroundMusic g promise s)))
       = normalize 0.5)
  ∧ (fst (toggleBackgroundMusic g promise s) = false →
     snd (toggleBackgroundMusic g promise s) = stopBackgroundMusic s
     ∧ ∀ b, BackgroundMusicState.audioRef (bgMusicRef s) = Some b →
            info_isPlaying
              (getBackgroundMusicState (snd (toggleBackgroundMusic g promise s)))
            = false
            ∧ stopped (deref b (snd (toggleBackgroundMusic g promise s)))).
Proof.
  unfold toggleBackgroundMusic.
  destruct (soundEnabled g), (isBgmPlaying g); cbn [negb andb fst snd].
  - split; [done|]. split; [done|]. split; [done|]. intros _.
    split; [done|]. intros b Hb. split.
    + rewrite (stopBackgroundMusic_tracked s b Hb). reflexivity.
    + by apply stopBackgroundMusic_stopped.
  - split; [done|]. split.
    { intros _ ->.
      by destruct (playBackgroundMusic_rejected_state bgm (Some 0.5%Q) (Some true) s). }
    split; [|done]. intros _ ->.
    destruct (playBackgroundMusic_resolved bgm (Some 0.5%Q) (Some true) s)
      as (Hbg & _).
    unfold getBackgroundMusicState, info_isPlaying, info_originalVolume.
    by rewrite Hbg.
  - split; [done|]. split; [done|]. split; [done|]. intros _.
    split; [done|]. intros b Hb. split.
    + rewrite (stopBackgroundMusic_tracked s b Hb). reflexivity.
    + by apply stopBackgroundMusic_stopped.
  - split; [done|]. split; [done|]. split; [done|]. intros _.
    split; [done|]. intros b Hb. split.
    + rewrite (stopBackgroundMusic_tracked s b Hb). reflexivity.
    + by apply stopBackgroundMusic_stopped.
Qed.

Lemma toggleBackgroundMusic_answer_witness :
  fst (toggleBackgroundMusic {| soundEnabled := true; isBgmPlaying := false |}
         Rejects mounted) = true
  ∧ info_isPlaying
      (getBackgroundMusicState
         (snd (toggleBackgroundMusic
                 {| soundEnabled := true; isBgmPlaying := false |} Rejects mounted)))
    = false.
Proof.
  destruct (toggleBackgroundMusic_answer
              {| soundEnabled := true; isBgmPlaying := false |} Rejects mounted)
    as (Hans & Hrej & _).
  split; [exact Hans|]. rewrite Hrej; reflexivity.
Defined.

(** * The quiz *)

(** ** The countdown *)

Lemma tick_fields prev :
  Quiz.setupStep (Quiz.tick prev) = Quiz.setupStep prev
  ∧ Quiz.score (Quiz.tick prev) = Quiz.score prev
  ∧ Quiz.showHint (Quiz.tick prev) = Quiz.showHint prev
  ∧ Quiz.isCorrect (Quiz.tick prev) = Quiz.isCorrect prev
  ∧ Quiz.selectedAnswer (Quiz.tick prev) = Quiz.selectedAnswer prev
  ∧ Quiz.askedQuestions (Quiz.tick prev) = Quiz.askedQuestions prev.
Proof. unfold Quiz.tick. by destruct (_ <=? _)%Z. Qed.

Lemma tick_spec prev :
  Quiz.timeRemaining (Quiz.tick prev) = Z.max 0 (Quiz.timeRemaining prev - 1)
  ∧ Quiz.phase (Quiz.tick prev)
    = (if (Quiz.timeRemaining prev <=? 1)%Z then Quiz.gameover
       else Quiz.phase prev).
Proof.
  unfold Quiz.tick.
  destruct (Z.leb_spec (Quiz.timeRemaining prev) 1);
    cbn [Quiz.timeRemaining Quiz.phase]; split; lia || done.
Qed.

(** X14. The countdown.  After [n] ticks ([n] at least one) from a state
    with [t] seconds left, [max 0 (t - n)] seconds are left: the time never
    goes below zero.  The phase becomes [gameover] at the tick that brings
    the time to zero, which is the [t]-th when [t] is at least one, and is
    as it was before that; the score and the other fields are not
    touched. *)
Theorem countdown n prev :
  0 < n →
  Quiz.timeRemaining (Nat.iter n Quiz.tick prev)
  = Z.max 0 (Quiz.timeRemaining prev - Z.of_nat n)
  ∧ Quiz.phase (Nat.iter n Quiz.tick prev)
    = (if (Quiz.timeRemaining prev <=? Z.of_nat n)%Z then Quiz.gameover
       else Quiz.phase prev)
  ∧ Quiz.score (Nat.iter n Quiz.tick prev) = Quiz.score prev
  ∧ Quiz.askedQuestions (Nat.iter n Quiz.tick prev) = Quiz.askedQuestions prev
  ∧ Quiz.selectedAnswer (Nat.iter n Quiz.tick prev) = Quiz.selectedAnswer prev.
Proof.
  intros Hn. destruct n as [|n]; [lia|clear Hn].
  induction n as [|n IH].
  - change (Nat.iter 1 Quiz.tick prev) with (Quiz.tick prev).
    destruct (tick_fields prev) as (_ & -> & _ & _ & -> & ->).
    destruct (tick_spec prev) as (-> & ->).
    change (Z.of_nat 1) with 1%Z. by repeat split.
  - destruct IH as (Ht & Hp & Hs & Ha & Hsel).
    change (Nat.iter (S (S n)) Quiz.tick prev)
      with (Quiz.tick (Nat.iter (S n) Quiz.tick prev)).
    set (s := Nat.iter (S n) Quiz.tick prev) in *.
    destruct (tick_fields s) as (_ & -> & _ & _ & -> & ->).
    destruct (tick_spec s) as (-> & ->).
    rewrite Ht, Hp.
    split; [lia|]. split; [|by repeat split].
    destruct (Z.leb_spec (0 `max` (Quiz.timeRemaining prev - Z.of_nat (S n))) 1),
             (Z.leb_spec (Quiz.timeRemaining prev) (Z.of_nat (S (S n))));
      try lia; try done.
    destruct (Z.leb_spec (Quiz.timeRemaining prev) (Z.of_nat (S n))); [lia|done].
Qed.

Lemma countdown_witness :
  Quiz.timeRemaining
    (Nat.iter 5 Quiz.tick
       (Quiz.mkGameState Quiz.playing Quiz.region 7 3 false None None ∅))
  = 0%Z
  ∧ Quiz.phase
      (Nat.iter 5 Quiz.tick
         (Quiz.mkGameState Quiz.playing Quiz.region 7 3 false None None ∅))
    = Quiz.gameover
  ∧ Quiz.score
      (Nat.iter 5 Quiz.tick
         (Quiz.mkGameState Quiz.playing Quiz.region 7 3 false None None ∅))
    = 7%Z.
Proof.
  destruct (countdown 5
              (Quiz.mkGameState Quiz.playing Quiz.region 7 3 false None None ∅))
    as (Ht & Hp & Hs & _); [lia|].
  rewrite Ht, Hp, Hs. repeat split.
Defined.

(** ** The answers offered *)

Lemma fillOptions_full count stack options usedNames :
  count ≤ length options →
  Quiz.fillOptions count stack options usedNames = options.
Proof.
  intros Hlen. destruct stack as [|c stack]; [done|].
  cbn [Quiz.fillOptions]. case_decide; [lia|done].
Qed.

(** What the loop appends: members of the stack, with names that are new
    and pairwise distinct. *)
Lemma fillOptions_appends count stack options usedNames :
  ∃ added,
    Quiz.fillOptions count stack options usedNames = options ++ added
    ∧ (∀ c, c ∈ added → c ∈ stack)
    ∧ (∀ c, c ∈ added → Quiz.name c ∉ usedNames)
    ∧ NoDup (Quiz.name <$> added).
Proof.
  revert options usedNames.
  induction stack as [|c stack IH]; intros options usedNames.
  - exists []. rewrite app_nil_r.
    split; [done|]. split; [by intros ? ?%elem_of_nil|].
    split; [by intros ? ?%elem_of_nil|apply NoDup_nil_2].
  - cbn [Quiz.fillOptions]. case_decide as Hlen.
    + case_decide as Hin.
      * destruct (IH options usedNames) as (added & -> & Hsub & Hnew & Hnd).
        exists added. repeat split; try done.
        intros c' Hc'. apply elem_of_cons. right. by apply Hsub.
      * destruct (IH (options ++ [c]) ({[Quiz.name c]} ∪ usedNames))
          as (added & -> & Hsub & Hnew & Hnd).
        exists (c :: added). rewrite <- app_assoc. split; [done|].
        split; [|split].
        -- intros c' [->|Hc']%elem_of_cons; [by left|].
           apply elem_of_cons. right. by apply Hsub.
        -- intros c' [->|Hc']%elem_of_cons; [done|].
           specialize (Hnew c' Hc'). set_solver.
        -- rewrite fmap_cons. apply NoDup_cons. split; [|done].
           intros (c' & Hname & Hc')%list_elem_of_fmap.
           specialize (Hnew c' Hc'). set_solver.
    + exists []. rewrite app_nil_r.
      split; [done|]. split; [by intros ? ?%elem_of_nil|].
      split; [by intros ? ?%elem_of_nil|apply NoDup_nil_2].
Qed.

Lemma names_cons c l : Quiz.names (c :: l) = {[Quiz.name c]} ∪ Quiz.names l.
Proof. reflexivity. Qed.

Lemma names_nil (U : gset string) : size (Quiz.names [] ∖ U) = 0.
Proof.
  apply size_empty_iff. intros y. unfold Quiz.names. set_unfold. tauto.
Qed.

Lemma names_used (x : string) (N U : gset string) :
  x ∈ U → ({[x]} ∪ N) ∖ U = N ∖ U.
Proof.
  intros Hx. apply set_eq. intros y. set_unfold. intuition congruence.
Qed.

Lemma names_fresh (x : string) (N U : gset string) :
  x ∉ U → size (({[x]} ∪ N) ∖ U) = S (size (N ∖ ({[x]} ∪ U))).
Proof.
  intros Hx.
  assert (Heq : ({[x]} ∪ N) ∖ U = {[x]} ∪ N ∖ ({[x]} ∪ U)).
  { apply set_eq. intros y. set_unfold.
    destruct (decide (y = x)) as [->|]; intuition congruence. }
  rewrite Heq.
  rewrite (size_union (C:=gset string) {[x]} (N ∖ ({[x]} ∪ U))).
  - by rewrite size_singleton.
  - intros y. set_unfold. intuition congruence.
Qed.

Lemma fillOptions_length count stack options usedNames :
  length options ≤ count →
  length (Quiz.fillOptions count stack options usedNames)
  = min count (length options + size (Quiz.names stack ∖ usedNames)).
Proof.
  revert options usedNames.
  induction stack as [|c stack IH]; intros options usedNames Hlen.
  - cbn [Quiz.fillOptions]. rewrite names_nil. lia.
  - cbn [Quiz.fillOptions]. case_decide as Hlt.
    + case_decide as Hin.
      * rewrite IH by done. rewrite names_cons.
        by rewrite names_used.
      * rewrite IH by (rewrite length_app; cbn; lia).
        rewrite length_app. cbn [length]. rewrite names_cons.
        rewrite names_fresh by done. lia.
    + lia.
Qed.

(** Once the first part of the stack fills the options, the rest is not
    looked at. *)
Lemma fillOptions_app count stack1 stack2 options usedNames :
  count ≤ length options + size (Quiz.names stack1 ∖ usedNames) →
  Quiz.fillOptions count (stack1 ++ stack2) options usedNames
  = Quiz.fillOptions count stack1 options usedNames.
Proof.
  revert options usedNames.
  induction stack1 as [|c stack1 IH]; intros options usedNames Hsize.
  - cbn [app Quiz.fillOptions]. apply fillOptions_full.
    rewrite names_nil in Hsize. lia.
  - cbn [app Quiz.fillOptions]. case_decide as Hlt; [|done].
    rewrite names_cons in Hsize.
    case_decide as Hin.
    + apply IH. by rewrite names_used in Hsize.
    + apply IH. rewrite length_app. cbn [length].
      rewrite names_fresh in Hsize by done. lia.
Qed.

Lemma names_Permutation l l' : l ≡ₚ l' → Quiz.names l = Quiz.names l'.
Proof.
  intros Hp. unfold Quiz.names. apply set_eq. intros x.
  rewrite !elem_of_list_to_set. by rewrite Hp.
Qed.

Lemma names_app l l' : Quiz.names (l ++ l') = Quiz.names l ∪ Quiz.names l'.
Proof. unfold Quiz.names. by rewrite fmap_app, list_to_set_app_L. Qed.

Lemma names_elem_of x l :
  x ∈ Quiz.names l ↔ ∃ c, c ∈ l ∧ Quiz.name c = x.
Proof.
  unfold Quiz.names. rewrite elem_of_list_to_set, list_elem_of_fmap.
  split; intros (c & H1 & H2); exists c; by split.
Qed.

Lemma names_reverse l : Quiz.names (reverse l) = Quiz.names l.
Proof. apply names_Permutation, reverse_Permutation. Qed.

(** The two filters of [getRandomOptions] together hold every name of the
    data but the correct answer's. *)
Lemma names_candidates countryData correctAnswer :
  let usedNames : gset string := {[Quiz.name correctAnswer]} in
  (Quiz.names
     (filter (λ c, Quiz.continent c = Quiz.continent correctAnswer
                   ∧ Quiz.name c ∉ usedNames) countryData)
   ∪ Quiz.names
       (filter (λ c, Quiz.continent c ≠ Quiz.continent correctAnswer
                     ∧ Quiz.name c ∉ usedNames) countryData))
  ∖ usedNames
  = Quiz.names countryData ∖ usedNames.
Proof.
  intros usedNames. apply set_eq. intros x.
  rewrite !elem_of_difference, elem_of_union, !names_elem_of.
  split.
  - intros [[(c & Hc & <-)|(c & Hc & <-)] Hx];
      apply list_elem_of_filter in Hc as [_ Hc]; split; eauto.
  - intros [(c & Hc & <-) Hx]. split; [|done].
    destruct (decide (Quiz.continent c = Quiz.continent correctAnswer)).
    + left. exists c. split; [|done]. by apply list_elem_of_filter.
    + right. exists c. split; [|done]. by apply list_elem_of_filter.
Qed.

Lemma names_abroad countryData correctAnswer :
  let usedNames : gset string := {[Quiz.name correctAnswer]} in
  Quiz.names
    (filter (λ c, Quiz.continent c ≠ Quiz.continent correctAnswer
                  ∧ Quiz.name c ∉ usedNames) countryData)
  ∖ usedNames
  = Quiz.names (Quiz.abroad countryData correctAnswer).
Proof.
  intros usedNames. apply set_eq. intros x. unfold Quiz.abroad.
  rewrite elem_of_difference, !names_elem_of.
  split.
  - intros [(c & Hc & <-) Hx].
    apply list_elem_of_filter in Hc as [[Hcont Hname] Hc].
    exists c. split; [|done]. apply list_elem_of_filter.
    split; [|done]. split; [done|]. intros Heq. apply Hname.
    rewrite Heq. by apply elem_of_singleton.
  - intros (c & Hc & <-).
    apply list_elem_of_filter in Hc as [[Hcont Hname] Hc].
    assert (Hnew : Quiz.name c ∉ usedNames).
    { intros Hin. by apply elem_of_singleton in Hin. }
    split; [|done]. exists c. split; [|done].
    by apply list_elem_of_filter.
Qed.

(** X15. With sorts that only reorder, [getRandomOptions] returns the
    correct answer among options whose names are pairwise distinct; every
    other option is a country of the data with another name; and for
    [count] of at least one there are [count] options, or fewer only when
    the data has not that many names: one more than the number of names in
    the data that differ from the correct answer's. *)
Theorem getRandomOptions_sound
    shuffleSame shuffleOther shuffleOptions countryData correctAnswer count :
  Quiz.shuffles shuffleSame →
  Quiz.shuffles shuffleOther →
  Quiz.shuffles shuffleOptions →
  let result :=
    Quiz.getRandomOptions shuffleSame shuffleOther shuffleOptions
      countryData correctAnswer count in
  correctAnswer ∈ result
  ∧ NoDup (Quiz.name <$> result)
  ∧ (∀ c, c ∈ result →
       c = correctAnswer
       ∨ (c ∈ countryData ∧ Quiz.name c ≠ Quiz.name correctAnswer))
  ∧ (1 ≤ count →
     length result
     = min count
         (1 + size (Quiz.names countryData ∖ {[Quiz.name correctAnswer]}))).
Proof.
  intros Hsame Hother Hoptions result. subst result.
  unfold Quiz.getRandomOptions.
  set (usedNames := ({[Quiz.name correctAnswer]} : gset string)).
  set (same := filter _ countryData).
  set (other := filter _ countryData).
  set (stack := reverse (shuffleSame same ++ shuffleOther other)).
  assert (Hstack : ∀ c, c ∈ stack →
            c ∈ countryData ∧ Quiz.name c ∉ usedNames).
  { intros c Hc. unfold stack in Hc.
    rewrite elem_of_reverse, elem_of_app, (Hsame same), (Hother other) in Hc.
    destruct Hc as [Hc|Hc];
      apply list_elem_of_filter in Hc as [[_ Hname] Hc]; by split. }
  destruct (fillOptions_appends count stack [correctAnswer] usedNames)
    as (added & Hfill & Hsub & Hnew & Hnd).
  split; [|split; [|split]].
  - rewrite (Hoptions _), Hfill. apply elem_of_app. left. by left.
  - rewrite (Hoptions _), Hfill. cbn [app fmap list_fmap].
    apply NoDup_cons. split; [|done].
    intros (c & Hname & Hc)%list_elem_of_fmap.
    apply (Hnew c Hc). rewrite <- Hname. by apply elem_of_singleton.
  - intros c Hc. rewrite (Hoptions _), Hfill in Hc.
    apply elem_of_cons in Hc as [->|Hc]; [by left|]. right.
    destruct (Hstack c (Hsub c Hc)) as [Hdata _]. split; [done|].
    intros Heq. apply (Hnew c Hc). rewrite Heq. by apply elem_of_singleton.
  - intros Hcount. rewrite (Permutation_length (Hoptions _)).
    rewrite fillOptions_length by (cbn [length]; lia).
    cbn [length]. unfold stack.
    rewrite names_reverse, names_app.
    rewrite (names_Permutation _ _ (Hsame same)).
    rewrite (names_Permutation _ _ (Hother other)).
    unfold same, other, usedNames.
    by rewrite (names_candidates countryData correctAnswer).
Qed.

Lemma getRandomOptions_sound_witness :
  Quiz.france ∈ Quiz.getRandomOptions id id id Quiz.atlas Quiz.france 4
  ∧ NoDup (Quiz.name <$> Quiz.getRandomOptions id id id Quiz.atlas Quiz.france 4)
  ∧ length (Quiz.getRandomOptions id id id Quiz.atlas Quiz.france 4) = 4.
Proof.
  destruct (getRandomOptions_sound id id id Quiz.atlas Quiz.france 4)
    as (Hin & Hnd & _ & Hlen); [by intros l..|].
  split; [exact Hin|]. split; [exact Hnd|].
  rewrite Hlen by lia. vm_compute. reflexivity.
Defined.

(** X16. [pop()] takes from the end of [allOptions], where the countries
    of the other continents are.  So while those supply enough names for
    [count] options, no wrong option is of the correct answer's continent:
    a country of that continent is offered only when the others run
    out. *)
Theorem getRandomOptions_prefers_other_continents
    shuffleSame shuffleOther shuffleOptions countryData correctAnswer count :
  Quiz.shuffles shuffleSame →
  Quiz.shuffles shuffleOther →
  Quiz.shuffles shuffleOptions →
  count ≤ 1 + size (Quiz.names (Quiz.abroad countryData correctAnswer)) →
  ∀ c,
    c ∈ Quiz.getRandomOptions shuffleSame shuffleOther shuffleOptions
          countryData correctAnswer count →
    c = correctAnswer
    ∨ Quiz.continent c ≠ Quiz.continent correctAnswer.
Proof.
  intros Hsame Hother Hoptions Hcount c.
  unfold Quiz.getRandomOptions.
  set (usedNames := ({[Quiz.name correctAnswer]} : gset string)).
  set (same := filter _ countryData).
  set (other := filter _ countryData).
  rewrite (Hoptions _), reverse_app.
  rewrite fillOptions_app.
  - destruct (fillOptions_appends count (reverse (shuffleOther other))
                [correctAnswer] usedNames)
      as (added & -> & Hsub & _ & _).
    intros [->|Hc]%elem_of_cons; [by left|]. right.
    apply Hsub in Hc. rewrite elem_of_reverse, (Hother other) in Hc.
    by apply list_elem_of_filter in Hc as [[Hcont _] _].
  - cbn [length]. rewrite names_reverse.
    rewrite (names_Permutation _ _ (Hother other)).
    unfold other, usedNames.
    by rewrite (names_abroad countryData correctAnswer).
Qed.

Lemma getRandomOptions_prefers_other_continents_witness :
  Quiz.germany ∉ Quiz.getRandomOptions id id id Quiz.atlas Quiz.france 4.
Proof.
  intros Hin.
  destruct (getRandomOptions_prefers_other_continents id id id
              Quiz.atlas Quiz.france 4) with (c := Quiz.germany)
    as [Heq|Hcont]; try (by intros l).
  - vm_compute. lia.
  - exact Hin.
  - discriminate Heq.
  - by apply Hcont.
Defined.

(** ** The countries left to ask *)

Lemma filter_filter_comm {A} (P Q : A → Prop)
    `{∀ x, Decision (P x)} `{∀ x, Decision (Q x)} (l : list A) :
  filter P (filter Q l) = filter Q (filter P l).
Proof.
  rewrite !list_filter_filter. apply list_filter_iff. intros x. tauto.
Qed.

(** X17. [getRemainingCountries] returns exactly the countries of the data
    that were not asked, are of the selected continent when one is
    selected, and of the selected subregion when one other than
    [All Regions] is selected; [null] and the empty string select
    nothing. *)
Theorem getRemainingCountries_elem_of
    countryData askedQuestions selectedRegion selectedSubregion c :
  c ∈ Quiz.getRemainingCountries countryData askedQuestions
        selectedRegion selectedSubregion
  ↔ c ∈ countryData
    ∧ (Quiz.name c ∉ askedQuestions)
    ∧ (∀ r, selectedRegion = Some r → r ≠ "" → Quiz.continent c = r)
    ∧ (∀ sr, selectedSubregion = Some sr → sr ≠ "" → sr ≠ "All Regions" →
         Quiz.subregion c = sr).
Proof.
  unfold Quiz.getRemainingCountries.
  set (unasked := filter _ countryData).
  set (inRegion := match selectedRegion with Some _ => _ | None => _ end).
  assert (Hregion : c ∈ inRegion
            ↔ c ∈ unasked
              ∧ (∀ r, selectedRegion = Some r → r ≠ "" → Quiz.continent c = r)).
  { unfold inRegion. destruct selectedRegion as [r|].
    - case_decide as Hr.
      + rewrite list_elem_of_filter. split.
        * intros [Hc Hin]. split; [done|]. by intros ? [= <-] _.
        * intros [Hin Hc]. split; [|done]. by apply Hc.
      + split; [|tauto]. intros Hin. split; [done|].
        intros ? [= <-] Hne. by destruct Hr.
    - split; [|tauto]. intros Hin. split; [done|]. by intros ? [=]. }
  assert (Hunasked : c ∈ unasked
            ↔ c ∈ countryData ∧ Quiz.name c ∉ askedQuestions).
  { unfold unasked. rewrite list_elem_of_filter. tauto. }
  destruct selectedSubregion as [sr|].
  - case_decide as Hsr.
    + rewrite list_elem_of_filter, Hregion, Hunasked. split.
      * intros (Hc & (Hdata & Hasked) & Hr). repeat split; try done.
        by intros ? [= <-] _ _.
      * intros (Hdata & Hasked & Hr & Hc). repeat split; try done.
        apply Hc; tauto.
    + rewrite Hregion, Hunasked. split.
      * intros ((Hdata & Hasked) & Hr). repeat split; try done.
        intros ? [= <-] Hne Hall. destruct Hsr. by split.
      * tauto.
  - rewrite Hregion, Hunasked. split.
    + intros ((Hdata & Hasked) & Hr). by repeat split.
    + tauto.
Qed.

(** Asking one more name removes the countries of that name, and nothing
    else. *)
Lemma getRemainingCountries_asked
    countryData askedQuestions selectedRegion selectedSubregion n :
  Quiz.getRemainingCountries countryData (askedQuestions ∪ {[n]})
    selectedRegion selectedSubregion
  = filter (λ c, Quiz.name c ≠ n)
      (Quiz.getRemainingCountries countryData askedQuestions
         selectedRegion selectedSubregion).
Proof.
  unfold Quiz.getRemainingCountries.
  assert (Hunasked :
    filter (λ country, Quiz.name country ∉ askedQuestions ∪ {[n]}) countryData
    = filter (λ c, Quiz.name c ≠ n)
        (filter (λ country, Quiz.name country ∉ askedQuestions) countryData)).
  { rewrite list_filter_filter. apply list_filter_iff. intros c.
    rewrite not_elem_of_union, not_elem_of_singleton. tauto. }
  rewrite Hunasked.
  destruct selectedRegion as [r|], selectedSubregion as [sr|];
    repeat case_decide; try done;
    rewrite ?(filter_filter_comm (λ c, Quiz.subregion c = sr));
    rewrite ?(filter_filter_comm (λ c, Quiz.continent c = r)); done.
Qed.

(** X18. Once the updater of [handleAnswer] has recorded an answer to one
    of the countries that [getRemainingCountries] returns, that country is
    no longer returned: the list gets shorter, keeps its order, and loses
    only the countries of the name that was asked. *)
Theorem answer_retires_question
    countryData selectedRegion selectedSubregion
    currentQuestion country streak prev :
  currentQuestion
  ∈ Quiz.getRemainingCountries countryData (Quiz.askedQuestions prev)
      selectedRegion selectedSubregion →
  let next := Quiz.recordAnswer currentQuestion country streak prev in
  let before :=
    Quiz.getRemainingCountries countryData (Quiz.askedQuestions prev)
      selectedRegion selectedSubregion in
  let after :=
    Quiz.getRemainingCountries countryData (Quiz.askedQuestions next)
      selectedRegion selectedSubregion in
  (currentQuestion ∉ after)
  ∧ length after < length before
  ∧ after `sublist_of` before
  ∧ (∀ c, c ∈ before → Quiz.name c ≠ Quiz.name currentQuestion → c ∈ after).
Proof.
  intros Hin next before after. subst next before after.
  cbn [Quiz.recordAnswer Quiz.askedQuestions].
  rewrite getRemainingCountries_asked.
  split; [|split; [|split]].
  - intros Hc. apply list_elem_of_filter in Hc as [Hne _]. by apply Hne.
  - apply (length_filter_lt _ _ currentQuestion); [done|]. intros Hne.
    by apply Hne.
  - apply sublist_filter.
  - intros c Hc Hne. by apply list_elem_of_filter.
Qed.

Lemma answer_retires_question_witness :
  Quiz.getRemainingCountries Quiz.atlas
    (Quiz.askedQuestions
       (Quiz.recordAnswer Quiz.japan Quiz.india 2
          (Quiz.mkGameState Quiz.playing Quiz.region 0 60 false None None
             {[ "India" ]})))
    (Some "Asia") (Some "All Regions")
  `sublist_of`
  Quiz.getRemainingCountries Quiz.atlas {[ "India" ]}
    (Some "Asia") (Some "All Regions").
Proof.
  refine (proj1 (proj2 (proj2
    (answer_retires_question Quiz.atlas (Some "Asia") (Some "All Regions")
       Quiz.japan Quiz.india 2
       (Quiz.mkGameState Quiz.playing Quiz.region 0 60 false None None
          {[ "India" ]}) _)))).
  vm_compute. left.
Defined.
